(** * Verification of the vulnerability checker and the CVE triage worker

    A shallow embedding of
    - [internal/vulncheck/semver.go]   (version-range containment),
    - [cmd/govulncheck/main.go]        (call-stack summaries),
    - [internal/worker/update.go]      (incremental CVE update),
    - [internal/worker/worker.go]      (issue creation),
    together with the properties of these functions that the design
    document states.

    Go strings are byte strings; they are modelled by [string], whose
    characters are 8-bit.  Go slices that are mutated in place are modelled
    by lists together with explicit state passing: a function that writes
    through a slice returns the new contents of the backing array. *)

From Stdlib Require Import ZArith Ascii String List Lia Bool Sorted.
From stdpp Require Import gmap strings list pretty.

Local Open Scope string_scope.

(** ** Go's [strings] package (the functions used by the sources) *)

Module GoStrings.

(** [strings.HasPrefix(s, prefix)]. *)
Definition HasPrefix (s prefix : string) : bool := String.prefix prefix s.

(** [strings.TrimPrefix(s, prefix)]. *)
Definition TrimPrefix (s prefix : string) : string :=
  if HasPrefix s prefix
  then String.substring (String.length prefix)
                        (String.length s - String.length prefix) s
  else s.

(** Bytewise [s < t] and [s <= t] on Go strings. *)
Definition lt (s t : string) : bool :=
  match String.compare s t with Lt => true | _ => false end.

Definition le (s t : string) : bool :=
  match String.compare s t with Gt => false | _ => true end.

(** [s1 == s2] *)
Definition eq (s t : string) : bool := String.eqb s t.

Lemma eq_true s t : eq s t = true <-> s = t.
Proof. apply String.eqb_eq. Qed.

Lemma eq_false s t : eq s t = false <-> s <> t.
Proof. apply String.eqb_neq. Qed.

Lemma prefix_append p s : String.prefix p (p +:+ s) = true.
Proof.
  induction p as [|c p IH]; simpl.
  - now destruct s.
  - destruct (ascii_dec c c); [exact IH | congruence].
Qed.

Lemma substring_all s : String.substring 0 (String.length s) s = s.
Proof. induction s as [|c s IH]; simpl; [reflexivity | now rewrite IH]. Qed.

Lemma substring_append p s :
  String.substring (String.length p) (String.length s) (p +:+ s) = s.
Proof.
  induction p as [|c p IH]; simpl; [apply substring_all | exact IH].
Qed.

Lemma length_append p s :
  String.length (p +:+ s) = String.length p + String.length s.
Proof. induction p as [|c p IH]; simpl; [reflexivity | now rewrite IH]. Qed.

Lemma TrimPrefix_append p s : TrimPrefix (p +:+ s) p = s.
Proof.
  unfold TrimPrefix, HasPrefix. rewrite prefix_append, length_append.
  replace (String.length p + String.length s - String.length p)
    with (String.length s) by lia.
  apply substring_append.
Qed.

Lemma append_assoc s t u : (s +:+ t) +:+ u = s +:+ (t +:+ u).
Proof.
  induction s as [|c s IH]; [reflexivity|].
  change (String c ((s +:+ t) +:+ u) = String c (s +:+ (t +:+ u))).
  now rewrite IH.
Qed.

Lemma append_empty_r s : s +:+ "" = s.
Proof.
  induction s as [|c s IH]; [reflexivity|].
  change (String c (s +:+ "") = String c s). now rewrite IH.
Qed.

End GoStrings.

(** ** [golang.org/x/mod/semver]: the comparison used by the range check

    The library is an external dependency of the repository.  [Compare] is
    modelled after its documented behaviour: a version is valid when it has
    the form [vMAJOR[.MINOR[.PATCH[-PRERELEASE][+BUILD]]]]; an invalid
    version is smaller than every valid one and equal to every invalid one;
    valid versions are ordered by major, minor and patch as numbers and then
    by the pre-release identifiers. *)

Module ModSemver.

Definition isDigit (c : ascii) : bool :=
  ((48 <=? nat_of_ascii c) && (nat_of_ascii c <=? 57))%nat.

Definition isIdentChar (c : ascii) : bool :=
  let n := nat_of_ascii c in
  (((65 <=? n) && (n <=? 90)) || ((97 <=? n) && (n <=? 122))
   || ((48 <=? n) && (n <=? 57)) || (n =? 45))%nat.

(** The longest prefix of digits and what follows it. *)
Fixpoint spanDigits (v : string) : string * string :=
  match v with
  | String c r =>
      if isDigit c
      then let '(d, rest) := spanDigits r in (String c d, rest)
      else (EmptyString, v)
  | EmptyString => (EmptyString, EmptyString)
  end.

(** [parseInt]: a number without leading zeroes, and the rest. *)
Definition parseInt (v : string) : option (string * string) :=
  match v with
  | EmptyString => None
  | String c _ =>
      if negb (isDigit c) then None
      else
        let '(t, rest) := spanDigits v in
        if Ascii.eqb c "0" && negb (String.length t =? 1)%nat then None
        else Some (t, rest)
  end.

(** [isBadNum]: all digits, more than one, with a leading zero. *)
Definition isBadNum (v : string) : bool :=
  let '(d, rest) := spanDigits v in
  GoStrings.eq rest "" && (1 <? String.length v)%nat
  && match v with String c _ => Ascii.eqb c "0" | EmptyString => false end.

(** [isNum]: all digits. *)
Definition isNum (v : string) : bool :=
  GoStrings.eq (snd (spanDigits v)) "".

(** The scanning loop shared by [parsePrerelease] and [parseBuild]: [cur]
    is the identifier read since the last dot; the loop stops at [stop]
    when one is given ([+] for a pre-release, nothing for build data). *)
Fixpoint scanIdents (stop : option ascii) (checkNum : bool)
         (v cur : string) : option (string * string) :=
  let bad := GoStrings.eq cur "" || (checkNum && isBadNum cur) in
  match v with
  | EmptyString => if bad then None else Some (EmptyString, EmptyString)
  | String c r =>
      if match stop with Some s => Ascii.eqb c s | None => false end
      then if bad then None else Some (EmptyString, v)
      else if negb (isIdentChar c) && negb (Ascii.eqb c ".") then None
      else
        let next :=
          if Ascii.eqb c "."
          then if bad then None else scanIdents stop checkNum r EmptyString
          else scanIdents stop checkNum r (cur +:+ String c EmptyString) in
        match next with
        | Some (t, rest) => Some (String c t, rest)
        | None => None
        end
  end.

Definition parsePrerelease (v : string) : option (string * string) :=
  match v with
  | String "-" r =>
      match scanIdents (Some "+"%char) true r EmptyString with
      | Some (t, rest) => Some (String "-" t, rest)
      | None => None
      end
  | _ => None
  end.

Definition parseBuild (v : string) : option (string * string) :=
  match v with
  | String "+" r =>
      match scanIdents None false r EmptyString with
      | Some (t, rest) => Some (String "+" t, rest)
      | None => None
      end
  | _ => None
  end.

Record parsed := {
  major : string;
  minor : string;
  patch : string;
  short : string;
  prerelease : string;
  build : string;
}.

Definition startsWith (c : ascii) (v : string) : bool :=
  match v with String d _ => Ascii.eqb c d | EmptyString => false end.

Definition tail (v : string) : string :=
  match v with String _ r => r | EmptyString => EmptyString end.

(** The part of [parse] after the patch number. *)
Definition parseSuffix (ma mi pa v : string) : option parsed :=
  let pre :=
    if startsWith "-" v
    then match parsePrerelease v with
         | Some (t, rest) => Some (t, rest)
         | None => None
         end
    else Some (EmptyString, v) in
  match pre with
  | None => None
  | Some (prerel, v) =>
      let bld :=
        if startsWith "+" v
        then match parseBuild v with
             | Some (t, rest) => Some (t, rest)
             | None => None
             end
        else Some (EmptyString, v) in
      match bld with
      | None => None
      | Some (b, v) =>
          if GoStrings.eq v "" then
            Some {| major := ma; minor := mi; patch := pa; short := "";
                    prerelease := prerel; build := b |}
          else None
      end
  end.

Definition parse (v : string) : option parsed :=
  match v with
  | String "v" v1 =>
      match parseInt v1 with
      | None => None
      | Some (ma, v2) =>
          if GoStrings.eq v2 "" then
            Some {| major := ma; minor := "0"; patch := "0"; short := ".0.0";
                    prerelease := ""; build := "" |}
          else if negb (startsWith "." v2) then None
          else
            match parseInt (tail v2) with
            | None => None
            | Some (mi, v3) =>
                if GoStrings.eq v3 "" then
                  Some {| major := ma; minor := mi; patch := "0";
                          short := ".0"; prerelease := ""; build := "" |}
                else if negb (startsWith "." v3) then None
                else
                  match parseInt (tail v3) with
                  | None => None
                  | Some (pa, v4) => parseSuffix ma mi pa v4
                  end
            end
      end
  | _ => None
  end.

(** [compareInt]: decimal strings without leading zeroes, as numbers. *)
Definition compareInt (x y : string) : Z :=
  if GoStrings.eq x y then 0%Z
  else if (String.length x <? String.length y)%nat then (-1)%Z
  else if (String.length y <? String.length x)%nat then 1%Z
  else if GoStrings.lt x y then (-1)%Z else 1%Z.

(** [nextIdent]: up to the next dot. *)
Fixpoint nextIdent (x : string) : string * string :=
  match x with
  | String c r =>
      if Ascii.eqb c "." then (EmptyString, x)
      else let '(d, rest) := nextIdent r in (String c d, rest)
  | EmptyString => (EmptyString, EmptyString)
  end.

(** The loop of [comparePrerelease]; every round removes at least one
    byte of [x], so [String.length x] rounds are enough. *)
Fixpoint comparePrereleaseLoop (rounds : nat) (x y : string) : Z :=
  match rounds with
  | S k =>
      if negb (GoStrings.eq x "") && negb (GoStrings.eq y "") then
        let '(dx, x') := nextIdent (tail x) in
        let '(dy, y') := nextIdent (tail y) in
        if negb (GoStrings.eq dx dy) then
          let ix := isNum dx in
          let iy := isNum dy in
          if negb (Bool.eqb ix iy) then (if ix then (-1)%Z else 1%Z)
          else if ix && (String.length dx <? String.length dy)%nat then (-1)%Z
          else if ix && (String.length dy <? String.length dx)%nat then 1%Z
          else if GoStrings.lt dx dy then (-1)%Z else 1%Z
        else comparePrereleaseLoop k x' y'
      else if GoStrings.eq x "" then (-1)%Z else 1%Z
  | O => if GoStrings.eq x "" then (-1)%Z else 1%Z
  end.

Definition comparePrerelease (x y : string) : Z :=
  if GoStrings.eq x y then 0%Z
  else if GoStrings.eq x "" then 1%Z
  else if GoStrings.eq y "" then (-1)%Z
  else comparePrereleaseLoop (String.length x) x y.

(** [semver.Compare(v, w)]: -1, 0 or +1. *)
Definition Compare (v w : string) : Z :=
  match parse v, parse w with
  | None, None => 0%Z
  | None, Some _ => (-1)%Z
  | Some _, None => 1%Z
  | Some pv, Some pw =>
      let c := compareInt (major pv) (major pw) in
      if negb (c =? 0)%Z then c else
      let c := compareInt (minor pv) (minor pw) in
      if negb (c =? 0)%Z then c else
      let c := compareInt (patch pv) (patch pw) in
      if negb (c =? 0)%Z then c else
      comparePrerelease (prerelease pv) (prerelease pw)
  end.

End ModSemver.

(** ** Go's [sort.SliceStable]

    The standard library sorts a slice in place through two callbacks:
    [Less(i, j)], which here reads the slice being sorted, and [Swap(i, j)].
    Its algorithm is insertion sort on blocks of 20 elements followed by
    rounds of in-place merging ([symMerge]).  A slice is a list; every
    function returns the new contents.  The loops of the library are
    counted loops here: the counter given at each call is the loop's
    variant, and [*_rounds] lemmas show that a larger counter changes
    nothing. *)

Module GoSort.

Section Stable.

Context {A : Type} (less : A -> A -> bool).

(** [data.Less(i, j)] on the current contents. *)
Definition Less (s : list A) (i j : nat) : bool :=
  match s !! i, s !! j with
  | Some x, Some y => less x y
  | _, _ => false
  end.

(** [data.Swap(i, j)]. *)
Definition Swap (s : list A) (i j : nat) : list A :=
  match s !! i, s !! j with
  | Some x, Some y => <[j:=x]> (<[i:=y]> s)
  | _, _ => s
  end.

(** [for j := i; j > a && data.Less(j, j-1); j-- { data.Swap(j, j-1) }] *)
Fixpoint insertionInner (s : list A) (a j : nat) : list A :=
  match j with
  | S j' =>
      if (a <? j)%nat && Less s j j'
      then insertionInner (Swap s j j') a j'
      else s
  | O => s
  end.

(** [for i := ...; i < b; i++ { inner loop }], with [n] rounds left. *)
Fixpoint insertionOuter (n : nat) (s : list A) (a i : nat) : list A :=
  match n with
  | S n' => insertionOuter n' (insertionInner s a i) a (S i)
  | O => s
  end.

(** [insertionSort(data, a, b)] sorts [data[a:b]]. *)
Definition insertionSort (s : list A) (a b : nat) : list A :=
  insertionOuter (b - (a + 1)) s a (a + 1).

(** [for i < j { h := (i+j)/2; if cond(h) { i = h+1 } else { j = h } }],
    the binary search that [symMerge] runs three times; the result is [i]. *)
Fixpoint bsearch (rounds : nat) (cond : nat -> bool) (i j : nat) : nat :=
  match rounds with
  | S k =>
      if (i <? j)%nat then
        let h := ((i + j) / 2)%nat in
        if cond h then bsearch k cond (S h) j else bsearch k cond i h
      else i
  | O => i
  end.

(** [for k := a; k < i-1; k++ { data.Swap(k, k+1) }] *)
Fixpoint swapUp (n : nat) (s : list A) (k : nat) : list A :=
  match n with
  | S n' => swapUp n' (Swap s k (S k)) (S k)
  | O => s
  end.

(** [for k := m; k > i; k-- { data.Swap(k, k-1) }] *)
Fixpoint swapDown (n : nat) (s : list A) (k : nat) : list A :=
  match n with
  | S n' => swapDown n' (Swap s k (k - 1)) (k - 1)
  | O => s
  end.

(** [swapRange(data, a, b, n)] *)
Fixpoint swapRange (n : nat) (s : list A) (a b : nat) : list A :=
  match n with
  | S n' => swapRange n' (Swap s a b) (S a) (S b)
  | O => s
  end.

(** The loop of [rotate]: [i] and [j] are the lengths of the two blocks
    around [m] that remain to be exchanged. *)
Fixpoint rotateLoop (rounds : nat) (s : list A) (m i j : nat) : list A :=
  match rounds with
  | S k =>
      if negb (i =? j)%nat then
        if (j <? i)%nat
        then rotateLoop k (swapRange j s (m - i) m) m (i - j) j
        else rotateLoop k (swapRange i s (m - i) (m + j - i)) m i (j - i)
      else swapRange i s (m - i) m
  | O => swapRange i s (m - i) m
  end.

(** [rotate(data, a, m, b)] exchanges [data[a:m]] and [data[m:b]]. *)
Definition rotate (s : list A) (a m b : nat) : list A :=
  rotateLoop ((m - a) + (b - m)) s m (m - a) (b - m).

(** [symMerge(data, a, m, b)] merges the sorted [data[a:m]] and
    [data[m:b]]. *)
Fixpoint symMergeRec (depth : nat) (s : list A) (a m b : nat) : list A :=
  match depth with
  | O => s
  | S d =>
      if (m - a =? 1)%nat then
        let i := bsearch (b - m) (fun h => Less s h a) m b in
        swapUp (i - 1 - a) s a
      else if (b - m =? 1)%nat then
        let i := bsearch (m - a) (fun h => negb (Less s m h)) a m in
        swapDown (m - i) s m
      else
        let mid := ((a + b) / 2)%nat in
        let n := (mid + m)%nat in
        let start0 := if (mid <? m)%nat then (n - b)%nat else a in
        let r := if (mid <? m)%nat then mid else m in
        let p := (n - 1)%nat in
        let start :=
          bsearch (r - start0) (fun c => negb (Less s (p - c) c)) start0 r in
        let end_ := (n - start)%nat in
        let s1 :=
          if (start <? m)%nat && (m <? end_)%nat
          then rotate s start m end_ else s in
        let s2 :=
          if (a <? start)%nat && (start <? mid)%nat
          then symMergeRec d s1 a start mid else s1 in
        if (mid <? end_)%nat && (end_ <? b)%nat
        then symMergeRec d s2 mid end_ b else s2
  end.

Definition symMerge (s : list A) (a m b : nat) : list A :=
  symMergeRec (b - a) s a m b.

(** [for b <= n { insertionSort(data, a, b); a = b; b += blockSize }];
    the result carries the final [a]. *)
Fixpoint insertionBlocks (rounds : nat) (s : list A)
         (a b n blockSize : nat) : list A * nat :=
  match rounds with
  | S k =>
      if (b <=? n)%nat
      then insertionBlocks k (insertionSort s a b) b (b + blockSize) n blockSize
      else (s, a)
  | O => (s, a)
  end.

(** [for b <= n { symMerge(data, a, a+blockSize, b); a = b;
    b += 2*blockSize }] *)
Fixpoint mergeBlocks (rounds : nat) (s : list A)
         (a b n blockSize : nat) : list A * nat :=
  match rounds with
  | S k =>
      if (b <=? n)%nat
      then mergeBlocks k (symMerge s a (a + blockSize) b) b
                       (b + 2 * blockSize) n blockSize
      else (s, a)
  | O => (s, a)
  end.

(** [for blockSize < n { ...; blockSize *= 2 }] *)
Fixpoint mergePasses (rounds : nat) (s : list A) (n blockSize : nat)
  : list A :=
  match rounds with
  | S k =>
      if (blockSize <? n)%nat then
        let '(s1, a) := mergeBlocks n s 0 (2 * blockSize) n blockSize in
        let m := (a + blockSize)%nat in
        let s2 := if (m <? n)%nat then symMerge s1 a m n else s1 in
        mergePasses k s2 n (2 * blockSize)
      else s
  | O => s
  end.

(** [stable(data, n)] *)
Definition stable (s : list A) (n : nat) : list A :=
  let blockSize := 20%nat in
  let '(s1, a) := insertionBlocks n s 0 blockSize n blockSize in
  let s2 := insertionSort s1 a n in
  mergePasses n s2 n blockSize.

(** [sort.SliceStable(x, less)]: the contents of [x] afterwards. *)
Definition SliceStable (s : list A) : list A := stable s (length s).

(** *** Every step is a swap: the result is a permutation *)

Lemma Swap_perm s i j : Swap s i j ≡ₚ s.
Proof.
  unfold Swap.
  destruct (s !! i) as [x|] eqn:Hi; [|reflexivity].
  destruct (s !! j) as [y|] eqn:Hj; [|reflexivity].
  now apply Permutation_insert_swap.
Qed.

Lemma insertionInner_perm s a j : insertionInner s a j ≡ₚ s.
Proof.
  revert s. induction j as [|j IH]; intros s; simpl; [reflexivity|].
  destruct ((a <? S j)%nat && Less s (S j) j); [|reflexivity].
  rewrite IH. apply Swap_perm.
Qed.

Lemma insertionOuter_perm n s a i : insertionOuter n s a i ≡ₚ s.
Proof.
  revert s i. induction n as [|n IH]; intros s i; simpl; [reflexivity|].
  rewrite IH. apply insertionInner_perm.
Qed.

Lemma insertionSort_perm s a b : insertionSort s a b ≡ₚ s.
Proof. apply insertionOuter_perm. Qed.

Lemma swapUp_perm n s k : swapUp n s k ≡ₚ s.
Proof.
  revert s k. induction n as [|n IH]; intros s k; simpl; [reflexivity|].
  rewrite IH. apply Swap_perm.
Qed.

Lemma swapDown_perm n s k : swapDown n s k ≡ₚ s.
Proof.
  revert s k. induction n as [|n IH]; intros s k; simpl; [reflexivity|].
  rewrite IH. apply Swap_perm.
Qed.

Lemma swapRange_perm n s a b : swapRange n s a b ≡ₚ s.
Proof.
  revert s a b. induction n as [|n IH]; intros s a b; simpl; [reflexivity|].
  rewrite IH. apply Swap_perm.
Qed.

Lemma rotateLoop_perm k s m i j : rotateLoop k s m i j ≡ₚ s.
Proof.
  revert s i j. induction k as [|k IH]; intros s i j; simpl.
  - apply swapRange_perm.
  - destruct (negb (i =? j)%nat); [|apply swapRange_perm].
    destruct (j <? i)%nat; rewrite IH; apply swapRange_perm.
Qed.

Lemma rotate_perm s a m b : rotate s a m b ≡ₚ s.
Proof. apply rotateLoop_perm. Qed.

Lemma symMergeRec_perm d s a m b : symMergeRec d s a m b ≡ₚ s.
Proof.
  revert s a m b. induction d as [|d IH]; intros s a m b; simpl; [reflexivity|].
  destruct (m - a =? 1)%nat; [apply swapUp_perm|].
  destruct (b - m =? 1)%nat; [apply swapDown_perm|].
  repeat match goal with
         | |- context [if ?c then _ else _] => destruct c
         end;
    repeat rewrite IH; try rewrite rotate_perm; reflexivity.
Qed.

Lemma symMerge_perm s a m b : symMerge s a m b ≡ₚ s.
Proof. apply symMergeRec_perm. Qed.

Lemma insertionBlocks_perm k s a b n bs :
  fst (insertionBlocks k s a b n bs) ≡ₚ s.
Proof.
  revert s a b. induction k as [|k IH]; intros s a b; simpl; [reflexivity|].
  destruct (b <=? n)%nat; [|reflexivity].
  rewrite IH. apply insertionSort_perm.
Qed.

Lemma mergeBlocks_perm k s a b n bs :
  fst (mergeBlocks k s a b n bs) ≡ₚ s.
Proof.
  revert s a b. induction k as [|k IH]; intros s a b; simpl; [reflexivity|].
  destruct (b <=? n)%nat; [|reflexivity].
  rewrite IH. apply symMerge_perm.
Qed.

Lemma mergePasses_perm k s n bs : mergePasses k s n bs ≡ₚ s.
Proof.
  revert s bs. induction k as [|k IH]; intros s bs; simpl; [reflexivity|].
  destruct (bs <? n)%nat; [|reflexivity].
  match goal with
  | |- context [mergeBlocks ?k0 ?s0 ?a0 ?b0 ?n0 ?bs0] =>
      pose proof (mergeBlocks_perm k0 s0 a0 b0 n0 bs0) as Hb;
      destruct (mergeBlocks k0 s0 a0 b0 n0 bs0) as [s1 a]
  end.
  simpl in Hb. rewrite IH. destruct (a + bs <? n)%nat; [rewrite symMerge_perm|]; exact Hb.
Qed.

Lemma stable_perm s n : stable s n ≡ₚ s.
Proof.
  unfold stable.
  pose proof (insertionBlocks_perm n s 0 20 n 20) as Hb.
  destruct (insertionBlocks n s 0 20 n 20) as [s1 a]. simpl in Hb.
  cbv beta iota zeta. now rewrite mergePasses_perm, insertionSort_perm.
Qed.

(** *** The loop counters are large enough

    Each lemma says that two counters above the loop's variant give the
    same result: the counted loop stops by its own test, as the library's
    loop does, and never by running out of rounds. *)

Lemma bsearch_rounds cond k1 k2 i j :
  j - i <= k1 -> j - i <= k2 -> bsearch k1 cond i j = bsearch k2 cond i j.
Proof.
  revert k2 i j. induction k1 as [|k1 IH]; intros k2 i j H1 H2.
  - destruct k2 as [|k2]; cbn [bsearch]; [reflexivity|].
    destruct (Nat.ltb_spec i j); [lia | reflexivity].
  - destruct k2 as [|k2]; cbn [bsearch].
    + destruct (Nat.ltb_spec i j); [lia | reflexivity].
    + destruct (Nat.ltb_spec i j) as [Hlt|]; [|reflexivity].
      assert (i <= (i + j) / 2 < j) as Hh.
      { pose proof (Nat.div_mod_eq (i + j) 2).
        pose proof (Nat.mod_upper_bound (i + j) 2). lia. }
      destruct (cond ((i + j) / 2)); apply IH; lia.
Qed.

Lemma rotateLoop_rounds k1 k2 s m i j :
  0 < i -> 0 < j -> i + j <= k1 -> i + j <= k2 ->
  rotateLoop k1 s m i j = rotateLoop k2 s m i j.
Proof.
  revert k2 s i j. induction k1 as [|k1 IH]; intros k2 s i j Hi Hj H1 H2;
    [lia|].
  destruct k2 as [|k2]; [lia|]. cbn [rotateLoop].
  destruct (Nat.eqb_spec i j); cbn [negb]; [reflexivity|].
  destruct (Nat.ltb_spec j i); apply IH; lia.
Qed.

Lemma bsearch_done cond k i j : j <= i -> bsearch k cond i j = i.
Proof.
  intros Hji. destruct k as [|k]; cbn [bsearch]; [reflexivity|].
  destruct (Nat.ltb_spec i j); [lia | reflexivity].
Qed.

(** With [b <= a] the merge has nothing to do, whatever the counter. *)
Lemma symMergeRec_empty d s a m b : b <= a -> symMergeRec d s a m b = s.
Proof.
  intros Hba. destruct d as [|d]; cbn [symMergeRec]; [reflexivity|].
  destruct (Nat.eqb_spec (m - a) 1) as [E1|E1].
  { rewrite bsearch_done by lia. now replace (m - 1 - a) with 0 by lia. }
  destruct (Nat.eqb_spec (b - m) 1) as [E2|E2].
  { rewrite bsearch_done by lia. now replace (m - a) with 0 by lia. }
  assert (2 * ((a + b) / 2) <= a + b < 2 * ((a + b) / 2) + 2) as Hmid.
  { pose proof (Nat.div_mod_eq (a + b) 2).
    pose proof (Nat.mod_upper_bound (a + b) 2). lia. }
  set (mid := (a + b) / 2) in *.
  destruct (Nat.ltb_spec mid m) as [Hm|Hm]; rewrite bsearch_done by lia.
  - destruct (Nat.ltb_spec (mid + m - b) m); [lia|]. cbn [andb].
    destruct (Nat.ltb_spec (mid + m - b) mid); [lia|].
    rewrite andb_false_r.
    destruct (Nat.ltb_spec (mid + m - (mid + m - b)) b); [lia|].
    now rewrite andb_false_r.
  - destruct (Nat.ltb_spec a m); [lia|]. cbn [andb].
    destruct (Nat.ltb_spec a a); [lia|]. cbn [andb].
    destruct (Nat.ltb_spec mid (mid + m - a)); [lia|]. reflexivity.
Qed.

Lemma symMergeRec_rounds d1 d2 s a m b :
  b - a <= d1 -> b - a <= d2 ->
  symMergeRec d1 s a m b = symMergeRec d2 s a m b.
Proof.
  revert d2 s a m b. induction d1 as [|d1 IH]; intros d2 s a m b H1 H2.
  - rewrite !symMergeRec_empty by lia. reflexivity.
  - destruct d2 as [|d2].
    + rewrite !symMergeRec_empty by lia. reflexivity.
    + cbn [symMergeRec].
      destruct (Nat.eqb_spec (m - a) 1); [reflexivity|].
      destruct (Nat.eqb_spec (b - m) 1); [reflexivity|].
      assert (2 * ((a + b) / 2) <= a + b < 2 * ((a + b) / 2) + 2) as Hmid.
      { pose proof (Nat.div_mod_eq (a + b) 2).
        pose proof (Nat.mod_upper_bound (a + b) 2). lia. }
      set (mid := (a + b) / 2) in *.
      set (start := bsearch _ _ _ _).
      set (s1 := if (start <? m)%nat && _ then _ else s).
      assert ((if (a <? start)%nat && (start <? mid)%nat
               then symMergeRec d1 s1 a start mid else s1)
              = (if (a <? start)%nat && (start <? mid)%nat
                 then symMergeRec d2 s1 a start mid else s1)) as ->.
      { destruct (Nat.ltb_spec a start), (Nat.ltb_spec start mid);
          cbn [andb]; try reflexivity. apply IH; lia. }
      destruct (Nat.ltb_spec mid (mid + m - start)),
               (Nat.ltb_spec (mid + m - start) b);
        cbn [andb]; try reflexivity. apply IH; lia.
Qed.

Lemma insertionBlocks_rounds k1 k2 s a b n bs :
  0 < bs -> S n - b <= k1 -> S n - b <= k2 ->
  insertionBlocks k1 s a b n bs = insertionBlocks k2 s a b n bs.
Proof.
  intros Hbs. revert k2 s a b.
  induction k1 as [|k1 IH]; intros k2 s a b H1 H2.
  - destruct k2 as [|k2]; simpl; [reflexivity|].
    destruct (Nat.leb_spec b n); [lia | reflexivity].
  - destruct k2 as [|k2]; simpl;
      destruct (Nat.leb_spec b n); try reflexivity; try lia.
    apply IH; lia.
Qed.

Lemma mergeBlocks_rounds k1 k2 s a b n bs :
  0 < bs -> S n - b <= k1 -> S n - b <= k2 ->
  mergeBlocks k1 s a b n bs = mergeBlocks k2 s a b n bs.
Proof.
  intros Hbs. revert k2 s a b.
  induction k1 as [|k1 IH]; intros k2 s a b H1 H2.
  - destruct k2 as [|k2]; simpl; [reflexivity|].
    destruct (Nat.leb_spec b n); [lia | reflexivity].
  - destruct k2 as [|k2]; simpl;
      destruct (Nat.leb_spec b n); try reflexivity; try lia.
    apply IH; lia.
Qed.

Lemma mergePasses_rounds k1 k2 s n bs :
  0 < bs -> n - bs <= k1 -> n - bs <= k2 ->
  mergePasses k1 s n bs = mergePasses k2 s n bs.
Proof.
  revert k2 s bs.
  induction k1 as [|k1 IH]; intros k2 s bs Hbs H1 H2.
  - destruct k2 as [|k2]; cbn [mergePasses]; [reflexivity|].
    destruct (Nat.ltb_spec bs n); [lia | reflexivity].
  - destruct k2 as [|k2]; cbn [mergePasses];
      destruct (Nat.ltb_spec bs n); try reflexivity; try lia.
    destruct (mergeBlocks n s 0 (2 * bs) n bs) as [s1 a].
    apply IH; lia.
Qed.

(** A slice of at most 20 elements is sorted by one insertion sort. *)
Lemma SliceStable_short s :
  length s <= 20 -> SliceStable s = insertionSort s 0 (length s).
Proof.
  intros Hn. unfold SliceStable, stable.
  set (n := length s) in *.
  destruct (Nat.eq_dec n 20) as [E|E].
  - rewrite E. reflexivity.
  - assert (insertionBlocks n s 0 20 n 20 = (s, 0)) as ->.
    { destruct n as [|n']; cbn [insertionBlocks]; [reflexivity|].
      destruct (Nat.leb_spec 20 (S n')); [lia | reflexivity]. }
    cbv beta iota zeta.
    destruct n as [|n']; [reflexivity|]. cbn [mergePasses].
    destruct (Nat.ltb_spec 20 (S n')); [lia | reflexivity].
Qed.

Lemma SliceStable_perm s : SliceStable s ≡ₚ s.
Proof. apply stable_perm. Qed.

Lemma SliceStable_length s : length (SliceStable s) = length s.
Proof. apply Permutation_length, SliceStable_perm. Qed.

End Stable.

End GoSort.

(** ** [internal/vulncheck/semver.go]: version-range containment *)

Module Vulncheck.

(** Modelled from the spec: the [osv] package (range events, typed ranges)
    is not among the sources.  A range is a sequence of events, each either
    [introduced = v] or [fixed = v]; the unset field is the empty string;
    ranges are typed, and [TypeSemver] marks the semver ranges. *)
Record RangeEvent := {
  Introduced : string;
  Fixed : string;
}.

Definition AffectsRangeType := string.

Definition TypeUnspecified : AffectsRangeType := "UNSPECIFIED".
Definition TypeSemver : AffectsRangeType := "SEMVER".

Record AffectsRange := {
  Type_ : AffectsRangeType;
  Events : list RangeEvent;
}.

Definition Affects := list AffectsRange.

(** Modelled from the spec: [isem.CanonicalizeSemverPrefix] lives in
    [internal/semver], which is not among the sources.  It accepts versions
    prefixed [v], [go], or bare, and canonicalizes to the [v]-prefixed form:
    the prefix is stripped and [v] is added. *)
Definition CanonicalizeSemverPrefix (s : string) : string :=
  "v" +:+ GoStrings.TrimPrefix (GoStrings.TrimPrefix s "v") "go".

(** The [less] closure given to [sort.SliceStable], on the two events it
    reads. *)
Definition eventLess (e1 e2 : RangeEvent) : bool :=
  let v1 := Introduced e1 in
  if GoStrings.eq v1 "0" then true
  else
    let v1 := if negb (GoStrings.eq (Fixed e1) "") then Fixed e1 else v1 in
    let v2 := Introduced e2 in
    if GoStrings.eq v2 "0" then false
    else
      let v2 := if negb (GoStrings.eq (Fixed e2) "") then Fixed e2 else v2 in
      (ModSemver.Compare (CanonicalizeSemverPrefix v1)
                         (CanonicalizeSemverPrefix v2) <? 0)%Z.

(** [sort.SliceStable(ar.Events, less)]: the backing array afterwards. *)
Definition sortEvents (es : list RangeEvent) : list RangeEvent :=
  GoSort.SliceStable eventLess es.

(** The body of [for _, e := range ar.Events], as a function of the flag;
    [v] is already canonical. *)
Definition affectedStep (v : string) (affected : bool) (e : RangeEvent)
  : bool :=
  if negb affected && negb (GoStrings.eq (Introduced e) "") then
    GoStrings.eq (Introduced e) "0"
    || (0 <=? ModSemver.Compare v (CanonicalizeSemverPrefix (Introduced e)))%Z
  else if affected && negb (GoStrings.eq (Fixed e) "") then
    (ModSemver.Compare v (CanonicalizeSemverPrefix (Fixed e)) <? 0)%Z
  else affected.

(** [containsSemver(ar, v)].  [ar] is passed by value, but its [Events]
    slice shares the caller's backing array, which the sort writes: the
    second component is the contents of that array after the call. *)
Definition containsSemver (ar : AffectsRange) (v : string)
  : bool * list RangeEvent :=
  if negb (GoStrings.eq (Type_ ar) TypeSemver) then (false, Events ar)
  else if (length (Events ar) =? 0)%nat then (true, Events ar)
  else
    let v := CanonicalizeSemverPrefix v in
    let events := sortEvents (Events ar) in
    (fold_left (affectedStep v) events false, events).

(** The loop of [affectsSemver]; the ranges come back with their event
    arrays as the calls to [containsSemver] left them. *)
Fixpoint affectsSemverLoop (a : Affects) (v : string)
         (semverRangePresent : bool) : bool * Affects :=
  match a with
  | [] => (negb semverRangePresent, [])
  | r :: rest =>
      if negb (GoStrings.eq (Type_ r) TypeSemver) then
        let '(res, rest') := affectsSemverLoop rest v semverRangePresent in
        (res, r :: rest')
      else
        let '(c, events) := containsSemver r v in
        let r' := {| Type_ := Type_ r; Events := events |} in
        if c then (true, r' :: rest)
        else
          let '(res, rest') := affectsSemverLoop rest v true in
          (res, r' :: rest')
  end.

(** [affectsSemver(a, v)] *)
Definition affectsSemver (a : Affects) (v : string) : bool * Affects :=
  if (length a =? 0)%nat then (true, a)
  else affectsSemverLoop a v false.

(** *** The words of the design document *)







(** The range of scenario 5. *)
Definition scenarioRange : AffectsRange :=
  {| Type_ := TypeSemver;
     Events := [ {| Introduced := "0"; Fixed := "" |};
                 {| Introduced := ""; Fixed := "1.18.6" |};
                 {| Introduced := "1.19.0"; Fixed := "" |};
                 {| Introduced := ""; Fixed := "1.19.1" |} ] |}.


(** *** Properties *)

Lemma sortEvents_perm es : sortEvents es ≡ₚ es.
Proof. apply GoSort.SliceStable_perm. Qed.

Lemma containsSemver_not_semver ar v :
  Type_ ar <> TypeSemver -> containsSemver ar v = (false, Events ar).
Proof.
  intros H. unfold containsSemver.
  apply GoStrings.eq_false in H. now rewrite H.
Qed.

Lemma containsSemver_no_events ar v :
  Type_ ar = TypeSemver -> Events ar = [] ->
  containsSemver ar v = (true, Events ar).
Proof.
  intros H E. unfold containsSemver.
  apply GoStrings.eq_true in H. now rewrite H, E.
Qed.

Lemma containsSemver_events ar v :
  Type_ ar = TypeSemver -> Events ar <> [] ->
  containsSemver ar v =
    (fold_left (affectedStep (CanonicalizeSemverPrefix v))
               (sortEvents (Events ar)) false,
     sortEvents (Events ar)).
Proof.
  intros H E. unfold containsSemver.
  apply GoStrings.eq_true in H. rewrite H. cbn [negb].
  destruct (Events ar) as [|e es]; [congruence | reflexivity].
Qed.











(** *** Claims about [containsSemver] and [affectsSemver] *)



(** The loop of [affectsSemver] returns true exactly when a semver range
    of the rest contains [v], or no semver range was or is present. *)
Lemma affectsSemverLoop_true a v present :
  fst (affectsSemverLoop a v present) = true <->
  (exists r, In r a /\ Type_ r = TypeSemver
             /\ fst (containsSemver r v) = true)
  \/ (present = false /\ forall r, In r a -> Type_ r <> TypeSemver).
Proof.
  revert present. induction a as [|r rest IH]; intros present.
  - cbn. split.
    + intros H. right. split; [now destruct present | tauto].
    + intros [[r [[] _]]|[-> _]]. reflexivity.
  - cbn [affectsSemverLoop].
    destruct (GoStrings.eq (Type_ r) TypeSemver) eqn:ET; cbn [negb].
    + apply GoStrings.eq_true in ET.
      destruct (containsSemver r v) as [c events] eqn:EC.
      destruct c.
      * cbn [fst]. split; [|reflexivity]. intros _. left. exists r.
        rewrite EC. cbn. auto.
      * specialize (IH true).
        destruct (affectsSemverLoop rest v true) as [res rest'].
        cbn [fst] in *. rewrite IH. split.
        -- intros [[r0 [Hin H]]|[Hp _]]; [|discriminate].
           left. exists r0. split; [now right | exact H].
        -- intros [[r0 [[->|Hin] [Ht Hc]]]|[_ Hno]].
           ++ rewrite EC in Hc. discriminate.
           ++ left. exists r0. auto.
           ++ exfalso. apply (Hno r); [now left | exact ET].
    + apply GoStrings.eq_false in ET. specialize (IH present).
      destruct (affectsSemverLoop rest v present) as [res rest'].
      cbn [fst] in *. rewrite IH. split.
      * intros [[r0 [Hin H]]|[Hp Hno]].
        -- left. exists r0. split; [now right | exact H].
        -- right. split; [exact Hp|]. intros r0 [->|Hin]; auto.
      * intros [[r0 [[->|Hin] [Ht Hc]]]|[Hp Hno]].
        -- contradiction.
        -- left. exists r0. auto.
        -- right. split; [exact Hp|]. intros r0 Hin. apply Hno. now right.
Qed.

(** C2. For every list of ranges [a] and version [v]: [affectsSemver]
    returns true when [a] is empty, returns true when no range of [a] is a
    semver range, and otherwise returns true exactly when some semver range
    of [a] contains [v] in the sense of [containsSemver]. *)
Theorem affectsSemver_spec :
  forall (a : Affects) (v : string),
    (a = [] -> fst (affectsSemver a v) = true)
    /\ ((forall r, In r a -> Type_ r <> TypeSemver) ->
        fst (affectsSemver a v) = true)
    /\ ((exists r, In r a /\ Type_ r = TypeSemver) ->
        (fst (affectsSemver a v) = true <->
         exists r, In r a /\ Type_ r = TypeSemver
                   /\ fst (containsSemver r v) = true)).
Proof.
  intros a v. unfold affectsSemver. repeat split.
  - intros ->. reflexivity.
  - intros Hno. destruct a as [|r rest]; [reflexivity|].
    cbn [length Nat.eqb]. apply affectsSemverLoop_true. right. auto.
  - destruct H as [r0 [Hin Ht]].
    destruct a as [|r rest]; [destruct Hin|]. cbn [length Nat.eqb].
    intros H. apply affectsSemverLoop_true in H.
    destruct H as [H|[_ Hno]]; [exact H|].
    exfalso. now apply (Hno r0).
  - destruct H as [r0 [Hin Ht]].
    destruct a as [|r rest]; [destruct Hin|]. cbn [length Nat.eqb].
    intros H. apply affectsSemverLoop_true. now left.
Qed.

Lemma affectsSemver_spec_witness :
  fst (affectsSemver [] "v0.0.0") = true
  /\ fst (affectsSemver
            [ {| Type_ := TypeUnspecified;
                 Events := [ {| Introduced := "3.0.0"; Fixed := "" |} ] |} ]
            "v3.0.0") = true
  /\ (fst (affectsSemver [scenarioRange] "v1.18.1") = true <->
      exists r, In r [scenarioRange] /\ Type_ r = TypeSemver
                /\ fst (containsSemver r "v1.18.1") = true).
Proof.
  split; [|split].
  - apply (proj1 (affectsSemver_spec [] "v0.0.0")). reflexivity.
  - apply (proj1 (proj2 (affectsSemver_spec _ "v3.0.0"))).
    intros r [<-|[]]. discriminate.
  - apply (proj2 (proj2 (affectsSemver_spec [scenarioRange] "v1.18.1"))).
    exists scenarioRange. split; [now left | reflexivity].
Defined.

(** A range whose events are not in sorted order (from the test suite). *)
Definition unsortedRange : AffectsRange :=
  {| Type_ := TypeSemver;
     Events := [ {| Introduced := "1.19.0"; Fixed := "" |};
                 {| Introduced := ""; Fixed := "1.19.1" |};
                 {| Introduced := "0"; Fixed := "" |};
                 {| Introduced := ""; Fixed := "1.18.6" |} ] |}.

(** C9, as stated, fails: after the call the caller's event array is
    sorted, here in another order than before. *)
Lemma containsSemver_reorders_events :
  snd (containsSemver unsortedRange "v1.18.1") <> Events unsortedRange
  /\ snd (containsSemver unsortedRange "v1.18.1")
     = [ {| Introduced := "0"; Fixed := "" |};
         {| Introduced := ""; Fixed := "1.18.6" |};
         {| Introduced := "1.19.0"; Fixed := "" |};
         {| Introduced := ""; Fixed := "1.19.1" |} ].
Proof.
  split.
  - vm_compute. discriminate.
  - vm_compute. reflexivity.
Qed.

(** C9, amended. [containsSemver] leaves the event array of [ar] unchanged
    when [ar] is not a semver range or has no events; otherwise the array
    holds the same events afterwards (a permutation, of the same length), in
    the order in which the stable sort of the function left them. *)
Theorem containsSemver_events_after :
  forall (ar : AffectsRange) (v : string),
    (Type_ ar <> TypeSemver \/ Events ar = [] ->
     snd (containsSemver ar v) = Events ar)
    /\ (Type_ ar = TypeSemver -> Events ar <> [] ->
        snd (containsSemver ar v) = sortEvents (Events ar))
    /\ snd (containsSemver ar v) ≡ₚ Events ar
    /\ length (snd (containsSemver ar v)) = length (Events ar).
Proof.
  intros ar v.
  assert (Type_ ar <> TypeSemver \/ Events ar = [] ->
          snd (containsSemver ar v) = Events ar) as Hsame.
  { intros [H|H].
    - now rewrite containsSemver_not_semver.
    - destruct (string_dec (Type_ ar) TypeSemver) as [E|E].
      + now rewrite containsSemver_no_events.
      + now rewrite containsSemver_not_semver. }
  assert (snd (containsSemver ar v) ≡ₚ Events ar) as Hperm.
  { destruct (string_dec (Type_ ar) TypeSemver) as [E|E].
    - assert (Events ar = [] \/ Events ar <> []) as [EE|EE]
        by (destruct (Events ar); [left | right]; congruence).
      + rewrite Hsame by auto. reflexivity.
      + rewrite containsSemver_events by assumption. apply sortEvents_perm.
    - rewrite Hsame by auto. reflexivity. }
  repeat split.
  - exact Hsame.
  - intros E H. now rewrite containsSemver_events.
  - exact Hperm.
  - now apply Permutation_length.
Qed.

Lemma containsSemver_events_after_witness :
  snd (containsSemver
         {| Type_ := TypeUnspecified; Events := Events unsortedRange |}
         "v1.18.1") = Events unsortedRange
  /\ snd (containsSemver unsortedRange "v1.18.1")
     = sortEvents (Events unsortedRange).
Proof.
  split.
  - apply (proj1 (containsSemver_events_after
                    {| Type_ := TypeUnspecified;
                       Events := Events unsortedRange |} "v1.18.1")).
    left. discriminate.
  - apply (proj1 (proj2 (containsSemver_events_after unsortedRange
                                                     "v1.18.1"))).
    + reflexivity.
    + discriminate.
Defined.

(** *** Ranges without a fix *)

(** The event introduces the vulnerability at or before the (canonical)
    version [v]. *)
Definition introducedBy (v : string) (e : RangeEvent) : bool :=
  negb (GoStrings.eq (Introduced e) "")
  && (GoStrings.eq (Introduced e) "0"
      || (0 <=? ModSemver.Compare v (CanonicalizeSemverPrefix (Introduced e)))%Z).

Lemma fold_affectedStep_unfixed v l b :
  Forall (fun e => Fixed e = "") l ->
  fold_left (affectedStep v) l b = b || existsb (introducedBy v) l.
Proof.
  revert b. induction l as [|e l IH]; intros b H.
  - cbn. now rewrite orb_false_r.
  - apply Forall_cons in H as [He H]. cbn [fold_left existsb].
    rewrite (IH _ H). unfold affectedStep, introducedBy. rewrite He.
    change (negb (GoStrings.eq "" "")) with false.
    destruct b; cbn [negb andb orb]; [reflexivity|].
    now destruct (negb (GoStrings.eq (Introduced e) "")).
Qed.

Lemma existsb_perm {A} (p : A -> bool) l1 l2 :
  l1 ≡ₚ l2 -> existsb p l1 = existsb p l2.
Proof.
  induction 1 as [|x l1 l2 _ IH|x y l|l1 l2 l3 _ IH1 _ IH2]; cbn [existsb].
  - reflexivity.
  - now rewrite IH.
  - now destruct (p x), (p y).
  - congruence.
Qed.

(** A range that was never fixed, introduced at the beginning of time and
    again later. *)
Definition unfixedRange : AffectsRange :=
  {| Type_ := TypeSemver;
     Events := [ {| Introduced := "1.5.0"; Fixed := "" |};
                 {| Introduced := "0"; Fixed := "" |} ] |}.

(** For a semver range with events none of which is a fix, a version is
    contained exactly when some event introduces the vulnerability at "0"
    or at a version that is not greater than it; the order of the events
    does not matter. *)
Theorem containsSemver_unfixed (ar : AffectsRange) (v : string) :
  Type_ ar = TypeSemver -> Events ar <> [] ->
  Forall (fun e => Fixed e = "") (Events ar) ->
  fst (containsSemver ar v)
  = existsb (introducedBy (CanonicalizeSemverPrefix v)) (Events ar).
Proof.
  intros Ht Hne Hfix. rewrite (containsSemver_events ar v Ht Hne). cbn [fst].
  rewrite fold_affectedStep_unfixed.
  - cbn [orb]. apply existsb_perm, sortEvents_perm.
  - now rewrite sortEvents_perm.
Qed.

Lemma containsSemver_unfixed_witness :
  fst (containsSemver unfixedRange "v0.0.1") = true.
Proof.
  rewrite (containsSemver_unfixed unfixedRange "v0.0.1" eq_refl).
  - reflexivity.
  - discriminate.
  - repeat constructor.
Defined.

End Vulncheck.

(** ** [cmd/govulncheck/main.go]: call-stack summaries *)

Module Govulncheck.

Local Open Scope Z_scope.

(** Modelled from the spec: [vulncheck.FuncNode], [vulncheck.StackEntry]
    and [vulncheck.CallStack] are declared in the [vulncheck] package,
    which is not among the sources.  A function node has a package path, a
    function name and an optional receiver type that may carry a pointer
    marker; a call stack lists its frames from the entry point (index 0)
    down to the vulnerable symbol. *)
Record FuncNode := {
  Name : string;
  RecvType : string;
  PkgPath : string;
}.

Record StackEntry := {
  Function : FuncNode;
}.

Abbreviation CallStack := (list StackEntry).

(** Modelled from the spec: [FuncNode.String] is a method of the absent
    [vulncheck] package; a node is rendered as [Receiver.Method] when it has
    a receiver and as [package.function] otherwise. *)
Definition FuncNode_String (fn : FuncNode) : string :=
  if GoStrings.eq (RecvType fn) ""
  then PkgPath fn +:+ "." +:+ Name fn
  else RecvType fn +:+ "." +:+ Name fn.

(** [strings.LastIndexByte(s, c)] *)
Fixpoint LastIndexByteFrom (i : Z) (s : string) (c : ascii) (found : Z)
  : Z :=
  match s with
  | EmptyString => found
  | String d r =>
      LastIndexByteFrom (i + 1) r c (if Ascii.eqb d c then i else found)
  end.

Definition LastIndexByte (s : string) (c : ascii) : Z :=
  LastIndexByteFrom 0 s c (-1).

(** [pkgPath(fn)] *)
Definition pkgPath (fn : FuncNode) : string :=
  if negb (GoStrings.eq (PkgPath fn) "") then PkgPath fn
  else
    let s := GoStrings.TrimPrefix (RecvType fn) "*" in
    let i := LastIndexByte s "." in
    if 0 <? i then String.substring 0 (Z.to_nat i) s else s.

(** [funcName(fn)] *)
Definition funcName (fn : FuncNode) : string :=
  GoStrings.TrimPrefix (FuncNode_String fn) "*".

(** [highest(cs, f)]: the smallest index whose entry satisfies [f], or -1. *)
Fixpoint highestFrom (i : Z) (cs : CallStack) (f : StackEntry -> bool) : Z :=
  match cs with
  | [] => -1
  | e :: rest => if f e then i else highestFrom (i + 1) rest f
  end.

Definition highest (cs : CallStack) (f : StackEntry -> bool) : Z :=
  highestFrom 0 cs f.

(** [lowest(cs, f)]: the largest index whose entry satisfies [f], or -1;
    [n] is the number of indices still to visit, [n - 1] the next one. *)
Fixpoint lowestFrom (n : nat) (cs : CallStack) (f : StackEntry -> bool) : Z :=
  match n with
  | O => -1
  | S i =>
      match cs !! i with
      | Some e => if f e then Z.of_nat i else lowestFrom i cs f
      | None => lowestFrom i cs f
      end
  end.

Definition lowest (cs : CallStack) (f : StackEntry -> bool) : Z :=
  lowestFrom (length cs) cs f.

(** [cs[i].Function]; the indices used below are in range. *)
Definition frame (cs : CallStack) (i : Z) : FuncNode :=
  match cs !! Z.to_nat i with
  | Some e => Function e
  | None => {| Name := ""; RecvType := ""; PkgPath := "" |}
  end.

(** [topPkgs[p]] on a [map[string]bool] *)
Definition inTopPkgs (topPkgs : gmap string bool) (p : string) : bool :=
  default false (topPkgs !! p).

(** [summarizeCallStack(cs, topPkgs, vulnPkg)] *)
Definition summarizeCallStack (cs : CallStack) (topPkgs : gmap string bool)
           (vulnPkg : string) : string :=
  let iTop := lowest cs (fun e => inTopPkgs topPkgs (pkgPath (Function e))) in
  if iTop <? 0 then ""
  else
    let iVuln :=
      highest (drop (Z.to_nat (iTop + 1)) cs)
              (fun e => GoStrings.eq (pkgPath (Function e)) vulnPkg) in
    if iVuln <? 0 then ""
    else
      let iVuln := iVuln + (iTop + 1) in
      let topName := funcName (frame cs iTop) in
      let vulnName := funcName (frame cs iVuln) in
      if iVuln =? iTop + 1 then topName +:+ " calls " +:+ vulnName
      else
        topName +:+ " calls " +:+ funcName (frame cs (iTop + 1))
        +:+ ", which eventually calls " +:+ vulnName.

(** *** The summary as the design document words it

    The top frame is the lowest-indexed frame of a top-level package, the
    vuln frame the highest-indexed frame after it in the vulnerable
    package. *)
Definition summaryAsWorded (cs : CallStack) (topPkgs : gmap string bool)
           (vulnPkg : string) : string :=
  let iTop := highest cs (fun e => inTopPkgs topPkgs (pkgPath (Function e))) in
  if iTop <? 0 then ""
  else
    let rest := drop (Z.to_nat (iTop + 1)) cs in
    let iVuln :=
      lowest rest (fun e => GoStrings.eq (pkgPath (Function e)) vulnPkg) in
    if iVuln <? 0 then ""
    else
      let iVuln := iVuln + (iTop + 1) in
      let topName := funcName (frame cs iTop) in
      let vulnName := funcName (frame cs iVuln) in
      if iVuln =? iTop + 1 then topName +:+ " calls " +:+ vulnName
      else
        topName +:+ " calls " +:+ funcName (frame cs (iTop + 1))
        +:+ ", which eventually calls " +:+ vulnName.

(** [s] mentions [name]. *)
Definition mentions (s name : string) : Prop :=
  exists pre post, s = pre +:+ name +:+ post.

Definition fn (pkg name : string) : StackEntry :=
  {| Function := {| Name := name; RecvType := ""; PkgPath := pkg |} |}.

(** A stack with two frames of the user's package and two of the
    vulnerable one. *)
Definition sampleStack : CallStack :=
  [ fn "example.com/app" "main"; fn "example.com/app" "run";
    fn "example.com/lib" "Parse"; fn "example.com/vuln" "Decode";
    fn "example.com/vuln" "readByte" ].

Definition sampleTop : gmap string bool := {[ "example.com/app" := true ]}.

(** *** What [lowest] and [highest] return *)

Lemma lowestFrom_none n cs f :
  (forall i e, (i < n)%nat -> cs !! i = Some e -> f e = false) ->
  lowestFrom n cs f = -1.
Proof.
  induction n as [|n IH]; intros H; cbn [lowestFrom]; [reflexivity|].
  destruct (cs !! n) as [e|] eqn:E.
  - rewrite (H n e) by (auto; lia). apply IH. intros i e' Hi. apply H. lia.
  - apply IH. intros i e' Hi. apply H. lia.
Qed.

Lemma lowestFrom_last n cs f t T :
  (t < n)%nat -> cs !! t = Some T -> f T = true ->
  (forall j e, (t < j < n)%nat -> cs !! j = Some e -> f e = false) ->
  lowestFrom n cs f = Z.of_nat t.
Proof.
  induction n as [|n IH]; intros Ht HT HfT Hafter; [lia|].
  cbn [lowestFrom].
  destruct (Nat.eq_dec t n) as [->|Hne].
  - now rewrite HT, HfT.
  - assert (lowestFrom n cs f = Z.of_nat t) as Hrec.
    { apply IH; [lia | assumption | assumption |].
      intros j e Hj. apply Hafter. lia. }
    destruct (cs !! n) as [e|] eqn:E; [|exact Hrec].
    rewrite (Hafter n e) by (auto; lia). exact Hrec.
Qed.

Lemma highestFrom_none i cs f :
  (forall j e, cs !! j = Some e -> f e = false) -> highestFrom i cs f = -1.
Proof.
  revert i. induction cs as [|e cs IH]; intros i H; cbn [highestFrom];
    [reflexivity|].
  rewrite (H 0%nat e) by reflexivity.
  apply IH. intros j e' Hj. apply (H (S j)). exact Hj.
Qed.

Lemma highestFrom_first i cs f u U :
  cs !! u = Some U -> f U = true ->
  (forall j e, (j < u)%nat -> cs !! j = Some e -> f e = false) ->
  highestFrom i cs f = i + Z.of_nat u.
Proof.
  revert i u. induction cs as [|e cs IH]; intros i u HU HfU Hbefore;
    [discriminate|].
  cbn [highestFrom]. destruct u as [|u].
  - injection HU as ->. rewrite HfU. lia.
  - rewrite (Hbefore 0%nat e) by (auto; lia).
    rewrite (IH (i + 1) u); [lia | exact HU | exact HfU |].
    intros j e' Hj. apply (Hbefore (S j)). lia.
Qed.

Lemma frame_lookup cs i e :
  cs !! i = Some e -> frame cs (Z.of_nat i) = Function e.
Proof. intros H. unfold frame. now rewrite Nat2Z.id, H. Qed.

Lemma not_true_false (b : bool) : b <> true -> b = false.
Proof. now destruct b. Qed.

(** The summary when no frame belongs to a top-level package. *)
Lemma summarizeCallStack_no_top cs topPkgs vulnPkg :
  (forall j e, cs !! j = Some e ->
               inTopPkgs topPkgs (pkgPath (Function e)) <> true) ->
  summarizeCallStack cs topPkgs vulnPkg = "".
Proof.
  intros H. unfold summarizeCallStack, lowest.
  rewrite lowestFrom_none; [reflexivity|].
  intros i e _ Hi. apply not_true_false. now apply (H i).
Qed.

Section TopFrame.

Variables (cs : CallStack) (topPkgs : gmap string bool) (vulnPkg : string).
Variables (t : nat) (T : StackEntry).

Hypothesis HT : cs !! t = Some T.
Hypothesis HtopT : inTopPkgs topPkgs (pkgPath (Function T)) = true.
Hypothesis Hlast :
  forall j e, (t < j)%nat -> cs !! j = Some e ->
              inTopPkgs topPkgs (pkgPath (Function e)) <> true.

Lemma lowest_top :
  lowest cs (fun e => inTopPkgs topPkgs (pkgPath (Function e)))
  = Z.of_nat t.
Proof.
  unfold lowest. apply (lowestFrom_last _ _ _ t T).
  - now apply lookup_lt_Some in HT.
  - exact HT.
  - exact HtopT.
  - intros j e [Hj _] He. apply not_true_false. now apply (Hlast j).
Qed.

Lemma summarizeCallStack_no_vuln :
  (forall j e, (t < j)%nat -> cs !! j = Some e ->
               pkgPath (Function e) <> vulnPkg) ->
  summarizeCallStack cs topPkgs vulnPkg = "".
Proof.
  intros H. unfold summarizeCallStack. rewrite lowest_top.
  destruct (Z.ltb_spec (Z.of_nat t) 0); [lia|].
  unfold highest. rewrite highestFrom_none; [reflexivity|].
  intros j e He. rewrite lookup_drop in He.
  apply GoStrings.eq_false. apply (H (Z.to_nat (Z.of_nat t + 1) + j)%nat);
    [lia | exact He].
Qed.

Variables (u : nat) (U : StackEntry).

Hypothesis Htu : (t < u)%nat.
Hypothesis HU : cs !! u = Some U.
Hypothesis HvulnU : pkgPath (Function U) = vulnPkg.
Hypothesis Hfirst :
  forall j e, (t < j < u)%nat -> cs !! j = Some e ->
              pkgPath (Function e) <> vulnPkg.

Lemma highest_vuln :
  highest (drop (Z.to_nat (Z.of_nat t + 1)) cs)
          (fun e => GoStrings.eq (pkgPath (Function e)) vulnPkg)
  = Z.of_nat (u - S t).
Proof.
  unfold highest. replace (Z.to_nat (Z.of_nat t + 1)) with (S t) by lia.
  rewrite (highestFrom_first 0 _ _ (u - S t) U); [lia | | |].
  - rewrite lookup_drop. now replace (S t + (u - S t))%nat with u by lia.
  - now apply GoStrings.eq_true.
  - intros j e Hj He. rewrite lookup_drop in He.
    apply GoStrings.eq_false. apply (Hfirst (S t + j)%nat); [lia | exact He].
Qed.

Lemma summarizeCallStack_adjacent :
  u = S t ->
  summarizeCallStack cs topPkgs vulnPkg
  = funcName (Function T) +:+ " calls " +:+ funcName (Function U).
Proof.
  intros E. unfold summarizeCallStack. rewrite lowest_top.
  destruct (Z.ltb_spec (Z.of_nat t) 0); [lia|].
  rewrite highest_vuln.
  destruct (Z.ltb_spec (Z.of_nat (u - S t)) 0); [lia|].
  replace (Z.of_nat (u - S t) + (Z.of_nat t + 1)) with (Z.of_nat u) by lia.
  destruct (Z.eqb_spec (Z.of_nat u) (Z.of_nat t + 1)); [|lia].
  now rewrite (frame_lookup _ _ _ HT), (frame_lookup _ _ _ HU).
Qed.

Lemma summarizeCallStack_distant :
  u <> S t ->
  exists M, cs !! S t = Some M
    /\ summarizeCallStack cs topPkgs vulnPkg
       = funcName (Function T) +:+ " calls " +:+ funcName (Function M)
         +:+ ", which eventually calls " +:+ funcName (Function U).
Proof.
  intros Hne.
  destruct (cs !! S t) as [M|] eqn:HM.
  2:{ apply lookup_ge_None in HM. apply lookup_lt_Some in HU. lia. }
  exists M. split; [reflexivity|].
  unfold summarizeCallStack. rewrite lowest_top.
  destruct (Z.ltb_spec (Z.of_nat t) 0); [lia|].
  rewrite highest_vuln.
  destruct (Z.ltb_spec (Z.of_nat (u - S t)) 0); [lia|].
  replace (Z.of_nat (u - S t) + (Z.of_nat t + 1)) with (Z.of_nat u) by lia.
  destruct (Z.eqb_spec (Z.of_nat u) (Z.of_nat t + 1)); [lia|].
  replace (Z.of_nat t + 1) with (Z.of_nat (S t)) by lia.
  now rewrite (frame_lookup _ _ _ HT), (frame_lookup _ _ _ HU),
    (frame_lookup _ _ _ HM).
Qed.

Lemma summarizeCallStack_mentions :
  mentions (summarizeCallStack cs topPkgs vulnPkg) (funcName (Function T))
  /\ mentions (summarizeCallStack cs topPkgs vulnPkg)
              (funcName (Function U)).
Proof.
  destruct (Nat.eq_dec u (S t)) as [E|E].
  - rewrite (summarizeCallStack_adjacent E). split.
    + exists "", (" calls " +:+ funcName (Function U)). reflexivity.
    + exists (funcName (Function T) +:+ " calls "), "".
      now rewrite GoStrings.append_empty_r, GoStrings.append_assoc.
  - destruct (summarizeCallStack_distant E) as [M [_ ->]]. split.
    + exists "", (" calls " +:+ funcName (Function M)
                  +:+ ", which eventually calls "
                  +:+ funcName (Function U)). reflexivity.
    + exists (funcName (Function T) +:+ " calls " +:+ funcName (Function M)
              +:+ ", which eventually calls "), "".
      now rewrite GoStrings.append_empty_r, !GoStrings.append_assoc.
Qed.

End TopFrame.

(** *** Claim about [summarizeCallStack] *)

(** C3, as stated, fails: on the sample stack the function takes as top
    frame the last frame of the user's package ([run], index 1), not the
    lowest-indexed one ([main], index 0), and as vuln frame the first frame
    of the vulnerable package after it ([Decode], index 3), not the
    highest-indexed one ([readByte], index 4). *)
Lemma summarizeCallStack_not_as_worded :
  summarizeCallStack sampleStack sampleTop "example.com/vuln"
  = "example.com/app.run calls example.com/lib.Parse, which eventually calls example.com/vuln.Decode"
  /\ summaryAsWorded sampleStack sampleTop "example.com/vuln"
     = "example.com/app.main calls example.com/app.run, which eventually calls example.com/vuln.readByte"
  /\ summarizeCallStack sampleStack sampleTop "example.com/vuln"
     <> summaryAsWorded sampleStack sampleTop "example.com/vuln".
Proof.
  split; [|split].
  - vm_compute. reflexivity.
  - vm_compute. reflexivity.
  - vm_compute. discriminate.
Qed.

(** C3, amended.  For every call stack, set of top-level packages and
    vulnerable package: [summarizeCallStack] returns the empty string when
    no frame belongs to a top-level package; otherwise, with [T] the frame
    of a top-level package with the largest index [t], it returns the empty
    string when no frame after [t] belongs to the vulnerable package, and
    otherwise, with [U] the frame of the vulnerable package with the
    smallest index [u] above [t], it returns ["T calls U"] when [u = t + 1]
    and ["T calls M, which eventually calls U"] with [M] the frame at
    [t + 1] otherwise; in both shapes the summary mentions the function of
    [T] and the function of [U]. *)
Theorem summarizeCallStack_frames :
  forall (cs : CallStack) (topPkgs : gmap string bool) (vulnPkg : string),
    let isTop e := inTopPkgs topPkgs (pkgPath (Function e)) = true in
    let isVuln e := pkgPath (Function e) = vulnPkg in
    let summary := summarizeCallStack cs topPkgs vulnPkg in
    ((forall j e, cs !! j = Some e -> ~ isTop e) -> summary = "")
    /\ (forall t T,
          cs !! t = Some T -> isTop T ->
          (forall j e, (t < j)%nat -> cs !! j = Some e -> ~ isTop e) ->
          ((forall j e, (t < j)%nat -> cs !! j = Some e -> ~ isVuln e) ->
           summary = "")
          /\ (forall u U,
                (t < u)%nat -> cs !! u = Some U -> isVuln U ->
                (forall j e, (t < j < u)%nat -> cs !! j = Some e ->
                             ~ isVuln e) ->
                (u = S t ->
                 summary = funcName (Function T) +:+ " calls "
                           +:+ funcName (Function U))
                /\ (u <> S t ->
                    exists M, cs !! S t = Some M
                      /\ summary
                         = funcName (Function T) +:+ " calls "
                           +:+ funcName (Function M)
                           +:+ ", which eventually calls "
                           +:+ funcName (Function U))
                /\ mentions summary (funcName (Function T))
                /\ mentions summary (funcName (Function U)))).
Proof.
  intros cs topPkgs vulnPkg isTop isVuln summary. split.
  - apply summarizeCallStack_no_top.
  - intros t T HT HtopT Hlast. split.
    + now apply (summarizeCallStack_no_vuln cs topPkgs vulnPkg t T).
    + intros u U Htu HU HvulnU Hfirst. split; [|split].
      * now apply (summarizeCallStack_adjacent cs topPkgs vulnPkg t T).
      * now apply (summarizeCallStack_distant cs topPkgs vulnPkg t T).
      * now apply (summarizeCallStack_mentions cs topPkgs vulnPkg t T
                                               HT HtopT Hlast u U).
Qed.

Lemma summarizeCallStack_frames_witness :
  summarizeCallStack sampleStack sampleTop "example.com/vuln"
  = funcName (Function (fn "example.com/app" "run")) +:+ " calls "
    +:+ funcName (Function (fn "example.com/lib" "Parse"))
    +:+ ", which eventually calls "
    +:+ funcName (Function (fn "example.com/vuln" "Decode")).
Proof.
  pose proof (proj2 (summarizeCallStack_frames sampleStack sampleTop
                                               "example.com/vuln")) as W.
  cbv zeta in W.
  specialize (W 1%nat (fn "example.com/app" "run") eq_refl eq_refl).
  destruct W as [_ W].
  - intros j e Hj He.
    do 2 (destruct j as [|j]; [lia|]).
    do 3 (destruct j as [|j]; [injection He as <-; vm_compute; discriminate|]).
    discriminate.
  - specialize (W 3%nat (fn "example.com/vuln" "Decode")).
    destruct W as [_ [W _]].
    + lia.
    + reflexivity.
    + reflexivity.
    + intros j e Hj He.
      assert (j = 2%nat) as -> by lia.
      injection He as <-. vm_compute. discriminate.
    + destruct W as [M [HM ->]]; [lia|].
      injection HM as <-. reflexivity.
Defined.

(** *** [compact]: consecutive runs of equal strings *)

Local Open Scope list_scope.

(** The loop of [compact] over [s[1:]]: [k] is the index being read, [i]
    the next index to write and [last] the last value kept; the slice is
    updated in place. *)
Fixpoint compactLoop (rounds k : nat) (s : list string) (i : nat)
         (last : string) : list string * nat :=
  match rounds with
  | O => (s, i)
  | S r =>
      match s !! k with
      | Some v =>
          if negb (GoStrings.eq v last)
          then compactLoop r (S k) (<[i := v]> s) (S i) v
          else compactLoop r (S k) s i last
      | None => (s, i)
      end
  end.

(** [compact(s)]: the slice returned, and the contents of [s] after the
    call. *)
Definition compact (s : list string) : list string * list string :=
  match s with
  | [] => ([], [])
  | first :: _ =>
      let '(s', i) := compactLoop (length s - 1) 1 s 1 first in
      (take i s', s')
  end.

(** What is kept of [l] after the value [last]. *)
Fixpoint uniq (last : string) (l : list string) : list string :=
  match l with
  | [] => []
  | v :: rest =>
      if GoStrings.eq v last then uniq last rest else v :: uniq v rest
  end.

(** No element equals the one before it. *)
Definition noRepeat (l : list string) : Prop :=
  forall i x y, l !! i = Some x -> l !! S i = Some y -> x <> y.

(** Every element is at most the ones after it, as after [sort.Strings]. *)
Definition ascending (l : list string) : Prop :=
  StronglySorted (fun x y => GoStrings.le x y = true) l.

Lemma uniq_length last l : (length (uniq last l) <= length l)%nat.
Proof.
  revert last. induction l as [|v rest IH]; intros last; cbn [uniq length];
    [lia|].
  destruct (GoStrings.eq v last); [specialize (IH last) | specialize (IH v)];
    cbn [length]; lia.
Qed.

Lemma compactLoop_uniq rest out mid last :
  compactLoop (length rest) (length out + length mid) (out ++ mid ++ rest)
              (length out) last
  = ((out ++ uniq last rest) ++ drop (length (uniq last rest)) (mid ++ rest),
     (length out + length (uniq last rest))%nat).
Proof.
  revert out mid last. induction rest as [|v rest IH]; intros out mid last.
  - cbn [length compactLoop uniq drop]. now rewrite !app_nil_r, Nat.add_0_r.
  - cbn [length compactLoop uniq].
    assert (Hk : (out ++ mid ++ v :: rest) !! (length out + length mid)%nat
                 = Some v).
    { rewrite app_assoc, <- length_app. now rewrite list_lookup_middle. }
    rewrite Hk. destruct (GoStrings.eq v last) eqn:Hv; cbn [negb].
    + replace (out ++ mid ++ v :: rest) with (out ++ (mid ++ [v]) ++ rest)
        by now rewrite <- (app_assoc mid).
      replace (S (length out + length mid))
        with (length out + length (mid ++ [v]))%nat
        by (rewrite length_app; cbn; lia).
      rewrite IH. now rewrite <- (app_assoc mid).
    + destruct mid as [|m mid].
      * cbn [app length]. rewrite Nat.add_0_r.
        replace (<[length out := v]> (out ++ v :: rest))
          with ((out ++ [v]) ++ [] ++ rest).
        2:{ rewrite <- app_assoc. cbn [app].
            rewrite insert_app_r_alt by lia. now rewrite Nat.sub_diag. }
        replace (S (length out)) with (length (out ++ [v]) + length (@nil string))%nat
          at 1 by (rewrite length_app; cbn; lia).
        replace (S (length out)) with (length (out ++ [v]))
          by (rewrite length_app; cbn; lia).
        rewrite IH. cbn [app length drop]. rewrite <- !app_assoc.
        cbn [app]. f_equal. rewrite length_app. cbn. lia.
      * replace (<[length out := v]> (out ++ (m :: mid) ++ v :: rest))
          with ((out ++ [v]) ++ (mid ++ [v]) ++ rest).
        2:{ rewrite <- !app_assoc. cbn [app].
            rewrite insert_app_r_alt by lia. now rewrite Nat.sub_diag. }
        replace (S (length out + length (m :: mid)))
          with (length (out ++ [v]) + length (mid ++ [v]))%nat
          by (rewrite !length_app; cbn; lia).
        replace (S (length out)) with (length (out ++ [v]))
          by (rewrite length_app; cbn; lia).
        rewrite IH. cbn [app length drop]. rewrite <- !app_assoc.
        cbn [app]. f_equal. rewrite length_app. cbn. lia.
Qed.

(** The slice returned by [compact] and the contents left behind. *)
Lemma compact_uniq first rest :
  compact (first :: rest)
  = (first :: uniq first rest,
     (first :: uniq first rest) ++ drop (length (uniq first rest)) rest).
Proof.
  unfold compact.
  replace (length (first :: rest) - 1)%nat with (length rest)
    by (cbn [length]; lia).
  change (compactLoop (length rest) 1 (first :: rest) 1 first)
    with (compactLoop (length rest) (length [first] + length (@nil string))
            ([first] ++ [] ++ rest) (length [first]) first).
  rewrite compactLoop_uniq. cbv beta iota. f_equal.
  apply take_app_length'. reflexivity.
Qed.

Lemma uniq_sublist last l : sublist (uniq last l) l.
Proof.
  revert last. induction l as [|v rest IH]; intros last; cbn [uniq];
    [constructor|].
  destruct (GoStrings.eq v last).
  - apply sublist_cons, IH.
  - apply sublist_skip, IH.
Qed.

Lemma uniq_elem_of last l x : x ∈ l -> x = last \/ x ∈ uniq last l.
Proof.
  revert last. induction l as [|v rest IH]; intros last Hx; cbn [uniq].
  - now apply elem_of_nil in Hx.
  - apply elem_of_cons in Hx as [->|Hx].
    + destruct (GoStrings.eq v last) eqn:Hv.
      * left. now apply GoStrings.eq_true.
      * right. apply elem_of_cons. now left.
    + destruct (GoStrings.eq v last) eqn:Hv; [now apply IH|].
      destruct (IH v Hx) as [->|H]; right; apply elem_of_cons; auto.
Qed.

Lemma uniq_noRepeat last l : noRepeat (last :: uniq last l).
Proof.
  revert last. induction l as [|v rest IH]; intros last; cbn [uniq].
  - intros [|i] x y Hx Hy; discriminate.
  - destruct (GoStrings.eq v last) eqn:Hv; [apply IH|].
    intros [|i] x y Hx Hy.
    + injection Hx as <-. injection Hy as <-.
      apply GoStrings.eq_false in Hv. congruence.
    + now apply (IH v i).
Qed.

Lemma uniq_fixed last l : noRepeat (last :: l) -> uniq last l = l.
Proof.
  revert last. induction l as [|v rest IH]; intros last H; cbn [uniq];
    [reflexivity|].
  assert (Hv : GoStrings.eq v last = false).
  { apply GoStrings.eq_false. intros ->. now apply (H 0%nat last last). }
  rewrite Hv. f_equal. apply IH. intros i x y. apply (H (S i)).
Qed.

Lemma le_both s t :
  GoStrings.le s t = true -> GoStrings.le t s = true -> s = t.
Proof.
  unfold GoStrings.le. rewrite (String.compare_antisym t s).
  destruct (String.compare s t) eqn:Hc; cbn; try discriminate.
  intros _ _. now apply String.compare_eq_iff.
Qed.

Lemma uniq_NoDup last l : ascending (last :: l) -> NoDup (last :: uniq last l).
Proof.
  revert last. induction l as [|v rest IH]; intros last H; cbn [uniq].
  - apply NoDup_singleton.
  - apply StronglySorted_inv in H as [Hrest Hlast].
    apply Forall_cons in Hlast as [Hv Hlast].
    destruct (GoStrings.eq v last) eqn:Hvl.
    + apply IH. apply SSorted_cons; [|exact Hlast].
      now apply StronglySorted_inv in Hrest as [? _].
    + apply GoStrings.eq_false in Hvl. apply NoDup_cons. split; [|now apply IH].
      intros Hin. apply Hvl. symmetry.
      pose proof Hrest as Hrest'.
      apply StronglySorted_inv in Hrest' as [_ Hafter].
      apply elem_of_cons in Hin as [Hin|Hin]; [congruence|].
      apply le_both; [exact Hv|].
      rewrite Forall_forall in Hafter. apply Hafter.
      now apply (sublist_subseteq _ _ (uniq_sublist v rest)).
Qed.

(** The summaries of [writeText]: a sorted slice with repeats. *)
Definition sampleSummaries : list string :=
  ["a calls b"; "a calls b"; "a calls c"; "d calls c"; "d calls c"].

(** [compact] keeps the first string of every run of equal strings: in
    the slice it returns no string equals the one before it, the strings
    are those of the argument in their order, and a slice without repeats
    is returned as it is. *)
Theorem compact_result (s : list string) :
  noRepeat (fst (compact s))
  /\ sublist (fst (compact s)) s
  /\ (forall x, x ∈ fst (compact s) <-> x ∈ s)
  /\ (noRepeat s -> fst (compact s) = s).
Proof.
  destruct s as [|first rest].
  - cbn. repeat split; auto. intros [|i] x y Hx; discriminate.
  - rewrite compact_uniq. cbn [fst]. split; [apply uniq_noRepeat|].
    split; [apply sublist_skip, uniq_sublist|]. split.
    + intros x. split.
      * apply (sublist_subseteq (first :: uniq first rest) (first :: rest)).
        apply sublist_skip, uniq_sublist.
      * intros Hx. apply elem_of_cons in Hx as [->|Hx];
          [apply elem_of_cons; now left|].
        apply elem_of_cons. destruct (uniq_elem_of first _ _ Hx); auto.
    + intros H. f_equal. now apply uniq_fixed.
Qed.

(** On a sorted slice, as [writeText] passes it, [compact] returns a slice
    in which every string occurs once. *)
Theorem compact_sorted_NoDup (s : list string) :
  ascending s -> NoDup (fst (compact s)).
Proof.
  destruct s as [|first rest]; intros H.
  - apply NoDup_nil_2.
  - rewrite compact_uniq. now apply uniq_NoDup.
Qed.

Lemma compact_sorted_NoDup_witness :
  fst (compact sampleSummaries) = ["a calls b"; "a calls c"; "d calls c"]
  /\ NoDup (fst (compact sampleSummaries)).
Proof.
  split; [reflexivity|].
  apply (compact_sorted_NoDup sampleSummaries).
  repeat (apply SSorted_cons; [|repeat constructor]). constructor.
Defined.

(** [compact] works in place: after the call the argument has its old
    length, starts with the strings returned, and keeps its old strings
    after them. *)
Theorem compact_in_place (s : list string) :
  snd (compact s) = fst (compact s) ++ drop (length (fst (compact s))) s
  /\ length (snd (compact s)) = length s.
Proof.
  destruct s as [|first rest]; [split; reflexivity|].
  rewrite compact_uniq. cbn [fst snd length drop]. split; [reflexivity|].
  pose proof (uniq_length first rest).
  cbn [app length]. rewrite length_app, length_drop. lia.
Qed.

(** *** [latestFixed] *)

(** Modelled from the spec: [osv.Affected] is declared in the [osv]
    package, which is not among the sources; of an affected package
    [latestFixed] reads the ranges. *)
Record Affected := {
  Ranges : Vulncheck.Affects;
}.

(** The body of the innermost loop of [latestFixed]. *)
Definition fixedStep (v : string) (e : Vulncheck.RangeEvent) : string :=
  if negb (GoStrings.eq (Vulncheck.Fixed e) "")
     && (GoStrings.eq v "" || (0 <? ModSemver.Compare (Vulncheck.Fixed e) v))
  then Vulncheck.Fixed e
  else v.

(** The loop over the events of one range. *)
Definition fixedOfRange (v : string) (r : Vulncheck.AffectsRange) : string :=
  if GoStrings.eq (Vulncheck.Type_ r) Vulncheck.TypeSemver
  then fold_left fixedStep (Vulncheck.Events r) v
  else v.

(** [latestFixed(as)] *)
Definition latestFixed (as_ : list Affected) : string :=
  fold_left (fun v a => fold_left fixedOfRange (Ranges a) v) as_ "".

(** The fixed versions that [latestFixed] reads, in the order of the scan:
    the non-empty [Fixed] fields of the events of the semver ranges. *)
Definition fixedOfEvents (es : list Vulncheck.RangeEvent) : list string :=
  List.filter (fun f => negb (GoStrings.eq f "")) (map Vulncheck.Fixed es).

Definition fixedOfRanges (rs : Vulncheck.Affects) : list string :=
  concat (map (fun r =>
                 if GoStrings.eq (Vulncheck.Type_ r) Vulncheck.TypeSemver
                 then fixedOfEvents (Vulncheck.Events r) else [])
              rs).

Definition scanned (as_ : list Affected) : list string :=
  concat (map (fun a => fixedOfRanges (Ranges a)) as_).

(** The choice between the version held and the next non-empty one. *)
Definition pick (v f : string) : string :=
  if GoStrings.eq v "" || (0 <? ModSemver.Compare f v) then f else v.

Lemma fixedStep_events es v :
  fold_left fixedStep es v = fold_left pick (fixedOfEvents es) v.
Proof.
  revert v. induction es as [|e es IH]; intros v; [reflexivity|].
  cbn [fold_left]. unfold fixedOfEvents. cbn [map List.filter].
  fold (fixedOfEvents es). unfold fixedStep at 2.
  destruct (negb (GoStrings.eq (Vulncheck.Fixed e) "")); cbn [andb];
    [cbn [fold_left]; unfold pick at 2|]; apply IH.
Qed.

Lemma fixedOfRange_ranges rs v :
  fold_left fixedOfRange rs v = fold_left pick (fixedOfRanges rs) v.
Proof.
  revert v. induction rs as [|r rs IH]; intros v; [reflexivity|].
  cbn [fold_left]. unfold fixedOfRanges. cbn [map concat].
  fold (fixedOfRanges rs). rewrite fold_left_app, IH. f_equal.
  unfold fixedOfRange.
  destruct (GoStrings.eq (Vulncheck.Type_ r) Vulncheck.TypeSemver);
    [apply fixedStep_events | reflexivity].
Qed.

Lemma latestFixed_scanned as_ :
  latestFixed as_ = fold_left pick (scanned as_) "".
Proof.
  unfold latestFixed. generalize "". induction as_ as [|a as_ IH]; intros v;
    [reflexivity|].
  cbn [fold_left]. unfold scanned. cbn [map concat]. fold (scanned as_).
  now rewrite fold_left_app, IH, fixedOfRange_ranges.
Qed.

Lemma fixedOfEvents_nonempty es : Forall (fun f => f <> "") (fixedOfEvents es).
Proof.
  apply Forall_forall. intros f Hf.
  apply list_elem_of_In, filter_In in Hf as [_ Hf].
  apply negb_true_iff in Hf. now apply GoStrings.eq_false.
Qed.

Lemma scanned_nonempty as_ : Forall (fun f => f <> "") (scanned as_).
Proof.
  unfold scanned. apply Forall_concat, Forall_fmap, Forall_forall.
  intros a _. cbn. unfold fixedOfRanges.
  apply Forall_concat, Forall_fmap, Forall_forall. intros r _. cbn.
  destruct (GoStrings.eq _ _); [apply fixedOfEvents_nonempty | constructor].
Qed.

Lemma pick_held v f :
  v <> "" -> pick v f = if 0 <? ModSemver.Compare f v then f else v.
Proof.
  intros H. unfold pick. apply GoStrings.eq_false in H. now rewrite H.
Qed.

(** The scan from a version [v] that is held: it ends with [v] or with a
    scanned version, and nothing scanned after the version it ends with
    compares greater. *)
Lemma pick_scan l v :
  v <> "" -> Forall (fun f => f <> "") l ->
  exists l1 l2,
    v :: l = l1 ++ fold_left pick l v :: l2
    /\ Forall (fun f => (ModSemver.Compare f (fold_left pick l v) <= 0)%Z) l2.
Proof.
  revert v. induction l as [|f l IH]; intros v Hv Hl.
  - exists [], []. split; [reflexivity | constructor].
  - apply Forall_cons in Hl as [Hf Hl]. cbn [fold_left].
    rewrite (pick_held v f Hv).
    destruct (0 <? ModSemver.Compare f v) eqn:Hc.
    + destruct (IH f Hf Hl) as (l1 & l2 & Heq & Hmax).
      exists (v :: l1), l2. split; [now rewrite Heq | exact Hmax].
    + destruct (IH v Hv Hl) as (l1 & l2 & Heq & Hmax).
      destruct l1 as [|x l1].
      * injection Heq as Hx Hl2. exists [], (f :: l2).
        split; [cbn [app]; congruence|].
        apply Forall_cons. split; [|exact Hmax]. rewrite <- Hx. lia.
      * injection Heq as <- Hl2. exists (v :: f :: l1), l2.
        split; [cbn [app]; congruence | exact Hmax].
Qed.

(** When no scanned version is valid for [semver.Compare], the version
    held first is kept. *)
Lemma pick_invalid l v :
  ModSemver.parse v = None ->
  Forall (fun f => ModSemver.parse f = None) l ->
  v <> "" -> fold_left pick l v = v.
Proof.
  intros Hv Hl Hne. induction l as [|f l IH]; [reflexivity|].
  apply Forall_cons in Hl as [Hf Hl]. cbn [fold_left].
  rewrite (pick_held v f Hne).
  unfold ModSemver.Compare. rewrite Hf, Hv. cbn [Z.ltb Z.compare].
  now apply IH.
Qed.

(** [latestFixed] returns the empty string exactly when no semver range
    has an event with a fixed version.  Otherwise it returns one of these
    fixed versions, and none of those read after it compares greater than
    it.  When [semver.Compare] takes none of the fixed versions for a valid
    version (as for versions written without the leading v), they all
    compare equal and the first one read is returned. *)
Theorem latestFixed_choice (as_ : list Affected) :
  (latestFixed as_ = "" <-> scanned as_ = [])
  /\ (scanned as_ <> [] ->
      exists l1 l2,
        scanned as_ = l1 ++ latestFixed as_ :: l2
        /\ Forall (fun f => (ModSemver.Compare f (latestFixed as_) <= 0)%Z)
                  l2)
  /\ (Forall (fun f => ModSemver.parse f = None) (scanned as_) ->
      latestFixed as_ = default "" (head (scanned as_))).
Proof.
  rewrite latestFixed_scanned. pose proof (scanned_nonempty as_) as Hne.
  destruct (scanned as_) as [|f l].
  - split; [split; reflexivity|]. split; [congruence | reflexivity].
  - apply Forall_cons in Hne as [Hf Hl]. cbn [fold_left].
    change (pick "" f) with f.
    destruct (pick_scan l f Hf Hl) as (l1 & l2 & Heq & Hmax).
    split; [|split].
    + split; [|discriminate]. intros H. exfalso.
      assert (Hin : fold_left pick l f ∈ f :: l).
      { rewrite Heq. apply elem_of_app. right. apply elem_of_cons. now left. }
      rewrite H in Hin. apply elem_of_cons in Hin as [Hin|Hin]; [congruence|].
      rewrite Forall_forall in Hl. now apply (Hl "" Hin).
    + intros _. now exists l1, l2.
    + intros Hinv. apply Forall_cons in Hinv as [Hpf Hpl]. cbn.
      now apply pick_invalid.
Qed.

(** [semver.Compare] orders the versions of [l]: it is antisymmetric and
    transitive on them. *)
Definition ordersVersions (l : list string) : bool :=
  forallb (fun a =>
    forallb (fun b =>
      (ModSemver.Compare b a =? - ModSemver.Compare a b)
      && forallb (fun c =>
           implb ((ModSemver.Compare a b <=? 0)
                  && (ModSemver.Compare b c <=? 0))
                 (ModSemver.Compare a c <=? 0)) l) l) l.

Lemma ordersVersions_antisym l a b :
  ordersVersions l = true -> a ∈ l -> b ∈ l ->
  ModSemver.Compare b a = - ModSemver.Compare a b.
Proof.
  intros H Ha Hb. unfold ordersVersions in H.
  rewrite forallb_forall in H. apply list_elem_of_In in Ha, Hb.
  specialize (H a Ha). rewrite forallb_forall in H. specialize (H b Hb).
  apply andb_prop in H as [H _]. lia.
Qed.

Lemma ordersVersions_trans l a b c :
  ordersVersions l = true -> a ∈ l -> b ∈ l -> c ∈ l ->
  (ModSemver.Compare a b <= 0 -> ModSemver.Compare b c <= 0 ->
   ModSemver.Compare a c <= 0)%Z.
Proof.
  intros H Ha Hb Hc Hab Hbc. unfold ordersVersions in H.
  rewrite forallb_forall in H. apply list_elem_of_In in Ha, Hb, Hc.
  specialize (H a Ha). rewrite forallb_forall in H. specialize (H b Hb).
  apply andb_prop in H as [_ H]. rewrite forallb_forall in H.
  specialize (H c Hc).
  destruct (ModSemver.Compare a b <=? 0) eqn:E1; [|lia].
  destruct (ModSemver.Compare b c <=? 0) eqn:E2; [|lia].
  cbn in H. lia.
Qed.

Lemma pick_max all l v :
  ordersVersions all = true -> v ∈ all -> (forall f, f ∈ l -> f ∈ all) ->
  v <> "" -> Forall (fun f => f <> "") l ->
  (ModSemver.Compare v (fold_left pick l v) <= 0)%Z
  /\ fold_left pick l v ∈ all
  /\ Forall (fun f => (ModSemver.Compare f (fold_left pick l v) <= 0)%Z) l.
Proof.
  intros Hord. revert v. induction l as [|f l IH]; intros v Hv Hl Hne Hnes.
  - cbn [fold_left]. split; [|split; [exact Hv | constructor]].
    pose proof (ordersVersions_antisym all v v Hord Hv Hv). lia.
  - cbn [fold_left]. rewrite (pick_held v f Hne).
    assert (Hf : f ∈ all) by (apply Hl, elem_of_cons; now left).
    assert (Hl' : forall g, g ∈ l -> g ∈ all)
      by (intros g Hg; apply Hl, elem_of_cons; now right).
    pose proof (ordersVersions_antisym all f v Hord Hf Hv) as Hanti.
    apply Forall_cons in Hnes as [Hfne Hnes].
    destruct (0 <? ModSemver.Compare f v) eqn:Hc.
    + destruct (IH f Hf Hl' Hfne Hnes) as (Hlow & Hin & Hall).
      split; [|split; [exact Hin|]].
      * apply (ordersVersions_trans all v f _ Hord Hv Hf Hin); lia.
      * apply Forall_cons. split; [exact Hlow | exact Hall].
    + destruct (IH v Hv Hl' Hne Hnes) as (Hlow & Hin & Hall).
      split; [exact Hlow|]. split; [exact Hin|].
      apply Forall_cons. split; [|exact Hall].
      apply (ordersVersions_trans all f v _ Hord Hf Hv Hin); lia.
Qed.

(** A list of affected packages with two semver ranges and one range of
    another type. *)
Definition sampleAffected : list Affected :=
  [ {| Ranges :=
         [ {| Vulncheck.Type_ := Vulncheck.TypeSemver;
              Vulncheck.Events :=
                [ {| Vulncheck.Introduced := "v1.0.0"; Vulncheck.Fixed := "" |};
                  {| Vulncheck.Introduced := ""; Vulncheck.Fixed := "v1.2.3" |}
                ] |};
           {| Vulncheck.Type_ := Vulncheck.TypeUnspecified;
              Vulncheck.Events :=
                [ {| Vulncheck.Introduced := ""; Vulncheck.Fixed := "v9.0.0" |}
                ] |} ] |};
    {| Ranges :=
         [ {| Vulncheck.Type_ := Vulncheck.TypeSemver;
              Vulncheck.Events :=
                [ {| Vulncheck.Introduced := "v1.3.0"; Vulncheck.Fixed := "" |};
                  {| Vulncheck.Introduced := "";
                     Vulncheck.Fixed := "v1.10.0" |};
                  {| Vulncheck.Introduced := "";
                     Vulncheck.Fixed := "v1.4.1-rc.1" |} ] |} ] |} ].

(** When [semver.Compare] orders the fixed versions read (it is
    antisymmetric and transitive on them), [latestFixed] returns a greatest
    one: no fixed version of a semver range compares greater than it. *)
Theorem latestFixed_greatest (as_ : list Affected) :
  ordersVersions (scanned as_) = true ->
  Forall (fun f => (ModSemver.Compare f (latestFixed as_) <= 0)%Z)
         (scanned as_).
Proof.
  intros Hord. rewrite latestFixed_scanned.
  pose proof (scanned_nonempty as_) as Hne.
  destruct (scanned as_) as [|f l] eqn:Hs; [constructor|].
  apply Forall_cons in Hne as [Hf Hl]. cbn [fold_left].
  change (pick "" f) with f.
  assert (Hin : f ∈ f :: l) by (apply elem_of_cons; now left).
  assert (Hsub : forall g, g ∈ l -> g ∈ f :: l)
    by (intros g Hg; apply elem_of_cons; now right).
  destruct (pick_max (f :: l) l f Hord Hin Hsub Hf Hl) as (Hlow & _ & Hall).
  apply Forall_cons. split; assumption.
Qed.

Lemma latestFixed_greatest_witness :
  latestFixed sampleAffected = "v1.10.0"
  /\ Forall (fun f => (ModSemver.Compare f (latestFixed sampleAffected) <= 0)%Z)
            ["v1.2.3"; "v1.10.0"; "v1.4.1-rc.1"].
Proof.
  split; [reflexivity|].
  apply (latestFixed_greatest sampleAffected). reflexivity.
Defined.

(** *** [pkgPath] on receiver types *)

(** The string has no dot. *)
Definition noDot (t : string) : Prop :=
  Forall (fun c => c <> "."%char) (list_ascii_of_string t).

Lemma LastIndexByteFrom_absent i s c found :
  Forall (fun d => d <> c) (list_ascii_of_string s) ->
  LastIndexByteFrom i s c found = found.
Proof.
  revert i. induction s as [|d s IH]; intros i H; [reflexivity|].
  cbn [list_ascii_of_string] in H. apply Forall_cons in H as [Hd H].
  cbn [LastIndexByteFrom]. apply Ascii.eqb_neq in Hd. rewrite Hd.
  now apply IH.
Qed.

Lemma LastIndexByteFrom_last i p c t found :
  Forall (fun d => d <> c) (list_ascii_of_string t) ->
  LastIndexByteFrom i (p +:+ String c t) c found
  = i + Z.of_nat (String.length p).
Proof.
  intros Ht. revert i found. induction p as [|d p IH]; intros i found.
  - change ("" +:+ String c t) with (String c t). cbn [LastIndexByteFrom].
    rewrite Ascii.eqb_refl, LastIndexByteFrom_absent by exact Ht. cbn. lia.
  - change (String d p +:+ String c t) with (String d (p +:+ String c t)).
    cbn [LastIndexByteFrom String.length]. rewrite IH. lia.
Qed.

Lemma substring_prefix p q :
  String.substring 0 (String.length p) (p +:+ q) = p.
Proof.
  induction p as [|d p IH]; [now destruct q|].
  change (String d p +:+ q) with (String d (p +:+ q)).
  cbn [String.length String.substring]. now rewrite IH.
Qed.

(** [strings.TrimPrefix(s, "*")] removes one leading star. *)
Lemma TrimPrefix_star s :
  GoStrings.TrimPrefix s "*"
  = match s with
    | String c r => if Ascii.eqb c "*" then r else s
    | EmptyString => s
    end.
Proof.
  unfold GoStrings.TrimPrefix, GoStrings.HasPrefix.
  destruct s as [|c r]; [reflexivity|]. cbn [String.prefix].
  destruct (ascii_dec "*" c) as [<-|Hne].
  - cbn [Ascii.eqb]. cbn. replace (String.length r - 0)%nat
      with (String.length r) by lia.
    rewrite GoStrings.substring_all. now destruct r.
  - assert (Ascii.eqb c "*" = false) as -> by (apply Ascii.eqb_neq; congruence).
    reflexivity.
Qed.

(** A method of type [T] of package [example.com/p], through a pointer. *)
Definition sampleMethod : FuncNode :=
  {| Name := "Decode"; RecvType := "*example.com/p.T"; PkgPath := "" |}.

(** [pkgPath] returns the package path of a node that has one.  For a node
    without one it reads the receiver type: a leading star is dropped, and
    of a receiver written package-dot-type, with a non-empty package and no
    dot in the type name, the package is returned; a receiver without a
    dot is returned whole. *)
Theorem pkgPath_of_receiver (fn : FuncNode) :
  (PkgPath fn <> "" -> pkgPath fn = PkgPath fn)
  /\ (PkgPath fn = "" ->
      forall p t, p <> "" -> noDot t ->
        (RecvType fn = "*" +:+ p +:+ "." +:+ t -> pkgPath fn = p)
        /\ (GoStrings.HasPrefix p "*" = false ->
            RecvType fn = p +:+ "." +:+ t -> pkgPath fn = p))
  /\ (PkgPath fn = "" -> noDot (RecvType fn) ->
      pkgPath fn = GoStrings.TrimPrefix (RecvType fn) "*").
Proof.
  assert (Hcut : forall p t, p <> "" -> noDot t ->
            (let s := p +:+ "." +:+ t in
             let i := LastIndexByte s "." in
             if 0 <? i then String.substring 0 (Z.to_nat i) s else s) = p).
  { intros p t Hp Ht. cbv zeta. unfold LastIndexByte.
    change (p +:+ "." +:+ t) with (p +:+ String "." t).
    rewrite LastIndexByteFrom_last by exact Ht.
    assert (0 < String.length p)%nat by (destruct p; [congruence | cbn; lia]).
    replace (0 <? 0 + Z.of_nat (String.length p)) with true
      by (symmetry; apply Z.ltb_lt; lia).
    replace (Z.to_nat (0 + Z.of_nat (String.length p)))
      with (String.length p) by lia.
    apply substring_prefix. }
  split; [|split].
  - intros H. unfold pkgPath. apply GoStrings.eq_false in H. now rewrite H.
  - intros H p t Hp Ht. unfold pkgPath. rewrite H.
    change (negb (GoStrings.eq "" "")) with false. cbv iota. split.
    + intros ->. rewrite (GoStrings.TrimPrefix_append "*").
      now apply Hcut.
    + intros Hstar ->. rewrite TrimPrefix_star.
      destruct p as [|c p]; [congruence|].
      change (String c p +:+ "." +:+ t) with (String c (p +:+ "." +:+ t)).
      unfold GoStrings.HasPrefix in Hstar. cbn [String.prefix] in Hstar.
      destruct (ascii_dec "*" c) as [<-|Hne]; [now destruct p|].
      assert (Ascii.eqb c "*" = false) as ->
          by (apply Ascii.eqb_neq; congruence).
      change (String c (p +:+ "." +:+ t)) with (String c p +:+ "." +:+ t).
      now apply Hcut.
  - intros H Ht. unfold pkgPath. rewrite H.
    change (negb (GoStrings.eq "" "")) with false. cbv iota zeta.
    assert (Hs : noDot (GoStrings.TrimPrefix (RecvType fn) "*")).
    { rewrite TrimPrefix_star. destruct (RecvType fn) as [|c r]; [exact Ht|].
      destruct (Ascii.eqb c "*"); [|exact Ht].
      cbn [list_ascii_of_string] in Ht. unfold noDot in Ht.
      cbn [list_ascii_of_string] in Ht. now apply Forall_cons in Ht as [_ Ht]. }
    unfold LastIndexByte. rewrite LastIndexByteFrom_absent by exact Hs.
    reflexivity.
Qed.

Lemma pkgPath_of_receiver_witness : pkgPath sampleMethod = "example.com/p".
Proof.
  destruct (proj1 (proj2 (pkgPath_of_receiver sampleMethod)) eq_refl
                  "example.com/p" "T") as [H _].
  - discriminate.
  - repeat constructor; discriminate.
  - exact (H eq_refl).
Defined.

End Govulncheck.

(** ** [internal/worker]: the CVE triage worker *)

Module Worker.

Local Open Scope list_scope.

(** *** Data *)

(** [plumbing.Hash] of go-git: the bytes of a SHA-1; [String] is their
    lower-case hexadecimal form. *)
Abbreviation Hash := (list Byte.byte).

Definition hexDigit (n : N) : ascii :=
  nth (N.to_nat n) (list_ascii_of_string "0123456789abcdef") "0"%char.

Fixpoint Hash_String (h : Hash) : string :=
  match h with
  | [] => ""
  | b :: rest =>
      String (hexDigit (Byte.to_N b / 16))
             (String (hexDigit (Byte.to_N b mod 16)) (Hash_String rest))
  end.

(** [repoFile] *)
Record repoFile := {
  dirPath : string;
  filename : string;
  treeHash : Hash;
  blobHash : Hash;
  year : Z;
  number : Z;
}.

(** Errors.  The sources build error values with [fmt.Errorf] and wrap
    them with context; here an error records its cause. *)
Inductive error :=
| ErrIO (call : nat)
| ErrRepo (msg : string)
| ErrTriage (msg : string)
| ErrTemplate (msg : string)
| ErrUnknownTriageState (ts : string)
| ErrNotContiguous (dir : string)
| ErrIndexOutOfRange
| ErrWrapped (context : string) (cause : error).

(** A Go result [(value, error)]. *)
Inductive result (A : Type) :=
| Ok (a : A)
| Err (e : error).

Arguments Ok {A} a.
Arguments Err {A} e.

(** *** [groupFilesByDirectory] *)

(** The body of [for _, f := range files] on [(result, curDir)]. *)
Definition groupStep (acc : list (list repoFile) * list repoFile)
           (f : repoFile) : list (list repoFile) * list repoFile :=
  let '(result, curDir) := acc in
  let '(result, curDir) :=
    match curDir with
    | c0 :: _ =>
        if negb (GoStrings.eq (dirPath f) (dirPath c0))
        then (result ++ [curDir], [])
        else (result, curDir)
    | [] => (result, curDir)
    end in
  (result, curDir ++ [f]).

(** [if len(curDir) > 0 { result = append(result, curDir) }] *)
Definition closeRun (acc : list (list repoFile) * list repoFile)
  : list (list repoFile) :=
  let '(result, curDir) := acc in
  match curDir with
  | _ :: _ => result ++ [curDir]
  | [] => result
  end.

(** The loop over [result] with the [seen] map; [None] is the normal end
    of the loop. *)
Fixpoint checkSeen (dirs : list (list repoFile)) (seen : gmap string bool)
  : option error :=
  match dirs with
  | [] => None
  | dir :: rest =>
      match dir with
      | [] => Some ErrIndexOutOfRange
      | d0 :: _ =>
          if default false (seen !! dirPath d0)
          then Some (ErrNotContiguous (dirPath d0))
          else checkSeen rest (<[dirPath d0 := true]> seen)
      end
  end.

Definition groupFilesByDirectory (files : list repoFile)
  : result (list (list repoFile)) :=
  if (length files =? 0)%nat then Ok []
  else
    let result := closeRun (fold_left groupStep files ([], [])) in
    match checkSeen result ∅ with
    | Some e => Err e
    | None => Ok result
    end.

(** *** Words of the design document about grouping *)

(** Two files of one directory with a file of another directory between
    them: the directory's files do not form one contiguous run. *)
Definition notContiguous (files : list repoFile) : Prop :=
  exists l1 f l2 g l3 h l4,
    files = l1 ++ f :: l2 ++ g :: l3 ++ h :: l4
    /\ dirPath f = dirPath h /\ dirPath g <> dirPath f.

(** All files of a group share one directory path. *)
Definition sameDirectory (g : list repoFile) : Prop :=
  forall f f', f ∈ g -> f' ∈ g -> dirPath f = dirPath f'.

(** *** Proof of the grouping properties *)

Definition dirOf (g : list repoFile) : string :=
  match g with
  | f :: _ => dirPath f
  | [] => ""
  end.

Definition uniform (g : list repoFile) : Prop :=
  forall f, f ∈ g -> dirPath f = dirOf g.

Definition good (g : list repoFile) : Prop := g <> [] /\ uniform g.

(** Neighbouring groups lie in different directories. *)
Fixpoint adjDiff (gs : list (list repoFile)) : Prop :=
  match gs with
  | g1 :: ((g2 :: _) as rest) => dirOf g1 <> dirOf g2 /\ adjDiff rest
  | _ => True
  end.

Lemma adjDiff_snoc gs g :
  adjDiff gs ->
  (forall g', last gs = Some g' -> dirOf g' <> dirOf g) ->
  adjDiff (gs ++ [g]).
Proof.
  induction gs as [|g1 gs IH]; intros Hadj Hlast; [exact I|].
  destruct gs as [|g2 gs].
  - cbn. split; [|exact I]. apply Hlast. reflexivity.
  - cbn [app adjDiff] in *. destruct Hadj as [Hne Hadj].
    split; [exact Hne|]. apply IH; [exact Hadj|].
    intros g' Hg'. apply Hlast. exact Hg'.
Qed.

Lemma adjDiff_middle A g1 g2 C :
  adjDiff (A ++ g1 :: g2 :: C) -> dirOf g1 <> dirOf g2.
Proof.
  induction A as [|a A IH]; intros H.
  - exact (proj1 H).
  - apply IH. destruct A as [|a' A]; exact (proj2 H).
Qed.

Lemma uniform_snoc g f :
  g <> [] -> uniform g -> dirPath f = dirOf g -> uniform (g ++ [f]).
Proof.
  intros Hne Hu Hf f' Hin.
  assert (dirOf (g ++ [f]) = dirOf g) as ->
    by (destruct g; [congruence | reflexivity]).
  apply elem_of_app in Hin as [Hin|Hin]; [now apply Hu|].
  apply list_elem_of_singleton in Hin as ->. exact Hf.
Qed.

Lemma uniform_singleton f : uniform [f].
Proof. intros f' Hin. now apply list_elem_of_singleton in Hin as ->. Qed.

(** The invariant of the grouping loop. *)
Definition groupInv (acc : list (list repoFile) * list repoFile) : Prop :=
  let '(result, curDir) := acc in
  Forall good result /\ uniform curDir /\ adjDiff result
  /\ (forall g', last result = Some g' -> dirOf g' <> dirOf curDir)
  /\ (curDir = [] -> result = []).

Lemma groupStep_inv acc f : groupInv acc -> groupInv (groupStep acc f).
Proof.
  destruct acc as [result curDir].
  intros (Hgood & Huni & Hadj & Hlast & Hempty).
  destruct curDir as [|c0 cur]; cbn [groupStep] in *.
  - rewrite (Hempty eq_refl). cbn.
    refine (conj _ (conj _ (conj _ (conj _ _))));
      [constructor | apply uniform_singleton | exact I | discriminate
      | discriminate].
  - destruct (GoStrings.eq (dirPath f) (dirPath c0)) eqn:E; cbn [negb].
    + apply GoStrings.eq_true in E.
      refine (conj Hgood (conj _ (conj Hadj (conj Hlast _)))).
      * apply uniform_snoc; [discriminate | exact Huni | exact E].
      * discriminate.
    + apply GoStrings.eq_false in E. cbn [app].
      refine (conj _ (conj _ (conj _ (conj _ _)))).
      * apply Forall_app. split; [exact Hgood|].
        constructor; [|constructor]. split; [discriminate | exact Huni].
      * apply uniform_singleton.
      * apply adjDiff_snoc; [exact Hadj | exact Hlast].
      * intros g'. rewrite last_snoc. intros [= <-]. cbn. congruence.
      * discriminate.
Qed.

Lemma groupLoop_inv files acc :
  groupInv acc -> groupInv (fold_left groupStep files acc).
Proof.
  revert acc. induction files as [|f files IH]; intros acc H; [exact H|].
  cbn [fold_left]. apply IH. now apply groupStep_inv.
Qed.

Lemma groupStep_concat acc f :
  concat (fst (groupStep acc f)) ++ snd (groupStep acc f)
  = (concat (fst acc) ++ snd acc) ++ [f].
Proof.
  destruct acc as [result curDir].
  destruct curDir as [|c0 cur]; cbn [groupStep fst snd].
  - now rewrite <- app_assoc.
  - destruct (GoStrings.eq (dirPath f) (dirPath c0)); cbn [negb fst snd].
    + now rewrite app_assoc.
    + rewrite concat_app. cbn [concat]. now rewrite !app_nil_r.
Qed.

Lemma groupLoop_concat files acc :
  concat (fst (fold_left groupStep files acc))
  ++ snd (fold_left groupStep files acc)
  = (concat (fst acc) ++ snd acc) ++ files.
Proof.
  revert acc. induction files as [|f files IH]; intros acc.
  - cbn. now rewrite app_nil_r.
  - cbn [fold_left]. rewrite IH, groupStep_concat.
    now rewrite <- app_assoc.
Qed.

Lemma closeRun_concat acc : concat (closeRun acc) = concat (fst acc) ++ snd acc.
Proof.
  destruct acc as [result [|c0 cur]]; cbn.
  - now rewrite app_nil_r.
  - rewrite concat_app. cbn. now rewrite app_nil_r.
Qed.

Lemma closeRun_inv acc :
  groupInv acc -> Forall good (closeRun acc) /\ adjDiff (closeRun acc).
Proof.
  destruct acc as [result curDir].
  intros (Hgood & Huni & Hadj & Hlast & Hempty).
  destruct curDir as [|c0 cur]; cbn [closeRun]; [now split|].
  split.
  - apply Forall_app. split; [exact Hgood|].
    constructor; [|constructor]. split; [discriminate | exact Huni].
  - now apply adjDiff_snoc.
Qed.

(** The groups formed by the loop. *)
Definition groupsOf (files : list repoFile) : list (list repoFile) :=
  closeRun (fold_left groupStep files ([], [])).

Lemma groupsOf_props files :
  concat (groupsOf files) = files
  /\ Forall good (groupsOf files) /\ adjDiff (groupsOf files).
Proof.
  unfold groupsOf. split.
  - rewrite closeRun_concat, groupLoop_concat. reflexivity.
  - apply closeRun_inv, groupLoop_inv. cbn.
    refine (conj _ (conj _ (conj I (conj _ _))));
      [constructor | | discriminate | reflexivity].
    intros f Hin. inversion Hin.
Qed.

Lemma elem_of_concat_groups (x : repoFile) gs :
  x ∈ concat gs -> exists g, g ∈ gs /\ x ∈ g.
Proof.
  induction gs as [|g gs IH]; cbn [concat]; intros H; [inversion H|].
  apply elem_of_app in H as [H|H].
  - exists g. split; [apply list_elem_of_here | exact H].
  - destruct (IH H) as [g' [Hg' Hx]]. exists g'.
    split; [now apply list_elem_of_further | exact Hx].
Qed.

Lemma notContiguous_prepend l files :
  notContiguous files -> notContiguous (l ++ files).
Proof.
  intros (l1 & f & l2 & g & l3 & h & l4 & -> & H1 & H2).
  exists (l ++ l1), f, l2, g, l3, h, l4.
  split; [now rewrite <- app_assoc | now split].
Qed.

(** Two groups of one directory: the files of that directory are not
    contiguous. *)
Lemma dup_notContiguous gs :
  Forall good gs -> adjDiff gs -> ~ NoDup (dirOf <$> gs) ->
  notContiguous (concat gs).
Proof.
  induction gs as [|G rest IH]; intros Hgood Hadj Hdup.
  - exfalso. apply Hdup. constructor.
  - apply Forall_cons in Hgood as [[HGne HGuni] Hgood].
    destruct (decide (dirOf G ∈ dirOf <$> rest)) as [Hin|Hnin].
    + apply list_elem_of_fmap in Hin as (G2 & Hdir & HG2).
      apply list_elem_of_split in HG2 as (B & C & ->).
      destruct B as [|b B].
      { exfalso. cbn [app] in Hadj. exact (proj1 Hadj Hdir). }
      assert (dirOf G <> dirOf b) as Hb by exact (proj1 Hadj).
      assert (good b /\ good G2) as [[Hbne Hbuni] [HG2ne _]].
      { split.
        - now apply Forall_cons in Hgood as [? _].
        - apply Forall_cons in Hgood as [_ Hgood].
          apply Forall_app in Hgood as [_ Hgood].
          now apply Forall_cons in Hgood as [? _]. }
      destruct G as [|f G']; [congruence|].
      destruct b as [|g b']; [congruence|].
      destruct G2 as [|h G2']; [congruence|].
      exists [], f, G', g, (b' ++ concat B), h, (G2' ++ concat C).
      split; [|split].
      * cbn [concat app]. rewrite concat_app. cbn [concat app].
        do 2 f_equal. now rewrite <- app_assoc.
      * exact Hdir.
      * cbn in Hb. congruence.
    + cbn [concat]. apply notContiguous_prepend. apply IH.
      * exact Hgood.
      * destruct rest; [exact I | exact (proj2 Hadj)].
      * intros Hnd. apply Hdup. cbn [fmap list_fmap].
        now apply NoDup_cons.
Qed.

(** Files of one directory that are not contiguous lie in two groups of
    that directory. *)
Lemma notContiguous_dup gs l1 f l2 g l3 h l4 :
  Forall good gs ->
  concat gs = l1 ++ f :: l2 ++ g :: l3 ++ h :: l4 ->
  dirPath f = dirPath h -> dirPath g <> dirPath f ->
  ~ NoDup (dirOf <$> gs).
Proof.
  revert l1. induction gs as [|G rest IH]; intros l1 Hgood Hcat Hfh Hgf Hnd.
  - destruct l1; discriminate.
  - apply Forall_cons in Hgood as [[HGne HGuni] Hgood].
    cbn [fmap list_fmap] in Hnd. apply NoDup_cons in Hnd as [Hnin Hnd].
    (* a file of the directory of [G] in a later group is a duplicate *)
    assert (forall x, x ∈ concat rest -> dirPath x = dirOf G -> False)
      as Hlater.
    { intros x Hx Hdx.
      apply elem_of_concat_groups in Hx as (G' & HG' & HxG').
      apply Hnin. apply list_elem_of_fmap. exists G'. split; [|exact HG'].
      rewrite <- Hdx.
      rewrite Forall_forall in Hgood. exact (proj2 (Hgood G' HG') x HxG'). }
    cbn [concat] in Hcat.
    apply app_eq_inv in Hcat as [(k & HG & Hk)|(k & Hl1 & Hrest)].
    + destruct k as [|f' k'].
      * cbn [app] in Hk. apply (IH [] Hgood (eq_sym Hk) Hfh Hgf Hnd).
      * cbn [app] in Hk. injection Hk as <- HR.
        assert (dirOf G = dirPath f) as HdG.
        { symmetry. apply HGuni. rewrite HG. apply elem_of_app. right.
          apply list_elem_of_here. }
        assert (h ∈ concat rest) as Hh.
        { apply app_eq_inv in HR as [(k2 & _ & Hk2)|(k2 & Hk' & Hk2)].
          - rewrite Hk2. apply elem_of_app. right.
            apply list_elem_of_further. apply elem_of_app. right.
            apply list_elem_of_here.
          - destruct k2 as [|g' k2'].
            + cbn [app] in Hk2. rewrite <- Hk2.
              apply list_elem_of_further. apply elem_of_app. right.
              apply list_elem_of_here.
            + cbn [app] in Hk2. injection Hk2 as <- _.
              exfalso. apply Hgf. rewrite <- HdG. apply HGuni.
              rewrite HG, Hk'. apply elem_of_app. right.
              apply list_elem_of_further. apply elem_of_app. right.
              apply list_elem_of_here. }
        apply (Hlater h Hh). congruence.
    + apply (IH k Hgood Hrest Hfh Hgf Hnd).
Qed.

(** What the loop over the groups with the [seen] map decides. *)
Lemma checkSeen_None gs seen :
  Forall good gs ->
  (checkSeen gs seen = None <->
   NoDup (dirOf <$> gs)
   /\ forall g, g ∈ gs -> default false (seen !! dirOf g) = false).
Proof.
  revert seen. induction gs as [|G rest IH]; intros seen Hgood.
  - cbn. split; [|reflexivity]. intros _. split; [constructor|].
    intros g Hg. inversion Hg.
  - apply Forall_cons in Hgood as [[HGne _] Hgood].
    destruct G as [|d0 G']; [congruence|]. cbn [checkSeen].
    destruct (default false (seen !! dirPath d0)) eqn:Eseen.
    + split; [discriminate|]. intros [_ H].
      specialize (H (d0 :: G') (list_elem_of_here _ _)). cbn in H. congruence.
    + rewrite (IH _ Hgood). cbn [fmap list_fmap]. rewrite NoDup_cons.
      split.
      * intros [Hnd Hun]. split; [split; [|exact Hnd]|].
        -- intros Hin. apply list_elem_of_fmap in Hin as (G2 & Hd & HG2).
           specialize (Hun G2 HG2). rewrite <- Hd in Hun. cbn in Hun.
           now rewrite lookup_insert_eq in Hun.
        -- intros g Hg. apply elem_of_cons in Hg as [->|Hg]; [exact Eseen|].
           specialize (Hun g Hg).
           destruct (decide (dirPath d0 = dirOf g)) as [E|E].
           ++ rewrite <- E in Hun. now rewrite lookup_insert_eq in Hun.
           ++ now rewrite lookup_insert_ne in Hun.
      * intros [[Hnin Hnd] Hun]. split; [exact Hnd|].
        intros g Hg.
        assert (dirPath d0 <> dirOf g) as E.
        { intros E. apply Hnin. apply list_elem_of_fmap. exists g.
          split; [exact E | exact Hg]. }
        rewrite lookup_insert_ne by exact E.
        apply Hun. now apply list_elem_of_further.
Qed.

Lemma checkSeen_Some gs seen e :
  Forall good gs -> checkSeen gs seen = Some e ->
  exists d, e = ErrNotContiguous d.
Proof.
  revert seen. induction gs as [|G rest IH]; intros seen Hgood H;
    [discriminate|].
  apply Forall_cons in Hgood as [[HGne _] Hgood].
  destruct G as [|d0 G']; [congruence|]. cbn [checkSeen] in H.
  destruct (default false (seen !! dirPath d0)).
  - injection H as <-. eauto.
  - exact (IH _ Hgood H).
Qed.

Lemma groupFilesByDirectory_unfold files :
  files <> [] ->
  groupFilesByDirectory files
  = match checkSeen (groupsOf files) ∅ with
    | Some e => Err e
    | None => Ok (groupsOf files)
    end.
Proof.
  intros H. unfold groupFilesByDirectory.
  destruct files; [congruence | reflexivity].
Qed.

Lemma groupsOf_NoDup files :
  NoDup (dirOf <$> groupsOf files) <-> ~ notContiguous files.
Proof.
  destruct (groupsOf_props files) as (Hcat & Hgood & Hadj).
  split.
  - intros Hnd (l1 & f & l2 & g & l3 & h & l4 & Hfiles & Hfh & Hgf).
    rewrite <- Hcat in Hfiles.
    exact (notContiguous_dup _ _ _ _ _ _ _ _ Hgood Hfiles Hfh Hgf Hnd).
  - intros Hc. destruct (decide (NoDup (dirOf <$> groupsOf files))) as [H|H];
      [exact H|].
    exfalso. apply Hc. rewrite <- Hcat. now apply dup_notContiguous.
Qed.

Lemma good_sameDirectory g : good g -> g <> [] /\ sameDirectory g.
Proof.
  intros [Hne Hu]. split; [exact Hne|].
  intros f f' Hf Hf'. now rewrite (Hu f Hf), (Hu f' Hf').
Qed.

Definition file (dir name : string) : repoFile :=
  {| dirPath := dir; filename := name; treeHash := []; blobHash := [];
     year := 0; number := 0 |}.

(** The file lists of [TestGroupFilesByDirectory]. *)
Definition testFiles : list repoFile :=
  [ file "a" "f1"; file "a" "f2"; file "b" "f1"; file "c" "f1";
    file "c" "f2" ].

Definition testFilesSplit : list repoFile :=
  [ file "a" ""; file "b" ""; file "a" "" ].

(** *** Claims about [groupFilesByDirectory] *)

(** C8. For every list of repo files in which the files of some directory
    do not form a single contiguous run, [groupFilesByDirectory] returns an
    error (the one that names a non-contiguous directory) and no grouping;
    for every list in which each directory's files are contiguous it
    succeeds. *)
Theorem groupFilesByDirectory_contiguity :
  forall files : list repoFile,
    (notContiguous files ->
     exists d, groupFilesByDirectory files = Err (ErrNotContiguous d))
    /\ (~ notContiguous files ->
        exists gs, groupFilesByDirectory files = Ok gs).
Proof.
  intros files. destruct (groupsOf_props files) as (Hcat & Hgood & Hadj).
  split.
  - intros Hnc.
    assert (files <> []) as Hne.
    { destruct Hnc as (l1 & ? & ? & ? & ? & ? & ? & -> & _).
      destruct l1; discriminate. }
    rewrite groupFilesByDirectory_unfold by exact Hne.
    destruct (checkSeen (groupsOf files) ∅) as [e|] eqn:E.
    + destruct (checkSeen_Some _ _ _ Hgood E) as [d ->]. eauto.
    + exfalso. apply (checkSeen_None _ _ Hgood) in E as [Hnd _].
      now apply groupsOf_NoDup in Hnd.
  - intros Hc. destruct files as [|f files]; [exists []; reflexivity|].
    rewrite groupFilesByDirectory_unfold by discriminate.
    assert (checkSeen (groupsOf (f :: files)) ∅ = None) as ->; [|eauto].
    apply (checkSeen_None _ _ Hgood). split.
    + now apply groupsOf_NoDup.
    + intros g _. reflexivity.
Qed.

Lemma groupFilesByDirectory_contiguity_witness :
  (exists d, groupFilesByDirectory testFilesSplit = Err (ErrNotContiguous d))
  /\ (exists gs, groupFilesByDirectory testFiles = Ok gs).
Proof.
  split.
  - apply (proj1 (groupFilesByDirectory_contiguity testFilesSplit)).
    exists [], (file "a" ""), [], (file "b" ""), [], (file "a" ""), [].
    split; [reflexivity | split; [reflexivity | discriminate]].
  - apply (proj2 (groupFilesByDirectory_contiguity testFiles)).
    apply groupsOf_NoDup. vm_compute.
    repeat (constructor; [rewrite ?elem_of_cons, ?elem_of_nil;
                          intuition discriminate|]).
    constructor.
Defined.

(** C10. For every file list on which [groupFilesByDirectory] succeeds:
    concatenating the returned groups in order yields exactly the input
    list, every returned group is non-empty, and all files within one group
    share the same directory path. *)
Theorem groupFilesByDirectory_partition :
  forall (files : list repoFile) (gs : list (list repoFile)),
    groupFilesByDirectory files = Ok gs ->
    concat gs = files
    /\ Forall (fun g => g <> [] /\ sameDirectory g) gs.
Proof.
  intros files gs H.
  destruct files as [|f files].
  - injection H as <-. split; [reflexivity | constructor].
  - rewrite groupFilesByDirectory_unfold in H by discriminate.
    destruct (checkSeen (groupsOf (f :: files)) ∅); [discriminate|].
    injection H as <-.
    destruct (groupsOf_props (f :: files)) as (Hcat & Hgood & _).
    split; [exact Hcat|].
    eapply Forall_impl; [exact Hgood|]. apply good_sameDirectory.
Qed.

Lemma groupFilesByDirectory_partition_witness :
  concat [ [file "a" "f1"; file "a" "f2"]; [file "b" "f1"];
           [file "c" "f1"; file "c" "f2"] ] = testFiles
  /\ Forall (fun g => g <> [] /\ sameDirectory g)
            [ [file "a" "f1"; file "a" "f2"]; [file "b" "f1"];
              [file "c" "f1"; file "c" "f2"] ].
Proof.
  apply (groupFilesByDirectory_partition testFiles). vm_compute. reflexivity.
Defined.

(** *** The store, the CVE records and the environment of the worker *)

(** Modelled from the spec: [cveschema.CVE] is declared in
    [internal/cveschema], which is not among the sources.  Of a parsed CVE
    the worker reads the ID, the state ([PUBLIC], [RESERVED], [REJECTED],
    ...), the data version, the descriptions (language and text) and the
    reference URLs. *)
Module cveschema.

Record CVE := {
  ID : string;
  State : string;
  DataVersion : string;
  Description : list (string * string);
  References : list string;
}.

Definition StatePublic : string := "PUBLIC".

End cveschema.

(** [time.Time] as the distance from the zero time. *)
Abbreviation Time := Z.

Definition IsZero (t : Time) : bool := (t =? 0)%Z.

(** Modelled from the spec: the [store] package (records, triage states,
    the store interface and its transactions) is not among the sources.  A
    CVE record is identified by its CVE ID and holds the source path and
    blob hash, the last processed commit hash, the CVE state, the triage
    state and reason, the affected module, the cached CVE (only when an
    issue is needed), the issue reference and the issue creation time. *)
Module store.

Definition TriageState := string.

Definition TriageStateNoActionNeeded : TriageState := "NoActionNeeded".
Definition TriageStateNeedsIssue : TriageState := "NeedsIssue".
Definition TriageStateIssueCreated : TriageState := "IssueCreated".
Definition TriageStateUpdatedSinceIssueCreation : TriageState :=
  "UpdatedSinceIssueCreation".

Record CVERecord := {
  ID : string;
  Path : string;
  BlobHash : string;
  CommitHash : string;
  CVEState : string;
  TriageState_ : TriageState;
  TriageStateReason : string;
  Module_ : string;
  CVE : option cveschema.CVE;
  IssueReference : string;
  IssueCreatedAt : Time;
}.

(** [store.NewCVERecord(cve, path, blobHash)]: the record of a CVE seen for
    the first time; the fields it does not name are zero. *)
Definition NewCVERecord (cve : cveschema.CVE) (path blobHash : string)
  : CVERecord :=
  {| ID := cveschema.ID cve; Path := path; BlobHash := blobHash;
     CommitHash := ""; CVEState := cveschema.State cve;
     TriageState_ := ""; TriageStateReason := ""; Module_ := "";
     CVE := None; IssueReference := ""; IssueCreatedAt := 0 |}.

(** Assignments to single fields of a record. *)
Definition setPath (p : string) (r : CVERecord) : CVERecord :=
  {| ID := ID r; Path := p; BlobHash := BlobHash r;
     CommitHash := CommitHash r; CVEState := CVEState r;
     TriageState_ := TriageState_ r;
     TriageStateReason := TriageStateReason r; Module_ := Module_ r;
     CVE := CVE r; IssueReference := IssueReference r;
     IssueCreatedAt := IssueCreatedAt r |}.

Definition setBlobHash (h : string) (r : CVERecord) : CVERecord :=
  {| ID := ID r; Path := Path r; BlobHash := h;
     CommitHash := CommitHash r; CVEState := CVEState r;
     TriageState_ := TriageState_ r;
     TriageStateReason := TriageStateReason r; Module_ := Module_ r;
     CVE := CVE r; IssueReference := IssueReference r;
     IssueCreatedAt := IssueCreatedAt r |}.

Definition setCommitHash (h : string) (r : CVERecord) : CVERecord :=
  {| ID := ID r; Path := Path r; BlobHash := BlobHash r;
     CommitHash := h; CVEState := CVEState r;
     TriageState_ := TriageState_ r;
     TriageStateReason := TriageStateReason r; Module_ := Module_ r;
     CVE := CVE r; IssueReference := IssueReference r;
     IssueCreatedAt := IssueCreatedAt r |}.

Definition setCVEState (st : string) (r : CVERecord) : CVERecord :=
  {| ID := ID r; Path := Path r; BlobHash := BlobHash r;
     CommitHash := CommitHash r; CVEState := st;
     TriageState_ := TriageState_ r;
     TriageStateReason := TriageStateReason r; Module_ := Module_ r;
     CVE := CVE r; IssueReference := IssueReference r;
     IssueCreatedAt := IssueCreatedAt r |}.

Definition setTriageState (ts : TriageState) (r : CVERecord) : CVERecord :=
  {| ID := ID r; Path := Path r; BlobHash := BlobHash r;
     CommitHash := CommitHash r; CVEState := CVEState r;
     TriageState_ := ts;
     TriageStateReason := TriageStateReason r; Module_ := Module_ r;
     CVE := CVE r; IssueReference := IssueReference r;
     IssueCreatedAt := IssueCreatedAt r |}.

Definition setTriageStateReason (reason : string) (r : CVERecord)
  : CVERecord :=
  {| ID := ID r; Path := Path r; BlobHash := BlobHash r;
     CommitHash := CommitHash r; CVEState := CVEState r;
     TriageState_ := TriageState_ r;
     TriageStateReason := reason; Module_ := Module_ r;
     CVE := CVE r; IssueReference := IssueReference r;
     IssueCreatedAt := IssueCreatedAt r |}.

Definition setModule (m : string) (r : CVERecord) : CVERecord :=
  {| ID := ID r; Path := Path r; BlobHash := BlobHash r;
     CommitHash := CommitHash r; CVEState := CVEState r;
     TriageState_ := TriageState_ r;
     TriageStateReason := TriageStateReason r; Module_ := m;
     CVE := CVE r; IssueReference := IssueReference r;
     IssueCreatedAt := IssueCreatedAt r |}.

Definition setCVE (c : option cveschema.CVE) (r : CVERecord) : CVERecord :=
  {| ID := ID r; Path := Path r; BlobHash := BlobHash r;
     CommitHash := CommitHash r; CVEState := CVEState r;
     TriageState_ := TriageState_ r;
     TriageStateReason := TriageStateReason r; Module_ := Module_ r;
     CVE := c; IssueReference := IssueReference r;
     IssueCreatedAt := IssueCreatedAt r |}.

Definition setIssueReference (ref : string) (r : CVERecord) : CVERecord :=
  {| ID := ID r; Path := Path r; BlobHash := BlobHash r;
     CommitHash := CommitHash r; CVEState := CVEState r;
     TriageState_ := TriageState_ r;
     TriageStateReason := TriageStateReason r; Module_ := Module_ r;
     CVE := CVE r; IssueReference := ref;
     IssueCreatedAt := IssueCreatedAt r |}.

Definition setIssueCreatedAt (t : Time) (r : CVERecord) : CVERecord :=
  {| ID := ID r; Path := Path r; BlobHash := BlobHash r;
     CommitHash := CommitHash r; CVEState := CVEState r;
     TriageState_ := TriageState_ r;
     TriageStateReason := TriageStateReason r; Module_ := Module_ r;
     CVE := CVE r; IssueReference := IssueReference r;
     IssueCreatedAt := t |}.

End store.

(** [Issue] of the issue client. *)
Record Issue := {
  Title : string;
  Body : string;
  Labels : list string;
}.

(** What the worker takes from outside: two functions of Go's standard
    library ([path.Join], and [strconv.Quote] behind the verb [%q]), a
    constant of the absent [gitrepo] package, and the behaviour of the
    services it calls: whether the [n]-th call to a service fails, and what
    the clock shows after [n] calls. *)
Record Env := {
  path_Join : string -> string -> string;
  strconv_Quote : string -> string;
  CVEListRepoURL : string;
  fails : nat -> bool;
  timeAt : nat -> Time;
}.

(** The calls made to the store, the classifier and the issue tracker. *)
Inductive Event :=
| EvGetDirectoryHash (path : string)
| EvSetDirectoryHash (path hash : string)
| EvRunTransaction
| EvGetCVERecords (startID endID : string)
| EvCreateCVERecord (id : string)
| EvSetCVERecord (id : string)
| EvListCVERecordsWithTriageState (ts : string)
| EvTriage (id : string)
| EvCreateIssue (title : string).

(** The state outside the worker: the store (directory hashes and CVE
    records by document ID), the issues filed in the tracker, the number of
    service calls made, and the calls made, latest first. *)
Record World := {
  dirHashes : gmap string string;
  cveRecords : gmap string store.CVERecord;
  issues : list Issue;
  calls : nat;
  trace : list Event;
}.

(** Effectful code: a function of the world that returns the new world and
    either a value or an error. *)
Definition M (A : Type) : Type := World -> World * result A.

Definition ret {A} (a : A) : M A := fun w => (w, Ok a).

Definition raise {A} (e : error) : M A := fun w => (w, Err e).

Definition bind {A B} (m : M A) (k : A -> M B) : M B :=
  fun w =>
    match m w with
    | (w', Ok a) => k a w'
    | (w', Err e) => (w', Err e)
    end.

Notation "'let!' x ':=' m 'in' k" := (bind m (fun x => k))
  (at level 10, x name, m at level 100, k at level 200).
Notation "'do!' m 'in' k" := (bind m (fun _ => k))
  (at level 10, m at level 100, k at level 200).

(** [derrors.Wrap(&err, context)] in a [defer]. *)
Definition wrap {A} (context : string) (m : M A) : M A :=
  fun w =>
    match m w with
    | (w', Err e) => (w', Err (ErrWrapped context e))
    | r => r
    end.

(** A value that comes with an error. *)
Definition lift {A} (r : result A) : M A := fun w => (w, r).

Section Services.

Variable E : Env.

(** A call to a service: it is recorded, counted, and fails when the
    environment says so. *)
Definition call (ev : Event) : M unit :=
  fun w =>
    let w' := {| dirHashes := dirHashes w; cveRecords := cveRecords w;
                 issues := issues w; calls := S (calls w);
                 trace := ev :: trace w |} in
    if fails E (calls w) then (w', Err (ErrIO (calls w))) else (w', Ok tt).

(** [st.GetDirectoryHash(ctx, path)]; a path without a stored hash has the
    empty hash. *)
Definition GetDirectoryHash (path : string) : M string :=
  do! call (EvGetDirectoryHash path) in
  fun w => (w, Ok (default "" (dirHashes w !! path))).

(** [st.SetDirectoryHash(ctx, path, hash)] *)
Definition SetDirectoryHash (path hash : string) : M unit :=
  do! call (EvSetDirectoryHash path hash) in
  fun w =>
    ({| dirHashes := <[path := hash]> (dirHashes w);
        cveRecords := cveRecords w; issues := issues w; calls := calls w;
        trace := trace w |}, Ok tt).

(** [tx.GetCVERecords(startID, endID)]: the records whose ID lies between
    the two IDs, as strings. *)
Definition GetCVERecords (startID endID : string) : M (list store.CVERecord) :=
  do! call (EvGetCVERecords startID endID) in
  fun w =>
    (w, Ok (List.filter
              (fun r => GoStrings.le startID (store.ID r)
                        && GoStrings.le (store.ID r) endID)
              (snd <$> map_to_list (cveRecords w)))).

Definition writeRecord (r : store.CVERecord) : M unit :=
  fun w =>
    ({| dirHashes := dirHashes w;
        cveRecords := <[store.ID r := r]> (cveRecords w);
        issues := issues w; calls := calls w; trace := trace w |}, Ok tt).

(** [tx.CreateCVERecord(r)] *)
Definition CreateCVERecord (r : store.CVERecord) : M unit :=
  do! call (EvCreateCVERecord (store.ID r)) in writeRecord r.

(** [tx.SetCVERecord(r)] *)
Definition SetCVERecord (r : store.CVERecord) : M unit :=
  do! call (EvSetCVERecord (store.ID r)) in writeRecord r.

(** [st.ListCVERecordsWithTriageState(ctx, ts)] *)
Definition ListCVERecordsWithTriageState (ts : store.TriageState)
  : M (list store.CVERecord) :=
  do! call (EvListCVERecordsWithTriageState ts) in
  fun w =>
    (w, Ok (List.filter
              (fun r => GoStrings.eq (store.TriageState_ r) ts)
              (snd <$> map_to_list (cveRecords w)))).

(** [st.RunTransaction(ctx, body)]: the writes of [body] are kept when it
    returns without error and discarded otherwise. *)
Definition RunTransaction {A} (body : M A) : M A :=
  do! call EvRunTransaction in
  fun w =>
    match body w with
    | (w', Ok a) => (w', Ok a)
    | (w', Err e) =>
        ({| dirHashes := dirHashes w'; cveRecords := cveRecords w;
            issues := issues w'; calls := calls w'; trace := trace w' |},
         Err e)
    end.

(** [time.Now()] *)
Definition Now : M Time := fun w => (w, Ok (timeAt E (calls w))).

End Services.

(** *** Go's [path] and [strings] functions used by [idFromFilename] *)

(** [path.Ext(p)]: the suffix from the last dot of the last element.  The
    scan returns whether a slash follows and the extension found so far. *)
Fixpoint extScan (p : string) : bool * string :=
  match p with
  | EmptyString => (false, "")
  | String c r =>
      let '(slash, e) := extScan r in
      if slash then (true, e)
      else if negb (GoStrings.eq e "") then (false, e)
      else if Ascii.eqb c "/" then (true, "")
      else if Ascii.eqb c "." then (false, p)
      else (false, "")
  end.

Definition path_Ext (p : string) : string := snd (extScan p).

Fixpoint dropWhile {A} (p : A -> bool) (l : list A) : list A :=
  match l with
  | x :: rest => if p x then dropWhile p rest else l
  | [] => []
  end.

Fixpoint takeWhile {A} (p : A -> bool) (l : list A) : list A :=
  match l with
  | x :: rest => if p x then x :: takeWhile p rest else []
  | [] => []
  end.

(** [path.Base(p)]: the last element, after trailing slashes are removed. *)
Definition path_Base (p : string) : string :=
  if GoStrings.eq p "" then "."
  else
    let isSlash := fun c => Ascii.eqb c "/" in
    let stripped := dropWhile isSlash (rev (list_ascii_of_string p)) in
    let lastElem := takeWhile (fun c => negb (isSlash c)) stripped in
    match lastElem with
    | [] => "/"
    | _ => string_of_list_ascii (rev lastElem)
    end.

(** [strings.HasSuffix(s, suffix)] and [strings.TrimSuffix(s, suffix)] *)
Definition HasSuffix (s suffix : string) : bool :=
  (String.length suffix <=? String.length s)%nat
  && GoStrings.eq
       (String.substring (String.length s - String.length suffix)
                         (String.length suffix) s) suffix.

Definition TrimSuffix (s suffix : string) : string :=
  if HasSuffix s suffix
  then String.substring 0 (String.length s - String.length suffix) s
  else s.

(** [idFromFilename(name)] *)
Definition idFromFilename (name : string) : string :=
  TrimSuffix (path_Base name) (path_Ext name).

(** *** [internal/worker/update.go]: the updater *)

(** Modelled from the spec: [triageResult] is declared in a file of the
    package that is not among the sources; the classifier returns the
    module path and whether it is the standard library, or no result. *)
Record triageResult := {
  modulePath : string;
  stdlib : bool;
}.

(** [updater].  [repo] is what reading and decoding the blob with a given
    hash yields; [st] is the store of the world; [affectedModule] is the
    classifier. *)
Record updater := {
  repo : Hash -> result cveschema.CVE;
  commitHash : Hash;
  knownIDs : gmap string bool;
  affectedModule : cveschema.CVE -> result (option triageResult);
}.

(** [u.knownIDs[id]] *)
Definition known (u : updater) (id : string) : bool :=
  default false (knownIDs u !! id).

(** [updateStats] *)
Record updateStats := {
  numProcessed : Z;
  numAdded : Z;
  numModified : Z;
}.

Definition maxTransactionWrites : nat := 500.

Section Updater.

Variable E : Env.

(** [u.affectedModule(cve)]: the call is recorded. *)
Definition triage (u : updater) (cve : cveschema.CVE)
  : M (option triageResult) :=
  fun w =>
    ({| dirHashes := dirHashes w; cveRecords := cveRecords w;
        issues := issues w; calls := calls w;
        trace := EvTriage (cveschema.ID cve) :: trace w |},
     affectedModule u cve).

(** The [switch old.TriageState] of [handleCVE] on the copy [mod_]. *)
Definition reclassify (old mod_ : store.CVERecord)
           (result : option triageResult) : M store.CVERecord :=
  let ts := store.TriageState_ old in
  if GoStrings.eq ts store.TriageStateNoActionNeeded then
    match result with
    | Some res =>
        ret (store.setModule (modulePath res)
               (store.setTriageState store.TriageStateNeedsIssue mod_))
    | None => ret mod_
    end
  else if GoStrings.eq ts store.TriageStateNeedsIssue then
    match result with
    | None =>
        ret (store.setCVE None
               (store.setModule ""
                  (store.setTriageState store.TriageStateNoActionNeeded mod_)))
    | Some _ => ret mod_
    end
  else if GoStrings.eq ts store.TriageStateIssueCreated
          || GoStrings.eq ts store.TriageStateUpdatedSinceIssueCreation then
    let mp := match result with Some res => modulePath res | None => "" end in
    ret (store.setTriageStateReason
           ("CVE changed; affected module = " +:+ strconv_Quote E mp)
           (store.setTriageState
              store.TriageStateUpdatedSinceIssueCreation mod_))
  else raise (ErrUnknownTriageState ts).

(** [u.handleCVE(f, old, tx)] *)
Definition handleCVE (u : updater) (f : repoFile)
           (old : option store.CVERecord) : M bool :=
  wrap ("handleCVE(" +:+ filename f +:+ ")")
    (let! cve := lift (repo u (blobHash f)) in
     let pathname := path_Join E (dirPath f) (filename f) in
     let! result :=
       (if GoStrings.eq (cveschema.State cve) cveschema.StatePublic
           && negb (known u (cveschema.ID cve))
        then triage u cve
        else ret None) in
     match old with
     | None =>
         let cr :=
           store.NewCVERecord cve pathname (Hash_String (blobHash f)) in
         let cr := store.setCommitHash (Hash_String (commitHash u)) cr in
         let cr :=
           match result with
           | Some res =>
               store.setCVE (Some cve)
                 (store.setModule (modulePath res)
                    (store.setTriageState store.TriageStateNeedsIssue cr))
           | None =>
               let cr :=
                 store.setTriageState store.TriageStateNoActionNeeded cr in
               if known u (cveschema.ID cve)
               then store.setTriageStateReason "already in vuln DB" cr
               else cr
           end in
         do! CreateCVERecord E cr in
         ret true
     | Some old =>
         let mod_ := old in
         let mod_ := store.setPath pathname mod_ in
         let mod_ := store.setBlobHash (Hash_String (blobHash f)) mod_ in
         let mod_ := store.setCVEState (cveschema.State cve) mod_ in
         let mod_ := store.setCommitHash (Hash_String (commitHash u)) mod_ in
         let! mod_ := reclassify old mod_ result in
         do! SetCVERecord E mod_ in
         ret false
     end).

(** [for _, cr := range crs { idToRecord[cr.ID] = cr }] *)
Definition indexByID (crs : list store.CVERecord)
  : gmap string store.CVERecord :=
  fold_left (fun m cr => <[store.ID cr := cr]> m) crs ∅.

(** The loop [for _, f := range batch] in the transaction of
    [updateBatch], with its two counters. *)
Fixpoint batchFiles (u : updater) (idToRecord : gmap string store.CVERecord)
         (batch : list repoFile) (numAdds numMods : Z) : M (Z * Z) :=
  match batch with
  | [] => ret (numAdds, numMods)
  | f :: rest =>
      let id := idFromFilename (filename f) in
      let old := idToRecord !! id in
      if match old with
         | Some o => GoStrings.eq (store.BlobHash o) (Hash_String (blobHash f))
         | None => false
         end
      then batchFiles u idToRecord rest numAdds numMods
      else
        let! added := handleCVE u f old in
        if added : bool
        then batchFiles u idToRecord rest (numAdds + 1) numMods
        else batchFiles u idToRecord rest numAdds (numMods + 1)
  end.

(** [u.updateBatch(ctx, batch)] *)
Definition updateBatch (u : updater) (batch : list repoFile) : M (Z * Z) :=
  match batch, last batch with
  | first :: _, Some final =>
      let startID := idFromFilename (filename first) in
      let endID := idFromFilename (filename final) in
      wrap ("updateBatch(" +:+ startID +:+ "-" +:+ endID +:+ ")")
        (RunTransaction E
           (let! crs := GetCVERecords E startID endID in
            batchFiles u (indexByID crs) batch 0 0))
  | _, _ => raise ErrIndexOutOfRange
  end.

(** The loop [for i := 0; i < len(dirFiles); i += maxTransactionWrites] of
    [updateDirectory]; [i] grows in every round, so [len(dirFiles)] rounds
    are enough. *)
Fixpoint batchLoop (rounds : nat) (u : updater) (dirFiles : list repoFile)
         (i : nat) (stats : updateStats) : M updateStats :=
  match rounds with
  | O => ret stats
  | S k =>
      if (i <? length dirFiles)%nat then
        let j := (i + maxTransactionWrites)%nat in
        let j := if (length dirFiles <? j)%nat then length dirFiles else j in
        let! counts := updateBatch u (take (j - i) (drop i dirFiles)) in
        let stats :=
          {| numProcessed := numProcessed stats + Z.of_nat (j - i);
             numAdded := numAdded stats + fst counts;
             numModified := numModified stats + snd counts |} in
        batchLoop k u dirFiles (i + maxTransactionWrites) stats
      else ret stats
  end.

(** [u.updateDirectory(ctx, dirFiles)] *)
Definition updateDirectory (u : updater) (dirFiles : list repoFile)
  : M updateStats :=
  let zero := {| numProcessed := 0; numAdded := 0; numModified := 0 |} in
  match dirFiles with
  | [] => raise ErrIndexOutOfRange
  | f0 :: _ =>
      let dirPath := dirPath f0 in
      let dirHash := Hash_String (treeHash f0) in
      let! dbHash := GetDirectoryHash E dirPath in
      if GoStrings.eq dirHash dbHash then ret zero
      else
        do! SetDirectoryHash E dirPath "in progress" in
        let! stats := batchLoop (length dirFiles) u dirFiles 0 zero in
        do! SetDirectoryHash E dirPath dirHash in
        ret stats
  end.

End Updater.

(** *** [internal/worker/worker.go]: issue creation *)

(** [IssueClient]: the destination, and the reference of an issue number;
    [CreateIssue] acts on the tracker of the world. *)
Record IssueClient := {
  Destination : string;
  Reference : Z -> string;
}.

Definition englishLang : string := "eng".

(** A line feed. *)
Definition nl : string := String (ascii_of_nat 10) "".

Section Issues.

Variable E : Env.

(** [ic.CreateIssue(ctx, iss)]: the issue is filed and numbered. *)
Definition CreateIssue (iss : Issue) : M Z :=
  do! call E (EvCreateIssue (Title iss)) in
  fun w =>
    ({| dirHashes := dirHashes w; cveRecords := cveRecords w;
        issues := issues w ++ [iss]; calls := calls w; trace := trace w |},
     Ok (Z.of_nat (S (length (issues w))))).

(** [newBody(r)]: the fixed template filled in; executing it writes to a
    string builder and has no step that fails. *)
Definition newBody (r : store.CVERecord) : result string :=
  let desc :=
    match store.CVE r with
    | Some cve =>
        fold_left (fun desc d =>
                     if GoStrings.eq (fst d) englishLang then snd d else desc)
                  (cveschema.Description cve) ""
    | None => ""
    end in
  let heading :=
    "One or more of the reference URLs in [" +:+ store.ID r +:+ "]("
    +:+ CVEListRepoURL E +:+ "/tree/" +:+ store.CommitHash r +:+ "/"
    +:+ store.Path r +:+ ") refers to a Go module." in
  Ok (nl +:+ heading +:+ nl +:+ nl
      +:+ "module: " +:+ store.Module_ r +:+ nl
      +:+ "package:" +:+ nl +:+ "stdlib:" +:+ nl +:+ "versions:" +:+ nl
      +:+ "  - introduced:" +:+ nl +:+ "  - fixed:" +:+ nl
      +:+ "description: |" +:+ nl +:+ "  " +:+ desc +:+ nl +:+ nl
      +:+ "cve: " +:+ store.ID r +:+ nl
      +:+ "credit:" +:+ nl +:+ "symbols:" +:+ nl +:+ "  -" +:+ nl
      +:+ "published:" +:+ nl +:+ "links:" +:+ nl +:+ "  commit:" +:+ nl
      +:+ "  pr:" +:+ nl +:+ "  context:" +:+ nl +:+ "    -" +:+ nl).

(** The transaction of [CreateIssues] for the record with ID [id]. *)
Definition recordIssue (id ref : string) : M unit :=
  RunTransaction E
    (let! rs := GetCVERecords E id id in
     match rs with
     | [] => raise ErrIndexOutOfRange
     | r :: _ =>
         let r := store.setTriageState store.TriageStateIssueCreated r in
         let r := store.setIssueReference ref r in
         let! now := Now E in
         let r := store.setIssueCreatedAt now r in
         SetCVERecord E r
     end).

(** The loop [for _, r := range needsIssue] of [CreateIssues]. *)
Fixpoint createIssuesLoop (ic : IssueClient) (limit : Z)
         (needsIssue : list store.CVERecord) (numCreated : Z) : M unit :=
  match needsIssue with
  | [] => ret tt
  | r :: rest =>
      if (0 <? limit)%Z && (limit <=? numCreated)%Z then ret tt
      else if negb (GoStrings.eq (store.IssueReference r) "")
              || negb (IsZero (store.IssueCreatedAt r))
      then createIssuesLoop ic limit rest numCreated
      else
        let! body := lift (newBody r) in
        let iss :=
          {| Title :=
               "x/vulndb: potential Go vulnerability found from CVE List: "
               +:+ store.ID r;
             Body := body;
             Labels := ["Needs Triage"] |} in
        let! num :=
          (fun w =>
             match CreateIssue iss w with
             | (w', Err e) =>
                 (w', Err (ErrWrapped ("creating issue for " +:+ store.ID r)
                                      e))
             | ok => ok
             end) in
        let ref := Reference ic num in
        do! recordIssue (store.ID r) ref in
        createIssuesLoop ic limit rest (numCreated + 1)
  end.

(** [CreateIssues(ctx, st, ic, limit)]; the call to [derrors.Wrap] at its
    head is not deferred and sees a nil error. *)
Definition CreateIssues (ic : IssueClient) (limit : Z) : M unit :=
  let! needsIssue :=
    ListCVERecordsWithTriageState E store.TriageStateNeedsIssue in
  createIssuesLoop ic limit needsIssue 0.

End Issues.

(** *** Reasoning about the updater *)

Section UpdaterFacts.

Variable E : Env.
Variable u : updater.

(** What the classification step of [handleCVE] yields for a CVE: the
    classifier's answer for a public CVE that is not known, and no module
    otherwise. *)
Definition yields (cve : cveschema.CVE) : result (option triageResult) :=
  if GoStrings.eq (cveschema.State cve) cveschema.StatePublic
     && negb (known u (cveschema.ID cve))
  then affectedModule u cve
  else Ok None.

(** The world after a recorded call, and after a write. *)
Definition called (ev : Event) (w : World) : World :=
  {| dirHashes := dirHashes w; cveRecords := cveRecords w;
     issues := issues w; calls := S (calls w); trace := ev :: trace w |}.

Definition written (r : store.CVERecord) (w : World) : World :=
  {| dirHashes := dirHashes w;
     cveRecords := <[store.ID r := r]> (cveRecords w);
     issues := issues w; calls := calls w; trace := trace w |}.

Lemma call_ok ev w :
  fails E (calls w) = false -> call E ev w = (called ev w, Ok tt).
Proof. intros H. unfold call. now rewrite H. Qed.

Lemma call_failed ev w :
  fails E (calls w) = true ->
  call E ev w = (called ev w, Err (ErrIO (calls w))).
Proof. intros H. unfold call. now rewrite H. Qed.

(** The world in which [handleCVE] writes: the classifier has been called
    or not. *)
Definition classified (cve : cveschema.CVE) (w : World) : World :=
  if GoStrings.eq (cveschema.State cve) cveschema.StatePublic
     && negb (known u (cveschema.ID cve))
  then {| dirHashes := dirHashes w; cveRecords := cveRecords w;
          issues := issues w; calls := calls w;
          trace := EvTriage (cveschema.ID cve) :: trace w |}
  else w.

Lemma classified_calls cve w : calls (classified cve w) = calls w.
Proof. unfold classified. now destruct (_ && _). Qed.

Lemma classified_records cve w :
  cveRecords (classified cve w) = cveRecords w.
Proof. unfold classified. now destruct (_ && _). Qed.

(** [handleCVE] on an existing record, when the blob can be read and the
    classification step yields [res]. *)
Lemma handleCVE_existing f old cve res w :
  repo u (blobHash f) = Ok cve -> yields cve = Ok res ->
  handleCVE E u f (Some old) w
  = wrap ("handleCVE(" +:+ filename f +:+ ")")
      (let! md :=
         reclassify E old
           (store.setCommitHash (Hash_String (commitHash u))
              (store.setCVEState (cveschema.State cve)
                 (store.setBlobHash (Hash_String (blobHash f))
                    (store.setPath (path_Join E (dirPath f) (filename f))
                       old)))) res in
       do! SetCVERecord E md in ret false)
      (classified cve w).
Proof.
  intros Hrepo Hy. unfold yields in Hy.
  unfold handleCVE, wrap, bind, lift, classified, triage, ret.
  rewrite Hrepo.
  destruct (GoStrings.eq (cveschema.State cve) cveschema.StatePublic
            && negb (known u (cveschema.ID cve)));
    [rewrite Hy | injection Hy as <-]; reflexivity.
Qed.

Lemma ret_inj {A} (a b : A) (w : World) : ret a = ret b -> a = b.
Proof.
  intros H. apply (f_equal (fun m => m w)) in H. unfold ret in H. congruence.
Qed.

(** The triage states that [handleCVE] knows. *)
Definition storedState (ts : store.TriageState) : Prop :=
  ts = store.TriageStateNoActionNeeded \/ ts = store.TriageStateNeedsIssue
  \/ ts = store.TriageStateIssueCreated
  \/ ts = store.TriageStateUpdatedSinceIssueCreation.

Lemma reclassify_NoActionNeeded old md res :
  store.TriageState_ old = store.TriageStateNoActionNeeded ->
  reclassify E old md res
  = ret match res with
        | Some tr =>
            store.setModule (modulePath tr)
              (store.setTriageState store.TriageStateNeedsIssue md)
        | None => md
        end.
Proof. intros H. unfold reclassify. rewrite H. now destruct res. Qed.

Lemma reclassify_NeedsIssue old md res :
  store.TriageState_ old = store.TriageStateNeedsIssue ->
  reclassify E old md res
  = ret match res with
        | None =>
            store.setCVE None
              (store.setModule ""
                 (store.setTriageState store.TriageStateNoActionNeeded md))
        | Some _ => md
        end.
Proof. intros H. unfold reclassify. rewrite H. now destruct res. Qed.

Lemma reclassify_issue old md res :
  store.TriageState_ old = store.TriageStateIssueCreated
  \/ store.TriageState_ old = store.TriageStateUpdatedSinceIssueCreation ->
  reclassify E old md res
  = ret (store.setTriageStateReason
           ("CVE changed; affected module = "
            +:+ strconv_Quote E
                  match res with Some tr => modulePath tr | None => "" end)
           (store.setTriageState
              store.TriageStateUpdatedSinceIssueCreation md)).
Proof. intros [H|H]; unfold reclassify; now rewrite H. Qed.

Lemma reclassify_unknown old md res :
  ~ storedState (store.TriageState_ old) ->
  reclassify E old md res
  = raise (ErrUnknownTriageState (store.TriageState_ old)).
Proof.
  intros H. unfold reclassify, storedState in *.
  destruct (GoStrings.eq _ store.TriageStateNoActionNeeded) eqn:E1;
    [apply GoStrings.eq_true in E1; tauto|].
  destruct (GoStrings.eq _ store.TriageStateNeedsIssue) eqn:E2;
    [apply GoStrings.eq_true in E2; tauto|].
  destruct (GoStrings.eq _ store.TriageStateIssueCreated) eqn:E3;
    [apply GoStrings.eq_true in E3; tauto|].
  destruct (GoStrings.eq _ store.TriageStateUpdatedSinceIssueCreation)
    eqn:E4; [apply GoStrings.eq_true in E4; tauto|].
  reflexivity.
Qed.

(** A stored state leads to a record [md] that [handleCVE] writes. *)
Lemma reclassify_stored old md res :
  storedState (store.TriageState_ old) ->
  exists md', reclassify E old md res = ret md'
    /\ store.ID md' = store.ID md /\ store.Path md' = store.Path md
    /\ store.BlobHash md' = store.BlobHash md
    /\ store.CVEState md' = store.CVEState md
    /\ store.CommitHash md' = store.CommitHash md.
Proof.
  intros [H|[H|H]].
  - rewrite (reclassify_NoActionNeeded _ _ _ H). destruct res; eauto 10.
  - rewrite (reclassify_NeedsIssue _ _ _ H). destruct res; eauto 10.
  - rewrite (reclassify_issue _ _ _ H). eauto 10.
Qed.

Lemma handleCVE_written f old cve res md w :
  repo u (blobHash f) = Ok cve -> yields cve = Ok res ->
  reclassify E old
    (store.setCommitHash (Hash_String (commitHash u))
       (store.setCVEState (cveschema.State cve)
          (store.setBlobHash (Hash_String (blobHash f))
             (store.setPath (path_Join E (dirPath f) (filename f)) old))))
    res = ret md ->
  fails E (calls w) = false ->
  handleCVE E u f (Some old) w
  = (written md (called (EvSetCVERecord (store.ID md)) (classified cve w)),
     Ok false).
Proof.
  intros Hrepo Hy Hmd Hok.
  rewrite (handleCVE_existing _ _ _ _ _ Hrepo Hy).
  unfold wrap, bind. rewrite Hmd. unfold ret, SetCVERecord, bind.
  rewrite call_ok by now rewrite classified_calls. reflexivity.
Qed.

Lemma handleCVE_unknown_state f old cve res w :
  repo u (blobHash f) = Ok cve -> yields cve = Ok res ->
  ~ storedState (store.TriageState_ old) ->
  handleCVE E u f (Some old) w
  = (classified cve w,
     Err (ErrWrapped ("handleCVE(" +:+ filename f +:+ ")")
            (ErrUnknownTriageState (store.TriageState_ old)))).
Proof.
  intros Hrepo Hy Hts.
  rewrite (handleCVE_existing _ _ _ _ _ Hrepo Hy).
  unfold wrap, bind. now rewrite reclassify_unknown.
Qed.

(** *** Claim about re-triage in an update pass *)

(** C4. For every existing record and repository file processed by the
    transaction of a batch: when the file's blob hash equals the stored one
    the file is passed over (no call to [handleCVE], nothing changes);
    when it differs the record goes through [handleCVE], which, once the
    blob is read and the classification step has answered, does this: a
    stored triage state other than the four known ones yields an error and
    leaves the records as they were; otherwise the record is written back
    under its ID with path, blob hash, CVE state and commit hash refreshed,
    and a record in NoActionNeeded for which a module is found moves to
    NeedsIssue with that module, a record in NeedsIssue for which no module
    is found moves to NoActionNeeded with module and cached CVE cleared, and
    a record in IssueCreated or UpdatedSinceIssueCreation moves to
    UpdatedSinceIssueCreation with a reason that records the module found
    (the empty string when none is). *)
Theorem update_retriage :
  (forall idToRecord f rest numAdds numMods old,
      idToRecord !! idFromFilename (filename f) = Some old ->
      store.BlobHash old = Hash_String (blobHash f) ->
      batchFiles E u idToRecord (f :: rest) numAdds numMods
      = batchFiles E u idToRecord rest numAdds numMods)
  /\ (forall idToRecord f rest numAdds numMods old,
         idToRecord !! idFromFilename (filename f) = Some old ->
         store.BlobHash old <> Hash_String (blobHash f) ->
         batchFiles E u idToRecord (f :: rest) numAdds numMods
         = (let! added := handleCVE E u f (Some old) in
            if added : bool
            then batchFiles E u idToRecord rest (numAdds + 1) numMods
            else batchFiles E u idToRecord rest numAdds (numMods + 1)))
  /\ (forall f old cve res w,
         repo u (blobHash f) = Ok cve -> yields cve = Ok res ->
         let ts := store.TriageState_ old in
         let w' := fst (handleCVE E u f (Some old) w) in
         let r := snd (handleCVE E u f (Some old) w) in
         (~ storedState ts ->
          r = Err (ErrWrapped ("handleCVE(" +:+ filename f +:+ ")")
                              (ErrUnknownTriageState ts))
          /\ cveRecords w' = cveRecords w)
         /\ (storedState ts -> fails E (calls w) = false ->
             r = Ok false
             /\ exists md,
                 cveRecords w' = <[store.ID old := md]> (cveRecords w)
                 /\ store.ID md = store.ID old
                 /\ store.Path md = path_Join E (dirPath f) (filename f)
                 /\ store.BlobHash md = Hash_String (blobHash f)
                 /\ store.CVEState md = cveschema.State cve
                 /\ store.CommitHash md = Hash_String (commitHash u)
                 /\ (ts = store.TriageStateNoActionNeeded ->
                     forall tr, res = Some tr ->
                       store.TriageState_ md = store.TriageStateNeedsIssue
                       /\ store.Module_ md = modulePath tr)
                 /\ (ts = store.TriageStateNeedsIssue -> res = None ->
                     store.TriageState_ md
                     = store.TriageStateNoActionNeeded
                     /\ store.Module_ md = "" /\ store.CVE md = None)
                 /\ (ts = store.TriageStateIssueCreated
                     \/ ts = store.TriageStateUpdatedSinceIssueCreation ->
                     store.TriageState_ md
                     = store.TriageStateUpdatedSinceIssueCreation
                     /\ store.TriageStateReason md
                        = "CVE changed; affected module = "
                          +:+ strconv_Quote E
                                match res with
                                | Some tr => modulePath tr
                                | None => ""
                                end))).
Proof.
  split; [|split].
  - intros m f rest a b old Hold Hhash. cbn [batchFiles].
    rewrite Hold, Hhash.
    now rewrite (proj2 (GoStrings.eq_true _ _) eq_refl).
  - intros m f rest a b old Hold Hhash. cbn [batchFiles].
    rewrite Hold. apply GoStrings.eq_false in Hhash. now rewrite Hhash.
  - intros f old cve res w Hrepo Hy ts w' r. split.
    + intros Hts. subst w' r.
      rewrite (handleCVE_unknown_state _ _ _ _ _ Hrepo Hy Hts).
      split; [reflexivity | apply classified_records].
    + intros Hts Hok.
      destruct (reclassify_stored old
                  (store.setCommitHash (Hash_String (commitHash u))
                     (store.setCVEState (cveschema.State cve)
                        (store.setBlobHash (Hash_String (blobHash f))
                           (store.setPath
                              (path_Join E (dirPath f) (filename f)) old))))
                  res Hts)
        as (md & Hmd & HID & HPath & HBlob & HState & HCommit).
      cbn [store.ID store.Path store.BlobHash store.CVEState
           store.CommitHash store.setCommitHash store.setCVEState
           store.setBlobHash store.setPath]
        in HID, HPath, HBlob, HState, HCommit.
      subst w' r.
      rewrite (handleCVE_written _ _ _ _ _ _ Hrepo Hy Hmd Hok).
      split; [reflexivity|]. exists md. cbn [fst written called cveRecords].
      rewrite classified_records, HID.
      refine (conj eq_refl (conj eq_refl (conj HPath (conj HBlob
                (conj HState (conj HCommit (conj _ (conj _ _)))))))).
      * intros Hn tr ->. fold ts in Hn.
        rewrite (reclassify_NoActionNeeded _ _ _ Hn) in Hmd.
        apply (ret_inj _ _ w) in Hmd as <-. split; reflexivity.
      * intros Hn ->. fold ts in Hn.
        rewrite (reclassify_NeedsIssue _ _ _ Hn) in Hmd.
        apply (ret_inj _ _ w) in Hmd as <-. repeat split; reflexivity.
      * intros Hn. fold ts in Hn.
        rewrite (reclassify_issue _ _ _ Hn) in Hmd.
        apply (ret_inj _ _ w) in Hmd as <-. split; reflexivity.
Qed.

(** *** Processing the batches leaves the directory hashes alone *)

Definition keepsDirs {A} (m : M A) : Prop :=
  forall w, dirHashes (fst (m w)) = dirHashes w.

Lemma keepsDirs_ret {A} (a : A) : keepsDirs (ret a).
Proof. intros w. reflexivity. Qed.

Lemma keepsDirs_raise {A} e : keepsDirs (@raise A e).
Proof. intros w. reflexivity. Qed.

Lemma keepsDirs_lift {A} (r : result A) : keepsDirs (lift r).
Proof. intros w. reflexivity. Qed.

Lemma keepsDirs_bind {A B} (m : M A) (k : A -> M B) :
  keepsDirs m -> (forall a, keepsDirs (k a)) -> keepsDirs (bind m k).
Proof.
  intros Hm Hk w. unfold bind. specialize (Hm w).
  destruct (m w) as [w1 [a|e]]; cbn [fst] in *; [|exact Hm].
  now rewrite Hk.
Qed.

Lemma keepsDirs_wrap {A} ctx (m : M A) : keepsDirs m -> keepsDirs (wrap ctx m).
Proof.
  intros Hm w. unfold wrap. specialize (Hm w).
  now destruct (m w) as [w1 [a|e]].
Qed.

Lemma keepsDirs_call ev : keepsDirs (call E ev).
Proof. intros w. unfold call. now destruct (fails E (calls w)). Qed.

Lemma keepsDirs_writeRecord r : keepsDirs (writeRecord r).
Proof. intros w. reflexivity. Qed.

Lemma keepsDirs_SetCVERecord r : keepsDirs (SetCVERecord E r).
Proof.
  apply keepsDirs_bind; [apply keepsDirs_call|].
  intros _. apply keepsDirs_writeRecord.
Qed.

Lemma keepsDirs_CreateCVERecord r : keepsDirs (CreateCVERecord E r).
Proof.
  apply keepsDirs_bind; [apply keepsDirs_call|].
  intros _. apply keepsDirs_writeRecord.
Qed.

Lemma keepsDirs_GetCVERecords a b : keepsDirs (GetCVERecords E a b).
Proof.
  apply keepsDirs_bind; [apply keepsDirs_call|]. intros _ w. reflexivity.
Qed.

Lemma keepsDirs_RunTransaction {A} (body : M A) :
  keepsDirs body -> keepsDirs (RunTransaction E body).
Proof.
  intros Hb. apply keepsDirs_bind; [apply keepsDirs_call|].
  intros _ w. specialize (Hb w). now destruct (body w) as [w1 [a|e]].
Qed.

Lemma keepsDirs_triage cve : keepsDirs (triage u cve).
Proof. intros w. reflexivity. Qed.

Lemma keepsDirs_reclassify old md res : keepsDirs (reclassify E old md res).
Proof.
  unfold reclassify.
  repeat match goal with
         | |- keepsDirs (if ?c then _ else _) => destruct c
         | |- keepsDirs (match ?r with Some _ => _ | None => _ end) =>
             destruct r
         end;
    first [apply keepsDirs_ret | apply keepsDirs_raise].
Qed.

Lemma keepsDirs_handleCVE f old : keepsDirs (handleCVE E u f old).
Proof.
  unfold handleCVE. apply keepsDirs_wrap.
  apply keepsDirs_bind; [apply keepsDirs_lift|]. intros cve.
  apply keepsDirs_bind.
  { destruct (_ && _); [apply keepsDirs_triage | apply keepsDirs_ret]. }
  intros res. destruct old as [old|].
  - apply keepsDirs_bind; [apply keepsDirs_reclassify|]. intros md.
    apply keepsDirs_bind; [apply keepsDirs_SetCVERecord|].
    intros _. apply keepsDirs_ret.
  - apply keepsDirs_bind; [apply keepsDirs_CreateCVERecord|].
    intros _. apply keepsDirs_ret.
Qed.

Lemma keepsDirs_batchFiles m batch a b : keepsDirs (batchFiles E u m batch a b).
Proof.
  revert a b. induction batch as [|f rest IH]; intros a b;
    cbn [batchFiles]; [apply keepsDirs_ret|].
  destruct (match m !! idFromFilename (filename f) with
            | Some o => _ | None => false end); [apply IH|].
  apply keepsDirs_bind; [apply keepsDirs_handleCVE|].
  intros [|]; apply IH.
Qed.

Lemma keepsDirs_updateBatch batch : keepsDirs (updateBatch E u batch).
Proof.
  unfold updateBatch. destruct batch as [|f0 rest]; [apply keepsDirs_raise|].
  destruct (last (f0 :: rest)); [|apply keepsDirs_raise].
  apply keepsDirs_wrap, keepsDirs_RunTransaction.
  apply keepsDirs_bind; [apply keepsDirs_GetCVERecords|].
  intros crs. apply keepsDirs_batchFiles.
Qed.

Lemma keepsDirs_batchLoop k dirFiles i stats :
  keepsDirs (batchLoop E k u dirFiles i stats).
Proof.
  revert i stats. induction k as [|k IH]; intros i stats;
    cbn [batchLoop]; [apply keepsDirs_ret|].
  destruct (i <? length dirFiles)%nat; [|apply keepsDirs_ret].
  apply keepsDirs_bind; [apply keepsDirs_updateBatch|].
  intros counts. apply IH.
Qed.

(** A hash in hexadecimal is never the sentinel. *)
Lemma Hash_String_not_in_progress (h : Hash) : Hash_String h <> "in progress".
Proof.
  destruct h as [|b rest]; [discriminate|].
  cbn [Hash_String]. intros H. injection H as H _. revert H.
  destruct b; vm_compute; discriminate.
Qed.

(** The number of transactions started so far. *)
Definition transactions (w : World) : nat :=
  length (List.filter
            (fun ev => match ev with EvRunTransaction => true | _ => false end)
            (trace w)).

(** *** Files whose CVE ID is already in the vulnerability database *)

(** The number of calls made to the classifier so far. *)
Definition triageCalls (w : World) : nat :=
  length (List.filter
            (fun ev => match ev with EvTriage _ => true | _ => false end)
            (trace w)).

Lemma known_yields cve :
  known u (cveschema.ID cve) = true -> yields cve = Ok None.
Proof. intros H. unfold yields. rewrite H. now rewrite andb_false_r. Qed.

Lemma known_classified cve w :
  known u (cveschema.ID cve) = true -> classified cve w = w.
Proof. intros H. unfold classified. rewrite H. now rewrite andb_false_r. Qed.

(** The record that [handleCVE] creates for a known ID. *)
Definition knownRecord (f : repoFile) (cve : cveschema.CVE) : store.CVERecord :=
  store.setTriageStateReason "already in vuln DB"
    (store.setTriageState store.TriageStateNoActionNeeded
       (store.setCommitHash (Hash_String (commitHash u))
          (store.NewCVERecord cve (path_Join E (dirPath f) (filename f))
             (Hash_String (blobHash f))))).

Lemma handleCVE_known_new f cve w :
  repo u (blobHash f) = Ok cve -> known u (cveschema.ID cve) = true ->
  handleCVE E u f None w
  = wrap ("handleCVE(" +:+ filename f +:+ ")")
      (do! CreateCVERecord E (knownRecord f cve) in ret true) w.
Proof.
  intros Hrepo Hk. unfold handleCVE, wrap, bind at 1 2, lift, knownRecord.
  rewrite Hrepo, Hk, andb_false_r. reflexivity.
Qed.

Lemma reclassify_world old md res w : fst (reclassify E old md res w) = w.
Proof.
  unfold reclassify.
  repeat match goal with
         | |- fst ((if ?c then _ else _) _) = _ => destruct c
         | |- fst ((match ?r with Some _ => _ | None => _ end) _) = _ =>
             destruct r
         end; reflexivity.
Qed.

Lemma handleCVE_known_triageCalls f old cve w :
  repo u (blobHash f) = Ok cve -> known u (cveschema.ID cve) = true ->
  triageCalls (fst (handleCVE E u f old w)) = triageCalls w.
Proof.
  intros Hrepo Hk. destruct old as [old|].
  - rewrite (handleCVE_existing _ _ _ _ _ Hrepo (known_yields _ Hk)).
    rewrite (known_classified _ _ Hk). unfold wrap, bind.
    pose proof (reclassify_world old
      (store.setCommitHash (Hash_String (commitHash u))
         (store.setCVEState (cveschema.State cve)
            (store.setBlobHash (Hash_String (blobHash f))
               (store.setPath (path_Join E (dirPath f) (filename f)) old))))
      None w) as Hw.
    destruct (reclassify _ _ _ _ _) as [w1 [md|e]]; cbn [fst] in Hw; subst w1;
      [|reflexivity].
    unfold SetCVERecord, bind, call.
    destruct (fails E (calls w)); reflexivity.
  - rewrite (handleCVE_known_new _ _ _ Hrepo Hk).
    unfold wrap, bind, CreateCVERecord, bind, call.
    destruct (fails E (calls w)); reflexivity.
Qed.

(** C6, as the code has it.  For a file whose parsed CVE ID is in the set
    of known IDs the classifier is not called.  When the CVE has no record
    yet, the record created has triage state NoActionNeeded and triage
    reason "already in vuln DB".  When a record exists (and the file's blob
    changed, so that it is handled), the reason "already in vuln DB" is not
    written: a record in NoActionNeeded or NeedsIssue ends in NoActionNeeded
    with the reason it had, and a record in IssueCreated or
    UpdatedSinceIssueCreation ends in UpdatedSinceIssueCreation with the
    reason "CVE changed; affected module = " followed by the quoted empty
    string. *)
Theorem known_id_handling (f : repoFile) (cve : cveschema.CVE) (w : World) :
  repo u (blobHash f) = Ok cve ->
  known u (cveschema.ID cve) = true ->
  (forall old, triageCalls (fst (handleCVE E u f old w)) = triageCalls w)
  /\ (fails E (calls w) = false ->
      (exists cr,
          handleCVE E u f None w
          = (written cr (called (EvCreateCVERecord (cveschema.ID cve)) w),
             Ok true)
          /\ store.ID cr = cveschema.ID cve
          /\ store.TriageState_ cr = store.TriageStateNoActionNeeded
          /\ store.TriageStateReason cr = "already in vuln DB")
      /\ (forall old, storedState (store.TriageState_ old) ->
          exists md,
            handleCVE E u f (Some old) w
            = (written md (called (EvSetCVERecord (store.ID old)) w),
               Ok false)
            /\ store.ID md = store.ID old
            /\ (store.TriageState_ old = store.TriageStateNoActionNeeded
                \/ store.TriageState_ old = store.TriageStateNeedsIssue ->
                store.TriageState_ md = store.TriageStateNoActionNeeded
                /\ store.TriageStateReason md = store.TriageStateReason old)
            /\ (store.TriageState_ old = store.TriageStateIssueCreated
                \/ store.TriageState_ old
                   = store.TriageStateUpdatedSinceIssueCreation ->
                store.TriageState_ md
                = store.TriageStateUpdatedSinceIssueCreation
                /\ store.TriageStateReason md
                   = "CVE changed; affected module = "
                     +:+ strconv_Quote E ""))).
Proof.
  intros Hrepo Hk. split.
  { intros old. now apply handleCVE_known_triageCalls with cve. }
  intros Hok. split.
  - exists (knownRecord f cve).
    rewrite (handleCVE_known_new _ _ _ Hrepo Hk).
    unfold wrap, bind, CreateCVERecord, bind.
    rewrite (call_ok _ _ Hok). repeat split; reflexivity.
  - intros old Hts.
    pose proof (known_yields _ Hk) as Hy.
    set (md0 := store.setCommitHash (Hash_String (commitHash u))
                  (store.setCVEState (cveschema.State cve)
                     (store.setBlobHash (Hash_String (blobHash f))
                        (store.setPath
                           (path_Join E (dirPath f) (filename f)) old)))).
    assert (exists md, reclassify E old md0 None = ret md
              /\ store.ID md = store.ID old
              /\ (store.TriageState_ old = store.TriageStateNoActionNeeded
                  \/ store.TriageState_ old = store.TriageStateNeedsIssue ->
                  store.TriageState_ md = store.TriageStateNoActionNeeded
                  /\ store.TriageStateReason md
                     = store.TriageStateReason old)
              /\ (store.TriageState_ old = store.TriageStateIssueCreated
                  \/ store.TriageState_ old
                     = store.TriageStateUpdatedSinceIssueCreation ->
                  store.TriageState_ md
                  = store.TriageStateUpdatedSinceIssueCreation
                  /\ store.TriageStateReason md
                     = "CVE changed; affected module = "
                       +:+ strconv_Quote E ""))
      as (md & Hmd & HID & Hquiet & Hissue).
    { destruct Hts as [H|[H|H]].
      - rewrite (reclassify_NoActionNeeded _ _ _ H).
        exists md0. repeat split; try reflexivity.
        + exact H.
        + destruct H0 as [H0|H0]; rewrite H in H0; discriminate.
        + destruct H0 as [H0|H0]; rewrite H in H0; discriminate.
      - rewrite (reclassify_NeedsIssue _ _ _ H).
        eexists. repeat split; try reflexivity.
        + destruct H0 as [H0|H0]; rewrite H in H0; discriminate.
        + destruct H0 as [H0|H0]; rewrite H in H0; discriminate.
      - rewrite (reclassify_issue _ _ _ H).
        eexists. repeat split; try reflexivity.
        + destruct H as [H|H], H0 as [H0|H0]; rewrite H in H0; discriminate.
        + destruct H as [H|H], H0 as [H0|H0]; rewrite H in H0; discriminate.
    }
    exists md.
    rewrite (handleCVE_written _ _ _ _ _ _ Hrepo Hy Hmd Hok).
    rewrite (known_classified _ _ Hk), HID. auto.
Qed.

(** *** The directory hash and its sentinel *)

Definition noStats : updateStats :=
  {| numProcessed := 0; numAdded := 0; numModified := 0 |}.

(** The world after the hash [h] has been stored for [path]. *)
Definition hashed (path h : string) (w : World) : World :=
  {| dirHashes := <[path := h]> (dirHashes w); cveRecords := cveRecords w;
     issues := issues w; calls := calls w; trace := trace w |}.

Lemma GetDirectoryHash_ok path w :
  fails E (calls w) = false ->
  GetDirectoryHash E path w
  = (called (EvGetDirectoryHash path) w,
     Ok (default "" (dirHashes w !! path))).
Proof.
  intros H. unfold GetDirectoryHash, bind. now rewrite (call_ok _ _ H).
Qed.

Lemma SetDirectoryHash_ok path h w :
  fails E (calls w) = false ->
  SetDirectoryHash E path h w
  = (hashed path h (called (EvSetDirectoryHash path h) w), Ok tt).
Proof.
  intros H. unfold SetDirectoryHash, bind. now rewrite (call_ok _ _ H).
Qed.

Lemma SetDirectoryHash_failed path h w :
  fails E (calls w) = true ->
  SetDirectoryHash E path h w
  = (called (EvSetDirectoryHash path h) w, Err (ErrIO (calls w))).
Proof.
  intros H. unfold SetDirectoryHash, bind. now rewrite (call_failed _ _ H).
Qed.

(** C5. For a directory group whose first file is [f0]: when the stored
    hash of the directory can be read and equals the tree hash of the group,
    [updateDirectory] returns empty statistics right after the read, and
    starts no transaction; a stored sentinel "in progress" never equals a
    tree hash, so such a directory is processed again; and when the stored
    hash differs from the tree hash and the sentinel can be written, the
    sentinel is stored first, the batches leave it in place, a batch that
    fails ends the call with the sentinel still stored, and the tree hash is
    stored only after the last batch has succeeded: at the end the stored
    hash is the tree hash when the call succeeds and the sentinel when it
    fails. *)
Theorem updateDirectory_hash_protocol
        (f0 : repoFile) (rest : list repoFile) (w : World) :
  let dirFiles := f0 :: rest in
  let path := dirPath f0 in
  let h := Hash_String (treeHash f0) in
  let stored := default "" (dirHashes w !! path) in
  fails E (calls w) = false ->
  (stored = h ->
   updateDirectory E u dirFiles w
   = (called (EvGetDirectoryHash path) w, Ok noStats)
   /\ transactions (fst (updateDirectory E u dirFiles w)) = transactions w)
  /\ (stored = "in progress" -> stored <> h)
  /\ (stored <> h -> fails E (S (calls w)) = false ->
      let marked :=
        hashed path "in progress"
          (called (EvSetDirectoryHash path "in progress")
             (called (EvGetDirectoryHash path) w)) in
      let batches := batchLoop E (length dirFiles) u dirFiles 0 noStats in
      let w2 := fst (batches marked) in
      let final := updateDirectory E u dirFiles w in
      dirHashes w2 = <[path := "in progress"]> (dirHashes w)
      /\ (forall e, snd (batches marked) = Err e -> final = (w2, Err e))
      /\ (forall stats, snd (batches marked) = Ok stats ->
          fails E (calls w2) = false ->
          final
          = (hashed path h (called (EvSetDirectoryHash path h) w2), Ok stats))
      /\ match snd final with
         | Ok _ => dirHashes (fst final) !! path = Some h
         | Err _ => dirHashes (fst final) !! path = Some "in progress"
         end).
Proof.
  intros dirFiles path h stored Hget.
  assert (Hstart : forall k : string -> M updateStats,
             (let! dbHash := GetDirectoryHash E path in k dbHash) w
             = k stored (called (EvGetDirectoryHash path) w)).
  { intros k. unfold bind at 1. now rewrite (GetDirectoryHash_ok _ _ Hget). }
  split; [|split].
  - intros Heq. unfold updateDirectory, dirFiles.
    fold path. fold h. rewrite Hstart.
    rewrite <- Heq, (proj2 (GoStrings.eq_true _ _) eq_refl).
    split; reflexivity.
  - intros -> Heq. now apply (Hash_String_not_in_progress (treeHash f0)).
  - intros Hne Hset marked batches w2 final.
    assert (Hd2 : dirHashes w2 = <[path := "in progress"]> (dirHashes w)).
    { unfold w2, batches. now rewrite keepsDirs_batchLoop. }
    assert (Hrun : final
              = match batches marked with
                | (w', Ok stats) =>
                    (do! SetDirectoryHash E path h in ret stats) w'
                | (w', Err e) => (w', Err e)
                end).
    { unfold final, updateDirectory, dirFiles. fold path. fold h.
      rewrite Hstart.
      assert (Hn : GoStrings.eq h stored = false)
        by (apply GoStrings.eq_false; congruence).
      rewrite Hn. unfold bind at 1.
      rewrite SetDirectoryHash_ok by exact Hset.
      unfold bind at 1. reflexivity. }
    unfold w2 in *. clearbody final. subst final.
    destruct (batches marked) as [w' [stats|e]]; cbn [fst snd] in *.
    + refine (conj Hd2 (conj _ (conj _ _))).
      * intros e He. discriminate.
      * intros stats' [= <-] Hok. unfold bind.
        now rewrite (SetDirectoryHash_ok _ _ _ Hok).
      * unfold bind. destruct (fails E (calls w')) eqn:Hf.
        -- rewrite (SetDirectoryHash_failed _ _ _ Hf). cbn.
           rewrite Hd2. apply lookup_insert_eq.
        -- rewrite (SetDirectoryHash_ok _ _ _ Hf). cbn.
           apply lookup_insert_eq.
    + refine (conj Hd2 (conj _ (conj _ _))).
      * now intros e' [= <-].
      * intros stats' He. discriminate.
      * rewrite Hd2. apply lookup_insert_eq.
Qed.

End UpdaterFacts.

(** *** Reasoning about issue creation *)

Section IssueFacts.

Variable E : Env.
Variable ic : IssueClient.

(** A record with its issue fields set. *)
Definition issued (r : store.CVERecord) : Prop :=
  store.IssueReference r <> "" /\ store.IssueCreatedAt r <> 0%Z.

(** Every record in state IssueCreated has its issue fields set. *)
Definition issuesRecorded (w : World) : Prop :=
  forall id r,
    cveRecords w !! id = Some r ->
    store.TriageState_ r = store.TriageStateIssueCreated -> issued r.

(** Every record is stored under its ID. *)
Definition wellKeyed (w : World) : Prop :=
  forall id r, cveRecords w !! id = Some r -> store.ID r = id.

Definition preserves {A} (m : M A) : Prop :=
  forall w, issuesRecorded w -> issuesRecorded (fst (m w)).

(** The world after an issue has been filed in the tracker. *)
Definition filed (iss : Issue) (w : World) : World :=
  {| dirHashes := dirHashes w; cveRecords := cveRecords w;
     issues := issues w ++ [iss]; calls := calls w; trace := trace w |}.

Lemma preserves_ret {A} (a : A) : preserves (ret a).
Proof. intros w H. exact H. Qed.

Lemma preserves_raise {A} e : preserves (@raise A e).
Proof. intros w H. exact H. Qed.

Lemma preserves_lift {A} (r : result A) : preserves (lift r).
Proof. intros w H. exact H. Qed.

Lemma preserves_bind {A B} (m : M A) (k : A -> M B) :
  preserves m -> (forall a, preserves (k a)) -> preserves (bind m k).
Proof.
  intros Hm Hk w Hw. unfold bind. specialize (Hm w Hw).
  destruct (m w) as [w1 [a|e]]; cbn [fst] in *; [|exact Hm].
  now apply Hk.
Qed.

Lemma preserves_call ev : preserves (call E ev).
Proof. intros w H. unfold call. now destruct (fails E (calls w)). Qed.

Lemma preserves_GetCVERecords a b : preserves (GetCVERecords E a b).
Proof.
  apply preserves_bind; [apply preserves_call|]. intros _ w H. exact H.
Qed.

Lemma preserves_ListCVERecordsWithTriageState ts :
  preserves (ListCVERecordsWithTriageState E ts).
Proof.
  apply preserves_bind; [apply preserves_call|]. intros _ w H. exact H.
Qed.

Lemma preserves_Now : preserves (Now E).
Proof. intros w H. exact H. Qed.

Lemma preserves_CreateIssue iss : preserves (CreateIssue E iss).
Proof.
  apply preserves_bind; [apply preserves_call|]. intros _ w H. exact H.
Qed.

Lemma preserves_SetCVERecord r :
  issued r -> preserves (SetCVERecord E r).
Proof.
  intros Hr. apply preserves_bind; [apply preserves_call|].
  intros _ w Hw id r' Hlook Hts. cbn in Hlook.
  destruct (decide (store.ID r = id)) as [<-|Hne].
  - rewrite lookup_insert_eq in Hlook. now injection Hlook as <-.
  - rewrite lookup_insert_ne in Hlook by exact Hne. now apply (Hw id).
Qed.

Lemma preserves_RunTransaction {A} (body : M A) :
  preserves body -> preserves (RunTransaction E body).
Proof.
  intros Hb. apply preserves_bind; [apply preserves_call|].
  intros _ w Hw. specialize (Hb w Hw).
  destruct (body w) as [w1 [a|e]]; [exact Hb | exact Hw].
Qed.

Lemma preserves_recordIssue id ref :
  ref <> "" -> (forall k, timeAt E k <> 0%Z) ->
  preserves (recordIssue E id ref).
Proof.
  intros Href Hclock. apply preserves_RunTransaction.
  apply preserves_bind; [apply preserves_GetCVERecords|].
  intros [|r rs]; [apply preserves_raise|].
  intros w Hw. unfold bind at 1, Now.
  apply preserves_SetCVERecord; [|exact Hw].
  split; [exact Href | apply Hclock].
Qed.

Lemma preserves_createIssuesLoop limit needsIssue numCreated :
  (forall num, Reference ic num <> "") ->
  (forall k, timeAt E k <> 0%Z) ->
  preserves (createIssuesLoop E ic limit needsIssue numCreated).
Proof.
  intros Href Hclock. revert numCreated.
  induction needsIssue as [|r rest IH]; intros n; cbn [createIssuesLoop];
    [apply preserves_ret|].
  destruct (_ && _); [apply preserves_ret|].
  destruct (_ || _); [apply IH|].
  apply preserves_bind; [apply preserves_lift|]. intros body.
  apply preserves_bind.
  { intros w Hw. pose proof (preserves_CreateIssue
      {| Title :=
           "x/vulndb: potential Go vulnerability found from CVE List: "
           +:+ store.ID r;
         Body := body; Labels := ["Needs Triage"] |} w Hw) as H.
    now destruct (CreateIssue _ _ _) as [w1 [num|e]]. }
  intros num. apply preserves_bind; [|intros _; apply IH].
  now apply preserves_recordIssue.
Qed.

(** *** One round of the loop *)

Lemma le_refl s : GoStrings.le s s = true.
Proof.
  unfold GoStrings.le. pose proof (String.compare_antisym s s) as H.
  now destruct (String.compare s s).
Qed.

Lemma le_antisym s t :
  GoStrings.le s t && GoStrings.le t s = true -> s = t.
Proof.
  unfold GoStrings.le. rewrite (String.compare_antisym t s).
  destruct (String.compare s t) eqn:Hc; cbn; try discriminate.
  intros _. now apply String.compare_eq_iff.
Qed.

(** In a store keyed by ID, reading the range from an ID to itself yields
    the record stored under that ID first. *)
Lemma GetCVERecords_one id r0 w :
  wellKeyed w -> cveRecords w !! id = Some r0 ->
  fails E (calls w) = false ->
  exists others,
    GetCVERecords E id id w
    = (called (EvGetCVERecords id id) w, Ok (r0 :: others)).
Proof.
  intros Hkeys Hlook Hok. unfold GetCVERecords, bind.
  rewrite (call_ok _ _ _ Hok).
  cbn [called cveRecords].
  set (l := List.filter _ _).
  assert (Hin : In r0 l).
  { apply filter_In. split.
    - apply list_elem_of_In, list_elem_of_fmap. exists (id, r0).
      split; [reflexivity|]. now apply elem_of_map_to_list.
    - rewrite (Hkeys _ _ Hlook). now rewrite le_refl. }
  assert (Hall : forall r, In r l -> r = r0).
  { intros r Hr. apply filter_In in Hr as [Hr Hle].
    apply list_elem_of_In, list_elem_of_fmap in Hr as ([k r'] & -> & Hr).
    apply elem_of_map_to_list in Hr. cbn [snd] in *.
    pose proof (Hkeys _ _ Hr) as Hk. rewrite Hk in Hle.
    assert (k = id) as -> by (symmetry; now apply le_antisym).
    congruence. }
  destruct l as [|r1 others]; [destruct Hin|].
  exists others. now rewrite (Hall r1 (or_introl eq_refl)).
Qed.


(** The issue that [CreateIssues] files for a record. *)
Definition issueFor (r : store.CVERecord) (body : string) : Issue :=
  {| Title :=
       "x/vulndb: potential Go vulnerability found from CVE List: "
       +:+ store.ID r;
     Body := body;
     Labels := ["Needs Triage"] |}.

(** The limit on the number of issues has been reached. *)
Definition limitReached (limit numCreated : Z) : Prop :=
  (0 < limit)%Z /\ (limit <= numCreated)%Z.

Lemma limitReached_true limit n :
  limitReached limit n -> (0 <? limit)%Z && (limit <=? n)%Z = true.
Proof. intros [H1 H2]. apply andb_true_intro. split; lia. Qed.

Lemma limitReached_false limit n :
  ~ limitReached limit n -> (0 <? limit)%Z && (limit <=? n)%Z = false.
Proof.
  intros H. unfold limitReached in H. apply andb_false_iff. lia.
Qed.

Lemma createIssuesLoop_skip limit r rest n :
  ~ limitReached limit n ->
  store.IssueReference r <> "" \/ store.IssueCreatedAt r <> 0%Z ->
  createIssuesLoop E ic limit (r :: rest) n
  = createIssuesLoop E ic limit rest n.
Proof.
  intros Hlim Hr. cbn [createIssuesLoop].
  rewrite (limitReached_false _ _ Hlim).
  replace (negb (GoStrings.eq (store.IssueReference r) "")
           || negb (IsZero (store.IssueCreatedAt r))) with true;
    [reflexivity|].
  symmetry. apply orb_true_iff. unfold IsZero.
  destruct Hr as [Hr|Hr]; [left | right]; apply negb_true_iff.
  - now apply GoStrings.eq_false.
  - lia.
Qed.

(** The record written for [r0] once issue number [num] has been filed, at
    the time of the clock after [k] calls. *)
Definition issueRecorded (r0 : store.CVERecord) (num : Z) (k : nat)
  : store.CVERecord :=
  store.setIssueCreatedAt (timeAt E k)
    (store.setIssueReference (Reference ic num)
       (store.setTriageState store.TriageStateIssueCreated r0)).

Lemma createIssuesLoop_file limit r rest n body r0 w :
  ~ limitReached limit n ->
  store.IssueReference r = "" -> store.IssueCreatedAt r = 0%Z ->
  newBody E r = Ok body ->
  wellKeyed w -> cveRecords w !! store.ID r = Some r0 ->
  (forall k, (k < 4)%nat -> fails E (k + calls w) = false) ->
  createIssuesLoop E ic limit (r :: rest) n w
  = createIssuesLoop E ic limit rest (n + 1)
      (written
         (issueRecorded r0 (Z.of_nat (S (length (issues w)))) (3 + calls w))
         (called (EvSetCVERecord (store.ID r))
            (called (EvGetCVERecords (store.ID r) (store.ID r))
               (called EvRunTransaction
                  (filed (issueFor r body)
                     (called (EvCreateIssue (Title (issueFor r body)))
                             w)))))).
Proof.
  intros Hlim Href Hat Hbody Hkeys Hlook Hok. cbn [createIssuesLoop].
  rewrite (limitReached_false _ _ Hlim), Href, Hat.
  change (negb (GoStrings.eq "" "") || negb (IsZero 0)) with false.
  cbv iota. unfold bind at 1, lift. rewrite Hbody.
  fold (issueFor r body).
  unfold bind at 1, CreateIssue, bind at 1.
  rewrite (call_ok _ _ _ (Hok 0%nat ltac:(lia))).
  fold (filed (issueFor r body)
          (called (EvCreateIssue (Title (issueFor r body))) w)).
  set (w1 := filed _ _).
  unfold bind at 1, recordIssue, RunTransaction, bind at 1.
  assert (H1 : fails E (calls w1) = false) by apply (Hok 1%nat ltac:(lia)).
  rewrite (call_ok _ _ _ H1).
  set (w2 := called EvRunTransaction w1).
  assert (Hkeys2 : wellKeyed w2) by exact Hkeys.
  assert (Hlook2 : cveRecords w2 !! store.ID r = Some r0) by exact Hlook.
  assert (H2 : fails E (calls w2) = false) by apply (Hok 2%nat ltac:(lia)).
  destruct (GetCVERecords_one _ _ _ Hkeys2 Hlook2 H2) as [others Hget].
  unfold bind at 1. rewrite Hget.
  unfold bind at 1, Now. cbn [fst snd].
  set (w3 := called (EvGetCVERecords (store.ID r) (store.ID r)) w2).
  change (calls w3) with (3 + calls w)%nat.
  change (length (issues (called (EvCreateIssue (Title (issueFor r body))) w)))
    with (length (issues w)).
  fold (issueRecorded r0 (Z.of_nat (S (length (issues w)))) (3 + calls w)).
  set (r1 := issueRecorded _ _ _).
  unfold SetCVERecord, bind at 1.
  assert (H3 : fails E (calls w3) = false) by apply (Hok 3%nat ltac:(lia)).
  rewrite (call_ok _ _ _ H3).
  assert (Hid : store.ID r1 = store.ID r) by exact (Hkeys _ _ Hlook).
  unfold writeRecord. fold (written r1 (called (EvSetCVERecord (store.ID r1)) w3)).
  now rewrite Hid.
Qed.

(** C7. When the issue client never returns an empty reference and the
    clock never shows the zero time, [CreateIssues] keeps the invariant
    that every record in state IssueCreated has a non-empty issue reference
    and a non-zero creation time.  In its sweep over the NeedsIssue records,
    the loop stops once the limit (when positive) is reached; a record with
    a non-empty issue reference or a non-zero creation time is passed over
    and no issue is filed for it; for any other record the issue is filed
    and then, in one transaction, the record is read again from the store
    and written back in state IssueCreated with the reference of the new
    issue and the current time. *)
Theorem CreateIssues_invariant (limit : Z) :
  (forall num, Reference ic num <> "") ->
  (forall k, timeAt E k <> 0%Z) ->
  (forall w, issuesRecorded w ->
             issuesRecorded (fst (CreateIssues E ic limit w)))
  /\ (forall r rest n,
         limitReached limit n ->
         createIssuesLoop E ic limit (r :: rest) n = ret tt)
  /\ (forall r rest n,
         ~ limitReached limit n ->
         store.IssueReference r <> "" \/ store.IssueCreatedAt r <> 0%Z ->
         createIssuesLoop E ic limit (r :: rest) n
         = createIssuesLoop E ic limit rest n)
  /\ (forall r rest n body r0 w,
         ~ limitReached limit n ->
         store.IssueReference r = "" -> store.IssueCreatedAt r = 0%Z ->
         newBody E r = Ok body ->
         wellKeyed w -> cveRecords w !! store.ID r = Some r0 ->
         (forall k, (k < 4)%nat -> fails E (k + calls w) = false) ->
         let r1 :=
           issueRecorded r0 (Z.of_nat (S (length (issues w))))
                         (3 + calls w) in
         createIssuesLoop E ic limit (r :: rest) n w
         = createIssuesLoop E ic limit rest (n + 1)
             (written r1
                (called (EvSetCVERecord (store.ID r))
                   (called (EvGetCVERecords (store.ID r) (store.ID r))
                      (called EvRunTransaction
                         (filed (issueFor r body)
                            (called (EvCreateIssue (Title (issueFor r body)))
                                    w))))))
         /\ store.TriageState_ r1 = store.TriageStateIssueCreated
         /\ issued r1).
Proof.
  intros Href Hclock. split; [|split; [|split]].
  - intros w Hw. unfold CreateIssues.
    apply preserves_bind; [apply preserves_ListCVERecordsWithTriageState | |
                           exact Hw].
    intros needsIssue. now apply preserves_createIssuesLoop.
  - intros r rest n Hlim. cbn [createIssuesLoop].
    now rewrite (limitReached_true _ _ Hlim).
  - intros r rest n. apply createIssuesLoop_skip.
  - intros r rest n body r0 w Hlim Hr Hat Hbody Hkeys Hlook Hok r1.
    split; [now apply createIssuesLoop_file|].
    split; [reflexivity|]. split; [apply Href | apply Hclock].
Qed.

End IssueFacts.

(** *** A sample run *)

(** A double quote. *)
Definition quote : string := String (ascii_of_nat 34) "".

(** An environment in which no call fails and the clock shows the number of
    calls made plus one. *)
Definition sampleEnv : Env :=
  {| path_Join := fun dir name => dir +:+ "/" +:+ name;
     strconv_Quote := fun s => quote +:+ s +:+ quote;
     CVEListRepoURL := "https://github.com/CVEProject/cvelist";
     fails := fun _ => false;
     timeAt := fun k => Z.of_nat (S k) |}.

Definition sampleID : string := "CVE-2021-0001".

Definition sampleCVE : cveschema.CVE :=
  {| cveschema.ID := sampleID; cveschema.State := cveschema.StatePublic;
     cveschema.DataVersion := "4.0";
     cveschema.Description := [("eng", "a sample description")];
     cveschema.References := ["https://golang.org/x/mod"] |}.

Definition sampleFile : repoFile :=
  {| dirPath := "2021/0xxx"; filename := "CVE-2021-0001.json";
     treeHash := [Byte.x01; Byte.x23]; blobHash := [Byte.xab; Byte.xcd];
     year := 2021; number := 1 |}.

Definition sampleModule : triageResult :=
  {| modulePath := "golang.org/x/mod"; stdlib := false |}.

(** An updater whose classifier finds a module, and one that also knows the
    sample ID. *)
Definition sampleUpdater : updater :=
  {| repo := fun _ => Ok sampleCVE; commitHash := [Byte.xef];
     knownIDs := ∅;
     affectedModule := fun _ => Ok (Some sampleModule) |}.

Definition knownUpdater : updater :=
  {| repo := fun _ => Ok sampleCVE; commitHash := [Byte.xef];
     knownIDs := {[ sampleID := true ]};
     affectedModule := fun _ => Ok (Some sampleModule) |}.

(** The record of the sample CVE from an earlier commit, in a given triage
    state. *)
Definition sampleRecord (ts : store.TriageState) : store.CVERecord :=
  {| store.ID := sampleID; store.Path := "2021/0xxx/CVE-2021-0001.json";
     store.BlobHash := "0000"; store.CommitHash := "aa";
     store.CVEState := "RESERVED"; store.TriageState_ := ts;
     store.TriageStateReason := ""; store.Module_ := "";
     store.CVE := None; store.IssueReference := "";
     store.IssueCreatedAt := 0 |}.

(** A world with the given directory hashes and the given record of the
    sample CVE. *)
Definition sampleWorld (hashes : gmap string string) (r : store.CVERecord)
  : World :=
  {| dirHashes := hashes; cveRecords := {[ sampleID := r ]}; issues := [];
     calls := 0; trace := [] |}.

Definition sampleClient : IssueClient :=
  {| Destination := "github.com/golang/vulndb";
     Reference := fun num =>
       "https://github.com/golang/vulndb/issues/" +:+ pretty num |}.

Lemma update_retriage_witness :
  let old := sampleRecord store.TriageStateNoActionNeeded in
  let run :=
    handleCVE sampleEnv sampleUpdater sampleFile (Some old)
              (sampleWorld ∅ old) in
  snd run = Ok false
  /\ exists md,
      cveRecords (fst run) = <[sampleID := md]> {[ sampleID := old ]}
      /\ store.BlobHash md = "abcd"
      /\ store.TriageState_ md = store.TriageStateNeedsIssue
      /\ store.Module_ md = "golang.org/x/mod".
Proof.
  intros old run.
  destruct (proj2 (proj2 (update_retriage sampleEnv sampleUpdater))
              sampleFile old sampleCVE (Some sampleModule)
              (sampleWorld ∅ old) eq_refl eq_refl) as [_ H].
  destruct (H (or_introl eq_refl) eq_refl)
    as (Hr & md & Hw & _ & _ & Hblob & _ & _ & Hneeds & _).
  split; [exact Hr|]. exists md.
  destruct (Hneeds eq_refl sampleModule eq_refl) as [Hts Hmod].
  auto.
Defined.

Lemma updateDirectory_hash_protocol_witness :
  updateDirectory sampleEnv sampleUpdater [sampleFile]
    (sampleWorld {[ "2021/0xxx" := "0123" ]}
                 (sampleRecord store.TriageStateNoActionNeeded))
  = (called (EvGetDirectoryHash "2021/0xxx")
       (sampleWorld {[ "2021/0xxx" := "0123" ]}
                    (sampleRecord store.TriageStateNoActionNeeded)),
     Ok noStats)
  /\ match snd (updateDirectory sampleEnv sampleUpdater [sampleFile]
                  (sampleWorld {[ "2021/0xxx" := "in progress" ]}
                     (sampleRecord store.TriageStateNoActionNeeded))) with
     | Ok _ =>
         dirHashes
           (fst (updateDirectory sampleEnv sampleUpdater [sampleFile]
                   (sampleWorld {[ "2021/0xxx" := "in progress" ]}
                      (sampleRecord store.TriageStateNoActionNeeded))))
         !! "2021/0xxx" = Some "0123"
     | Err _ =>
         dirHashes
           (fst (updateDirectory sampleEnv sampleUpdater [sampleFile]
                   (sampleWorld {[ "2021/0xxx" := "in progress" ]}
                      (sampleRecord store.TriageStateNoActionNeeded))))
         !! "2021/0xxx" = Some "in progress"
     end.
Proof.
  split.
  - apply (updateDirectory_hash_protocol sampleEnv sampleUpdater sampleFile []
             (sampleWorld {[ "2021/0xxx" := "0123" ]}
                (sampleRecord store.TriageStateNoActionNeeded)) eq_refl).
    vm_compute. reflexivity.
  - apply (updateDirectory_hash_protocol sampleEnv sampleUpdater sampleFile []
             (sampleWorld {[ "2021/0xxx" := "in progress" ]}
                (sampleRecord store.TriageStateNoActionNeeded)) eq_refl).
    + vm_compute. discriminate.
    + reflexivity.
Defined.

(** C6, as worded, fails on an update of an existing record: for a known
    ID whose record is in state IssueCreated and whose blob changed, the
    record written is in state UpdatedSinceIssueCreation with a reason that
    starts with "CVE changed"; and a record in state NoActionNeeded keeps
    its (here empty) reason. *)
Lemma known_id_update_not_as_worded :
  known knownUpdater (cveschema.ID sampleCVE) = true
  /\ (exists md,
         handleCVE sampleEnv knownUpdater sampleFile
           (Some (sampleRecord store.TriageStateIssueCreated))
           (sampleWorld ∅ (sampleRecord store.TriageStateIssueCreated))
         = (written md
              (called (EvSetCVERecord sampleID)
                 (sampleWorld ∅
                    (sampleRecord store.TriageStateIssueCreated))),
            Ok false)
         /\ store.TriageState_ md <> store.TriageStateNoActionNeeded
         /\ store.TriageState_ md
            = store.TriageStateUpdatedSinceIssueCreation
         /\ store.TriageStateReason md <> "already in vuln DB"
         /\ store.TriageStateReason md
            = "CVE changed; affected module = " +:+ quote +:+ quote)
  /\ (exists md,
         handleCVE sampleEnv knownUpdater sampleFile
           (Some (sampleRecord store.TriageStateNoActionNeeded))
           (sampleWorld ∅ (sampleRecord store.TriageStateNoActionNeeded))
         = (written md
              (called (EvSetCVERecord sampleID)
                 (sampleWorld ∅
                    (sampleRecord store.TriageStateNoActionNeeded))),
            Ok false)
         /\ store.TriageState_ md = store.TriageStateNoActionNeeded
         /\ store.TriageStateReason md <> "already in vuln DB"
         /\ store.TriageStateReason md = "").
Proof.
  split; [reflexivity|]. split.
  - eexists. split; [reflexivity|].
    repeat split; try reflexivity; intros H; discriminate H.
  - eexists. split; [reflexivity|].
    repeat split; try reflexivity; intros H; discriminate H.
Qed.

Lemma known_id_handling_witness :
  triageCalls
    (fst (handleCVE sampleEnv knownUpdater sampleFile None
            (sampleWorld ∅ (sampleRecord store.TriageStateIssueCreated))))
  = 0%nat
  /\ exists cr,
      handleCVE sampleEnv knownUpdater sampleFile None
        (sampleWorld ∅ (sampleRecord store.TriageStateIssueCreated))
      = (written cr
           (called (EvCreateCVERecord sampleID)
              (sampleWorld ∅ (sampleRecord store.TriageStateIssueCreated))),
         Ok true)
      /\ store.TriageState_ cr = store.TriageStateNoActionNeeded
      /\ store.TriageStateReason cr = "already in vuln DB".
Proof.
  destruct (known_id_handling sampleEnv knownUpdater sampleFile sampleCVE
              (sampleWorld ∅ (sampleRecord store.TriageStateIssueCreated))
              eq_refl eq_refl) as [Hcalls Hrec].
  split; [exact (Hcalls None)|].
  destruct (proj1 (Hrec eq_refl)) as (cr & Hrun & _ & Hts & Hreason).
  exists cr. auto.
Defined.

Lemma CreateIssues_invariant_witness :
  issuesRecorded
    (fst (CreateIssues sampleEnv sampleClient 0
            (sampleWorld ∅ (sampleRecord store.TriageStateNeedsIssue)))).
Proof.
  apply (CreateIssues_invariant sampleEnv sampleClient 0).
  - intros num H. discriminate H.
  - intros k. cbn [timeAt sampleEnv]. lia.
  - intros id r H Hts. cbn [cveRecords sampleWorld] in H.
    apply lookup_singleton_Some in H as [_ <-].
    discriminate Hts.
Defined.

(** *** [handleCVE]: every way it can end *)

Section HandleFacts.

Variable E : Env.
Variable u : updater.

(** The record that [handleCVE] creates for a CVE without one, given the
    answer [res] of the classification step. *)
Definition newRecord (f : repoFile) (cve : cveschema.CVE)
           (res : option triageResult) : store.CVERecord :=
  let cr :=
    store.setCommitHash (Hash_String (commitHash u))
      (store.NewCVERecord cve (path_Join E (dirPath f) (filename f))
         (Hash_String (blobHash f))) in
  match res with
  | Some tr =>
      store.setCVE (Some cve)
        (store.setModule (modulePath tr)
           (store.setTriageState store.TriageStateNeedsIssue cr))
  | None =>
      let cr := store.setTriageState store.TriageStateNoActionNeeded cr in
      if known u (cveschema.ID cve)
      then store.setTriageStateReason "already in vuln DB" cr
      else cr
  end.

(** The copy of an existing record with the fields that [handleCVE]
    refreshes before it looks at the triage state. *)
Definition refreshed (f : repoFile) (cve : cveschema.CVE)
           (old : store.CVERecord) : store.CVERecord :=
  store.setCommitHash (Hash_String (commitHash u))
    (store.setCVEState (cveschema.State cve)
       (store.setBlobHash (Hash_String (blobHash f))
          (store.setPath (path_Join E (dirPath f) (filename f)) old))).

(** The context that [handleCVE] adds to its errors. *)
Definition handleContext (f : repoFile) : string :=
  "handleCVE(" +:+ filename f +:+ ")".

Lemma handleCVE_unreadable f old e w :
  repo u (blobHash f) = Err e ->
  handleCVE E u f old w = (w, Err (ErrWrapped (handleContext f) e)).
Proof.
  intros H. unfold handleCVE, wrap, bind, lift. now rewrite H.
Qed.

Lemma handleCVE_unclassified f old cve e w :
  repo u (blobHash f) = Ok cve -> yields u cve = Err e ->
  handleCVE E u f old w
  = (classified u cve w, Err (ErrWrapped (handleContext f) e)).
Proof.
  intros Hrepo Hy. unfold yields in Hy.
  unfold handleCVE, wrap, bind, lift, classified, triage.
  rewrite Hrepo.
  destruct (GoStrings.eq (cveschema.State cve) cveschema.StatePublic
            && negb (known u (cveschema.ID cve)));
    [now rewrite Hy | discriminate].
Qed.

Lemma handleCVE_new f cve res w :
  repo u (blobHash f) = Ok cve -> yields u cve = Ok res ->
  handleCVE E u f None w
  = wrap (handleContext f)
      (do! CreateCVERecord E (newRecord f cve res) in ret true)
      (classified u cve w).
Proof.
  intros Hrepo Hy. unfold yields in Hy.
  unfold handleCVE, wrap, bind at 1 2, lift, classified, triage, ret.
  rewrite Hrepo.
  destruct (GoStrings.eq (cveschema.State cve) cveschema.StatePublic
            && negb (known u (cveschema.ID cve)));
    [rewrite Hy | injection Hy as <-]; reflexivity.
Qed.

Lemma newRecord_ID f cve res : store.ID (newRecord f cve res) = cveschema.ID cve.
Proof.
  unfold newRecord. destruct res; [reflexivity|].
  now destruct (known u (cveschema.ID cve)).
Qed.

Lemma storedState_dec ts : storedState ts \/ ~ storedState ts.
Proof.
  unfold storedState.
  destruct (string_dec ts store.TriageStateNoActionNeeded); [tauto|].
  destruct (string_dec ts store.TriageStateNeedsIssue); [tauto|].
  destruct (string_dec ts store.TriageStateIssueCreated); [tauto|].
  destruct (string_dec ts store.TriageStateUpdatedSinceIssueCreation); tauto.
Qed.

(** The ways in which a call of [handleCVE] ends. *)
Inductive handled (f : repoFile) (old : option store.CVERecord) (w : World)
  : World * result bool -> Prop :=
| handledUnreadable e :
    repo u (blobHash f) = Err e ->
    handled f old w (w, Err (ErrWrapped (handleContext f) e))
| handledUnclassified cve e :
    repo u (blobHash f) = Ok cve -> yields u cve = Err e ->
    handled f old w
      (classified u cve w, Err (ErrWrapped (handleContext f) e))
| handledUnknownState cve res o :
    repo u (blobHash f) = Ok cve -> yields u cve = Ok res ->
    old = Some o -> ~ storedState (store.TriageState_ o) ->
    handled f old w
      (classified u cve w,
       Err (ErrWrapped (handleContext f)
              (ErrUnknownTriageState (store.TriageState_ o))))
| handledWriteFailed cve res r :
    repo u (blobHash f) = Ok cve -> yields u cve = Ok res ->
    fails E (calls w) = true ->
    handled f old w
      (called match old with
              | Some _ => EvSetCVERecord r
              | None => EvCreateCVERecord r
              end
              (classified u cve w),
       Err (ErrWrapped (handleContext f) (ErrIO (calls w))))
| handledModified cve res o md :
    repo u (blobHash f) = Ok cve -> yields u cve = Ok res ->
    old = Some o -> fails E (calls w) = false ->
    reclassify E o (refreshed f cve o) res = ret md ->
    store.ID md = store.ID o ->
    store.Path md = path_Join E (dirPath f) (filename f) ->
    store.BlobHash md = Hash_String (blobHash f) ->
    store.CommitHash md = Hash_String (commitHash u) ->
    handled f old w
      (written md (called (EvSetCVERecord (store.ID o)) (classified u cve w)),
       Ok false)
| handledAdded cve res :
    repo u (blobHash f) = Ok cve -> yields u cve = Ok res ->
    old = None -> fails E (calls w) = false ->
    handled f old w
      (written (newRecord f cve res)
         (called (EvCreateCVERecord (cveschema.ID cve)) (classified u cve w)),
       Ok true).

Lemma handleCVE_handled f old w : handled f old w (handleCVE E u f old w).
Proof.
  destruct (repo u (blobHash f)) as [cve|e] eqn:Hrepo;
    [|rewrite (handleCVE_unreadable _ _ _ _ Hrepo); now constructor].
  destruct (yields u cve) as [res|e] eqn:Hy;
    [|rewrite (handleCVE_unclassified _ _ _ _ _ Hrepo Hy);
      now apply handledUnclassified].
  destruct old as [o|].
  - destruct (storedState_dec (store.TriageState_ o)) as [Hts|Hts].
    + destruct (reclassify_stored E o (refreshed f cve o) res Hts)
        as (md & Hmd & HID & HPath & HBlob & _ & HCommit).
      cbn [store.ID store.Path store.BlobHash store.CommitHash refreshed
           store.setCommitHash store.setCVEState store.setBlobHash
           store.setPath] in HID, HPath, HBlob, HCommit.
      destruct (fails E (calls w)) eqn:Hf.
      * rewrite (handleCVE_existing E u _ _ _ _ _ Hrepo Hy).
        unfold wrap, bind. fold (refreshed f cve o). rewrite Hmd.
        unfold ret, SetCVERecord, bind.
        rewrite call_failed by now rewrite classified_calls.
        rewrite classified_calls.
        now apply (handledWriteFailed f (Some o) w cve res (store.ID md)).
      * rewrite (handleCVE_written E u _ _ _ _ _ _ Hrepo Hy Hmd Hf), HID.
        now apply (handledModified f (Some o) w cve res o md).
    + rewrite (handleCVE_unknown_state E u _ _ _ _ _ Hrepo Hy Hts).
      now apply (handledUnknownState f (Some o) w cve res o).
  - rewrite (handleCVE_new _ _ _ _ Hrepo Hy). unfold wrap, bind.
    unfold CreateCVERecord, bind. rewrite newRecord_ID.
    destruct (fails E (calls w)) eqn:Hf.
    + rewrite call_failed by now rewrite classified_calls.
      rewrite classified_calls.
      now apply (handledWriteFailed f None w cve res (cveschema.ID cve)).
    + rewrite call_ok by now rewrite classified_calls.
      unfold writeRecord, ret. cbn [fst snd].
      now apply (handledAdded f None w cve res).
Qed.

Lemma newRecord_fields f cve res :
  store.Path (newRecord f cve res) = path_Join E (dirPath f) (filename f)
  /\ store.BlobHash (newRecord f cve res) = Hash_String (blobHash f)
  /\ store.CommitHash (newRecord f cve res) = Hash_String (commitHash u)
  /\ store.CVEState (newRecord f cve res) = cveschema.State cve
  /\ store.IssueReference (newRecord f cve res) = ""
  /\ store.IssueCreatedAt (newRecord f cve res) = 0%Z.
Proof.
  unfold newRecord. destruct res; [repeat split|].
  destruct (known u (cveschema.ID cve)); repeat split.
Qed.

(** When [handleCVE] returns an error, the error carries the context
    [handleCVE(<filename>)], and the CVE records, the directory hashes and
    the issues are as they were before the call. *)
Theorem handleCVE_failure f old w e :
  snd (handleCVE E u f old w) = Err e ->
  (exists cause, e = ErrWrapped (handleContext f) cause)
  /\ cveRecords (fst (handleCVE E u f old w)) = cveRecords w
  /\ dirHashes (fst (handleCVE E u f old w)) = dirHashes w
  /\ issues (fst (handleCVE E u f old w)) = issues w.
Proof.
  intros He. pose proof (handleCVE_handled f old w) as H.
  destruct (handleCVE E u f old w) as [w' r]. cbn [fst snd] in *. subst r.
  assert (Hc : forall cve, cveRecords (classified u cve w) = cveRecords w
                           /\ dirHashes (classified u cve w) = dirHashes w
                           /\ issues (classified u cve w) = issues w).
  { intros cve. unfold classified. now destruct (_ && _). }
  inversion H; subst; (split; [eexists; reflexivity|]);
    try apply Hc; auto.
Qed.

(** When [handleCVE] succeeds, it reports an addition exactly when there
    was no old record, and one record has been written: under the ID of
    the old record when there is one, and with the path and blob hash of
    the file and the commit hash of the updater. *)
Theorem handleCVE_success f old w added :
  snd (handleCVE E u f old w) = Ok added ->
  (added = true <-> old = None)
  /\ exists r,
      cveRecords (fst (handleCVE E u f old w))
      = <[store.ID r := r]> (cveRecords w)
      /\ (forall o, old = Some o -> store.ID r = store.ID o)
      /\ (forall cve, old = None -> repo u (blobHash f) = Ok cve ->
                      store.ID r = cveschema.ID cve)
      /\ store.Path r = path_Join E (dirPath f) (filename f)
      /\ store.BlobHash r = Hash_String (blobHash f)
      /\ store.CommitHash r = Hash_String (commitHash u).
Proof.
  intros Hok. pose proof (handleCVE_handled f old w) as H.
  destruct (handleCVE E u f old w) as [w' r]. cbn [fst snd] in *. subst r.
  inversion H; subst.
  - split; [split; discriminate|]. exists md.
    cbn [cveRecords written called]. rewrite classified_records.
    match goal with Hid : store.ID md = store.ID _ |- _ => rewrite Hid end.
    repeat split; auto; try congruence.
  - split; [split; reflexivity|]. exists (newRecord f cve res).
    destruct (newRecord_fields f cve res) as (HP & HB & HC & _).
    cbn [cveRecords written called]. rewrite classified_records, newRecord_ID.
    repeat split; auto; congruence.
Qed.

(** A CVE seen for the first time: once its blob is read, the
    classification step has answered and the write succeeds, [handleCVE]
    creates a record under the CVE's ID with the fields of the file and no
    issue; when a module was found the record is in NeedsIssue with that
    module and the CVE cached, and otherwise it is in NoActionNeeded with
    no module and no cached CVE. *)
Theorem handleCVE_new_record f cve res w :
  repo u (blobHash f) = Ok cve -> yields u cve = Ok res ->
  fails E (calls w) = false ->
  exists cr,
    handleCVE E u f None w
    = (written cr
         (called (EvCreateCVERecord (cveschema.ID cve)) (classified u cve w)),
       Ok true)
    /\ store.ID cr = cveschema.ID cve
    /\ store.CVEState cr = cveschema.State cve
    /\ store.IssueReference cr = "" /\ store.IssueCreatedAt cr = 0%Z
    /\ (forall tr, res = Some tr ->
        store.TriageState_ cr = store.TriageStateNeedsIssue
        /\ store.Module_ cr = modulePath tr /\ store.CVE cr = Some cve)
    /\ (res = None ->
        store.TriageState_ cr = store.TriageStateNoActionNeeded
        /\ store.Module_ cr = "" /\ store.CVE cr = None).
Proof.
  intros Hrepo Hy Hok. exists (newRecord f cve res).
  rewrite (handleCVE_new _ _ _ _ Hrepo Hy). unfold wrap, bind.
  unfold CreateCVERecord, bind. rewrite newRecord_ID.
  rewrite call_ok by now rewrite classified_calls.
  destruct (newRecord_fields f cve res) as (_ & _ & _ & HS & HR & HA).
  split; [reflexivity|]. split; [reflexivity|].
  split; [exact HS|]. split; [exact HR|]. split; [exact HA|]. split.
  - intros tr ->. repeat split.
  - intros ->. unfold newRecord.
    destruct (known u (cveschema.ID cve)); repeat split.
Qed.

(** *** Batches *)

(** The number of records written so far. *)
Definition writes (w : World) : nat :=
  length (List.filter
            (fun ev =>
               match ev with
               | EvCreateCVERecord _ | EvSetCVERecord _ => true
               | _ => false
               end)
            (trace w)).

(** A file without a record in the index of the batch, and a file whose
    record there has another blob hash. *)
Definition isNew (idToRecord : gmap string store.CVERecord) (f : repoFile)
  : bool :=
  match idToRecord !! idFromFilename (filename f) with
  | Some _ => false
  | None => true
  end.

Definition isChanged (idToRecord : gmap string store.CVERecord)
           (f : repoFile) : bool :=
  match idToRecord !! idFromFilename (filename f) with
  | Some o => negb (GoStrings.eq (store.BlobHash o)
                                 (Hash_String (blobHash f)))
  | None => false
  end.

Definition count {A} (p : A -> bool) (l : list A) : Z :=
  Z.of_nat (length (List.filter p l)).

Lemma count_cons {A} (p : A -> bool) x l :
  count p (x :: l) = ((if p x then 1 else 0) + count p l)%Z.
Proof.
  unfold count. cbn [List.filter]. destruct (p x); cbn [length]; lia.
Qed.

Lemma count_bounds {A} (p q : A -> bool) l :
  (forall x, p x && q x = false) ->
  (0 <= count p l /\ 0 <= count q l
   /\ count p l + count q l <= Z.of_nat (length l))%Z.
Proof.
  intros H. induction l as [|x l IH].
  - unfold count. cbn. lia.
  - rewrite !count_cons. cbn [length]. specialize (H x).
    destruct (p x), (q x); try discriminate; lia.
Qed.

Lemma isNew_isChanged m f : isNew m f && isChanged m f = false.
Proof. unfold isNew, isChanged. now destruct (m !! _). Qed.

Lemma handleCVE_added f old w added :
  snd (handleCVE E u f old w) = Ok added ->
  added = match old with Some _ => false | None => true end.
Proof.
  intros Hok. pose proof (handleCVE_handled f old w) as H.
  destruct (handleCVE E u f old w) as [w' r]. cbn [snd] in Hok. subst r.
  inversion H; subst; reflexivity.
Qed.

Lemma classified_transactions cve w :
  transactions (classified u cve w) = transactions w
  /\ writes (classified u cve w) = writes w.
Proof. unfold classified. now destruct (_ && _). Qed.

Lemma handleCVE_events f old w :
  transactions (fst (handleCVE E u f old w)) = transactions w
  /\ (writes (fst (handleCVE E u f old w)) <= S (writes w))%nat.
Proof.
  pose proof (handleCVE_handled f old w) as H.
  destruct (handleCVE E u f old w) as [w' r]. cbn [fst].
  inversion H; subst;
    try (destruct (classified_transactions cve w) as [Ht Hw]);
    try (destruct old);
    unfold transactions, writes in *; cbn [trace written called List.filter];
    cbn [length]; split; try lia; try congruence.
Qed.

Lemma batchFiles_facts m batch a b w :
  transactions (fst (batchFiles E u m batch a b w)) = transactions w
  /\ (writes (fst (batchFiles E u m batch a b w))
      <= writes w + length batch)%nat
  /\ (forall adds mods,
         snd (batchFiles E u m batch a b w) = Ok (adds, mods) ->
         adds = (a + count (isNew m) batch)%Z
         /\ mods = (b + count (isChanged m) batch)%Z).
Proof.
  revert a b w. induction batch as [|f rest IH]; intros a b w.
  - cbn [batchFiles ret fst snd length]. unfold count. cbn.
    split; [reflexivity|]. split; [lia|]. intros adds mods [= <- <-]. lia.
  - cbn [batchFiles length]. rewrite !count_cons.
    change (isNew m f)
      with (match m !! idFromFilename (filename f) with
            | Some _ => false
            | None => true
            end).
    change (isChanged m f)
      with (match m !! idFromFilename (filename f) with
            | Some o => negb (GoStrings.eq (store.BlobHash o)
                                           (Hash_String (blobHash f)))
            | None => false
            end).
    destruct (m !! idFromFilename (filename f)) as [o|] eqn:Hm.
    + destruct (GoStrings.eq (store.BlobHash o) (Hash_String (blobHash f)));
        cbn [negb].
      * destruct (IH a b w) as (Ht & Hw & Hc). split; [exact Ht|].
        split; [lia|]. intros adds mods Hr.
        destruct (Hc adds mods Hr). lia.
      * unfold bind.
        pose proof (handleCVE_added f (Some o) w) as Hadd.
        destruct (handleCVE_events f (Some o) w) as [Ht Hw].
        destruct (handleCVE E u f (Some o) w) as [w1 [added|e]];
          cbn [fst snd] in *; [|split; [exact Ht|]; split; [lia|discriminate]].
        rewrite (Hadd added eq_refl).
        destruct (IH a (b + 1)%Z w1) as (Ht' & Hw' & Hc).
        split; [congruence|]. split; [lia|]. intros adds mods Hr.
        destruct (Hc adds mods Hr). lia.
    + unfold bind.
      pose proof (handleCVE_added f None w) as Hadd.
      destruct (handleCVE_events f None w) as [Ht Hw].
      destruct (handleCVE E u f None w) as [w1 [added|e]];
        cbn [fst snd] in *; [|split; [exact Ht|]; split; [lia|discriminate]].
      rewrite (Hadd added eq_refl).
      destruct (IH (a + 1)%Z b w1) as (Ht' & Hw' & Hc).
      split; [congruence|]. split; [lia|]. intros adds mods Hr.
      destruct (Hc adds mods Hr). lia.
Qed.

(** The records that a transaction reads for the IDs from [startID] to
    [endID]. *)
Definition recordsInRange (w : World) (startID endID : string)
  : list store.CVERecord :=
  List.filter
    (fun r => GoStrings.le startID (store.ID r)
              && GoStrings.le (store.ID r) endID)
    (snd <$> map_to_list (cveRecords w)).

(** The index of the records that [updateBatch] reads for a batch that
    starts with [first] and ends with [final]. *)
Definition batchIndex (w : World) (first final : repoFile)
  : gmap string store.CVERecord :=
  indexByID (recordsInRange w (idFromFilename (filename first))
                            (idFromFilename (filename final))).

(** [updateBatch] on a batch with a first and a last file: the world in
    which the files are handled, and the outcome. *)
Lemma updateBatch_run batch first final w :
  head batch = Some first -> last batch = Some final ->
  let startID := idFromFilename (filename first) in
  let endID := idFromFilename (filename final) in
  let context := "updateBatch(" +:+ startID +:+ "-" +:+ endID +:+ ")" in
  let w1 := called EvRunTransaction w in
  let w2 := called (EvGetCVERecords startID endID) w1 in
  let run := batchFiles E u (batchIndex w first final) batch 0 0 w2 in
  updateBatch E u batch w
  = if fails E (calls w) then (w1, Err (ErrWrapped context (ErrIO (calls w))))
    else if fails E (S (calls w))
    then ({| dirHashes := dirHashes w2; cveRecords := cveRecords w;
             issues := issues w2; calls := calls w2; trace := trace w2 |},
          Err (ErrWrapped context (ErrIO (S (calls w)))))
    else match run with
         | (w', Ok counts) => (w', Ok counts)
         | (w', Err e) =>
             ({| dirHashes := dirHashes w'; cveRecords := cveRecords w;
                 issues := issues w'; calls := calls w'; trace := trace w' |},
              Err (ErrWrapped context e))
         end.
Proof.
  intros Hfirst Hlast. cbv zeta. unfold updateBatch.
  destruct batch as [|f0 rest]; [discriminate|].
  injection Hfirst as ->. rewrite Hlast.
  unfold wrap, RunTransaction, bind at 1, call.
  destruct (fails E (calls w)) eqn:H1; [reflexivity|].
  fold (called EvRunTransaction w).
  unfold bind at 1, GetCVERecords, bind at 1, call.
  cbn [calls called].
  destruct (fails E (S (calls w))) eqn:H2; [reflexivity|].
  fold (called (EvGetCVERecords (idFromFilename (filename first))
                                (idFromFilename (filename final)))
               (called EvRunTransaction w)).
  cbn [cveRecords called]. fold (recordsInRange w
    (idFromFilename (filename first)) (idFromFilename (filename final))).
  fold (batchIndex w first final).
  now destruct (batchFiles _ _ _ _ _ _ _) as [w' [counts|e]].
Qed.

Lemma updateBatch_facts batch first final w :
  head batch = Some first -> last batch = Some final ->
  transactions (fst (updateBatch E u batch w)) = S (transactions w)
  /\ (writes (fst (updateBatch E u batch w)) <= writes w + length batch)%nat
  /\ (forall e, snd (updateBatch E u batch w) = Err e ->
        cveRecords (fst (updateBatch E u batch w)) = cveRecords w
        /\ exists cause,
            e = ErrWrapped
                  ("updateBatch(" +:+ idFromFilename (filename first)
                   +:+ "-" +:+ idFromFilename (filename final) +:+ ")")
                  cause)
  /\ (forall adds mods,
         snd (updateBatch E u batch w) = Ok (adds, mods) ->
         adds = count (isNew (batchIndex w first final)) batch
         /\ mods = count (isChanged (batchIndex w first final)) batch).
Proof.
  intros Hfirst Hlast. rewrite (updateBatch_run _ _ _ _ Hfirst Hlast).
  destruct (fails E (calls w)).
  { cbn [fst snd]. split; [reflexivity|].
    split; [unfold writes; cbn [trace called List.filter]; lia|].
    split; [|discriminate]. intros e [= <-]. split; [reflexivity | eauto]. }
  destruct (fails E (S (calls w))).
  { cbn [fst snd]. split; [reflexivity|].
    split; [unfold writes; cbn [trace called List.filter]; lia|].
    split; [|discriminate]. intros e [= <-]. split; [reflexivity | eauto]. }
  set (w2 := called _ (called EvRunTransaction w)).
  destruct (batchFiles_facts (batchIndex w first final) batch 0 0 w2)
    as (Ht & Hw & Hc).
  assert (Ht2 : transactions w2 = S (transactions w)) by reflexivity.
  assert (Hw2 : writes w2 = writes w) by reflexivity.
  destruct (batchFiles _ _ _ _ _ _ _) as [w' [counts|e]]; cbn [fst snd] in *.
  - split; [congruence|]. split; [lia|]. split; [discriminate|].
    intros adds mods [= ->]. destruct (Hc adds mods eq_refl). split; lia.
  - split; [exact (eq_trans Ht Ht2)|].
    split; [change (writes w' <= writes w + length batch)%nat; lia|].
    split; [|discriminate]. intros e' [= <-]. split; [reflexivity | eauto].
Qed.

Lemma nonempty_ends {A} (l : list A) :
  l <> [] -> exists first final, head l = Some first /\ last l = Some final.
Proof.
  intros H. destruct l as [|x l]; [congruence|]. exists x.
  destruct (last (x :: l)) as [y|] eqn:Hl; [eauto|].
  now apply last_None in Hl.
Qed.

(** The batch that the loop of [updateDirectory] cuts at index [i]. *)
Definition batchAt (dirFiles : list repoFile) (i : nat) : list repoFile :=
  let j := (i + maxTransactionWrites)%nat in
  let j := if (length dirFiles <? j)%nat then length dirFiles else j in
  take (j - i) (drop i dirFiles).

Lemma batchAt_length dirFiles i :
  (i < length dirFiles)%nat ->
  length (batchAt dirFiles i)
  = Nat.min (length dirFiles - i) maxTransactionWrites.
Proof.
  intros Hi. unfold batchAt. rewrite length_take, length_drop.
  destruct (length dirFiles <? i + maxTransactionWrites)%nat eqn:Hj;
    [apply Nat.ltb_lt in Hj | apply Nat.ltb_ge in Hj]; lia.
Qed.

(** The number of batches for [n] files. *)
Definition batches (n : nat) : nat :=
  ((n + (maxTransactionWrites - 1)) / maxTransactionWrites)%nat.

Lemma batches_step n :
  (0 < n)%nat -> batches n = S (batches (n - maxTransactionWrites)).
Proof.
  intros Hn. unfold batches, maxTransactionWrites.
  destruct (Nat.le_gt_cases 500 n) as [H|H].
  - replace (n + (500 - 1))%nat with (1 * 500 + (n - 500 + (500 - 1)))%nat
      by lia.
    rewrite Nat.div_add_l by lia. lia.
  - replace (n - 500)%nat with 0%nat by lia.
    assert (H1 : ((n + (500 - 1)) / 500 = 1)%nat).
    { symmetry. apply (Nat.div_unique _ 500 1 (n - 1)); lia. }
    rewrite H1. replace ((0 + (500 - 1)) / 500)%nat with 0%nat; [reflexivity|].
    symmetry. apply Nat.div_small. lia.
Qed.

Lemma batchLoop_facts dirFiles k i stats w :
  (length dirFiles - i <= k)%nat ->
  let n := (length dirFiles - i)%nat in
  let r := batchLoop E k u dirFiles i stats w in
  (forall e, snd r = Err e -> exists context cause, e = ErrWrapped context cause)
  /\ (forall stats',
         snd r = Ok stats' ->
         numProcessed stats' = (numProcessed stats + Z.of_nat n)%Z
         /\ (numAdded stats <= numAdded stats')%Z
         /\ (numModified stats <= numModified stats')%Z
         /\ (numAdded stats' - numAdded stats
             + (numModified stats' - numModified stats) <= Z.of_nat n)%Z
         /\ transactions (fst r) = (transactions w + batches n)%nat
         /\ (writes (fst r) <= writes w + n)%nat).
Proof.
  revert i stats w. induction k as [|k IH]; intros i stats w Hk n r.
  - subst r n. cbn [batchLoop ret fst snd]. split; [discriminate|].
    intros stats' [= <-]. replace (length dirFiles - i)%nat with 0%nat by lia.
    cbn. repeat split; lia.
  - subst r. cbn [batchLoop].
    destruct (i <? length dirFiles)%nat eqn:Hi;
      [apply Nat.ltb_lt in Hi | apply Nat.ltb_ge in Hi].
    2:{ cbn [ret fst snd]. split; [discriminate|]. intros stats' [= <-].
        subst n. replace (length dirFiles - i)%nat with 0%nat by lia.
        cbn. repeat split; lia. }
    fold (batchAt dirFiles i).
    assert (Hlen := batchAt_length dirFiles i Hi).
    destruct (nonempty_ends (batchAt dirFiles i)) as (first & final & Hf & Hl).
    { intros Hnil. rewrite Hnil in Hlen. cbn in Hlen.
      unfold maxTransactionWrites in Hlen. lia. }
    destruct (updateBatch_facts _ _ _ w Hf Hl) as (Ht & Hw & Herr & Hcounts).
    unfold bind.
    destruct (updateBatch E u (batchAt dirFiles i) w) as [w1 [[adds mods]|e]];
      cbn [fst snd] in *.
    2:{ split; [|discriminate]. intros e' [= <-].
        destruct (Herr e eq_refl) as [_ [cause ->]]. eauto. }
    destruct (Hcounts adds mods eq_refl) as [Ha Hm].
    destruct (count_bounds (isNew (batchIndex w first final))
                (isChanged (batchIndex w first final)) (batchAt dirFiles i)
                (isNew_isChanged _)) as (Ha0 & Hm0 & Hsum).
    rewrite <- Ha, <- Hm, Hlen in Hsum.
    set (j := if (length dirFiles <? i + maxTransactionWrites)%nat
              then length dirFiles else (i + maxTransactionWrites)%nat) in *.
    assert (Hj : (j - i)%nat = Nat.min (length dirFiles - i) maxTransactionWrites).
    { subst j.
      destruct (length dirFiles <? i + maxTransactionWrites)%nat eqn:Hjj;
        [apply Nat.ltb_lt in Hjj | apply Nat.ltb_ge in Hjj]; lia. }
    match goal with
    | |- context [batchLoop E k u dirFiles ?i' ?s' w1] =>
        specialize (IH i' s' w1 ltac:(unfold maxTransactionWrites; lia))
    end.
    cbv zeta in IH. destruct IH as [IHerr IHok].
    split; [exact IHerr|]. intros stats' Hs.
    destruct (IHok stats' Hs) as (Hp & Hadd & Hmod & Hs2 & Htr & Hwr).
    cbn [numProcessed numAdded numModified] in Hp, Hadd, Hmod, Hs2.
    subst n. rewrite (batches_step (length dirFiles - i)) by lia.
    replace (length dirFiles - i - maxTransactionWrites)%nat
      with (length dirFiles - (i + maxTransactionWrites))%nat by lia.
    rewrite Hj in Hp. unfold maxTransactionWrites in *.
    repeat split; lia.
Qed.

(** In a successful [updateBatch] the first count is the number of files
    without a record among those read at the start of the transaction, and
    the second the number of files whose record there has another blob
    hash; files whose record has the same blob hash are not counted, so the
    counts are not negative and add up to at most the size of the batch. *)
Theorem updateBatch_counts batch first final w adds mods :
  head batch = Some first -> last batch = Some final ->
  snd (updateBatch E u batch w) = Ok (adds, mods) ->
  adds = count (isNew (batchIndex w first final)) batch
  /\ mods = count (isChanged (batchIndex w first final)) batch
  /\ (0 <= adds /\ 0 <= mods /\ adds + mods <= Z.of_nat (length batch))%Z.
Proof.
  intros Hf Hl Hok.
  destruct (updateBatch_facts batch first final w Hf Hl) as (_ & _ & _ & Hc).
  destruct (Hc adds mods Hok) as [-> ->]. split; [reflexivity|].
  split; [reflexivity|]. apply count_bounds, isNew_isChanged.
Qed.

(** [updateBatch] on a batch that is not empty starts one transaction and
    writes at most one record per file of the batch; when it fails, the
    error names the first and the last ID of the batch and the CVE records
    are those from before the call. *)
Theorem updateBatch_transaction batch first final w :
  head batch = Some first -> last batch = Some final ->
  transactions (fst (updateBatch E u batch w)) = S (transactions w)
  /\ (writes (fst (updateBatch E u batch w)) <= writes w + length batch)%nat
  /\ (forall e, snd (updateBatch E u batch w) = Err e ->
        cveRecords (fst (updateBatch E u batch w)) = cveRecords w
        /\ exists cause,
            e = ErrWrapped
                  ("updateBatch(" +:+ idFromFilename (filename first)
                   +:+ "-" +:+ idFromFilename (filename final) +:+ ")")
                  cause).
Proof.
  intros Hf Hl.
  destruct (updateBatch_facts batch first final w Hf Hl) as (Ht & Hw & He & _).
  auto.
Qed.

(** The outcome of [updateDirectory] on a group that is not empty, for a
    stored hash that can be read and differs from the tree hash. *)
Lemma updateDirectory_run f0 rest w :
  fails E (calls w) = false ->
  default "" (dirHashes w !! dirPath f0) <> Hash_String (treeHash f0) ->
  let path := dirPath f0 in
  let h := Hash_String (treeHash f0) in
  let w1 := called (EvGetDirectoryHash path) w in
  let marked :=
    hashed path "in progress" (called (EvSetDirectoryHash path "in progress")
                                      w1) in
  updateDirectory E u (f0 :: rest) w
  = if fails E (S (calls w))
    then (called (EvSetDirectoryHash path "in progress") w1,
          Err (ErrIO (S (calls w))))
    else
      match batchLoop E (length (f0 :: rest)) u (f0 :: rest) 0 noStats
                      marked with
      | (w2, Ok stats) =>
          if fails E (calls w2)
          then (called (EvSetDirectoryHash path h) w2, Err (ErrIO (calls w2)))
          else (hashed path h (called (EvSetDirectoryHash path h) w2),
                Ok stats)
      | (w2, Err e) => (w2, Err e)
      end.
Proof.
  intros Hget Hne. cbv zeta. unfold updateDirectory.
  unfold bind at 1. rewrite (GetDirectoryHash_ok E _ _ Hget).
  assert (Hn : GoStrings.eq (Hash_String (treeHash f0))
                 (default "" (dirHashes w !! dirPath f0)) = false)
    by (apply GoStrings.eq_false; congruence).
  rewrite Hn. unfold bind at 1.
  destruct (fails E (S (calls w))) eqn:Hset.
  - now rewrite SetDirectoryHash_failed by exact Hset.
  - rewrite SetDirectoryHash_ok by exact Hset.
    unfold bind at 1. fold noStats.
    destruct (batchLoop _ _ _ _ _ _ _) as [w2 [stats|e]]; [|reflexivity].
    unfold bind. destruct (fails E (calls w2)) eqn:Hend.
    + now rewrite SetDirectoryHash_failed by exact Hend.
    + now rewrite SetDirectoryHash_ok by exact Hend.
Qed.

(** When [updateDirectory] succeeds on a directory whose stored hash
    differs from the tree hash, the statistics count every file of the
    group as processed, the numbers of added and modified records are not
    negative and add up to at most the number of files, one transaction has
    been run for every 500 files or part of them, and at most one record
    per file has been written. *)
Theorem updateDirectory_statistics f0 rest w stats :
  default "" (dirHashes w !! dirPath f0) <> Hash_String (treeHash f0) ->
  snd (updateDirectory E u (f0 :: rest) w) = Ok stats ->
  let n := length (f0 :: rest) in
  let w' := fst (updateDirectory E u (f0 :: rest) w) in
  numProcessed stats = Z.of_nat n
  /\ (0 <= numAdded stats /\ 0 <= numModified stats
      /\ numAdded stats + numModified stats <= Z.of_nat n)%Z
  /\ transactions w' = (transactions w + batches n)%nat
  /\ (writes w' <= writes w + n)%nat.
Proof.
  intros Hne Hok n w'. subst w'.
  destruct (fails E (calls w)) eqn:Hget.
  { exfalso. revert Hok. unfold updateDirectory, bind at 1, GetDirectoryHash,
      bind at 1. now rewrite (call_failed E _ _ Hget). }
  revert Hok. rewrite (updateDirectory_run f0 rest w Hget Hne).
  destruct (fails E (S (calls w))); [discriminate|].
  set (marked := hashed _ _ _).
  destruct (batchLoop_facts (f0 :: rest) (length (f0 :: rest)) 0 noStats
              marked ltac:(lia)) as [_ Hfacts].
  destruct (batchLoop _ _ _ _ _ _ _) as [w2 [stats'|e]]; [|discriminate].
  destruct (fails E (calls w2)); [discriminate|].
  cbn [fst snd] in *. intros [= <-].
  destruct (Hfacts stats' eq_refl) as (Hp & Ha & Hm & Hs & Ht & Hw).
  cbn [numProcessed numAdded numModified noStats] in *.
  rewrite Nat.sub_0_r in *. fold n in Hp, Hs, Ht, Hw.
  change (transactions (hashed (dirPath f0) (Hash_String (treeHash f0))
            (called (EvSetDirectoryHash (dirPath f0)
                       (Hash_String (treeHash f0))) w2)))
    with (transactions w2).
  change (writes (hashed (dirPath f0) (Hash_String (treeHash f0))
            (called (EvSetDirectoryHash (dirPath f0)
                       (Hash_String (treeHash f0))) w2)))
    with (writes w2).
  change (transactions marked) with (transactions w) in Ht.
  change (writes marked) with (writes w) in Hw.
  repeat split; lia.
Qed.

Lemma updateDirectory_nonempty f0 rest w :
  snd (updateDirectory E u (f0 :: rest) w) <> Err ErrIndexOutOfRange.
Proof.
  destruct (fails E (calls w)) eqn:Hget.
  { unfold updateDirectory, bind at 1, GetDirectoryHash, bind at 1.
    now rewrite (call_failed E _ _ Hget). }
  destruct (string_dec (default "" (dirHashes w !! dirPath f0))
                       (Hash_String (treeHash f0))) as [Heq|Hne].
  { unfold updateDirectory, bind at 1.
    rewrite (GetDirectoryHash_ok E _ _ Hget), <- Heq.
    now rewrite (proj2 (GoStrings.eq_true _ _) eq_refl). }
  rewrite (updateDirectory_run f0 rest w Hget Hne).
  destruct (fails E (S (calls w))); [discriminate|].
  set (marked := hashed _ _ _).
  destruct (batchLoop_facts (f0 :: rest) (length (f0 :: rest)) 0 noStats
              marked ltac:(lia)) as [Herr _].
  destruct (batchLoop _ _ _ _ _ _ _) as [w2 [stats'|e]].
  - now destruct (fails E (calls w2)).
  - cbn [snd] in *. destruct (Herr e eq_refl) as (context & cause & ->).
    discriminate.
Qed.

Lemma groups_nonempty files gs :
  groupFilesByDirectory files = Ok gs -> Forall (fun g => g <> []) gs.
Proof.
  intros H. destruct files as [|f files].
  - injection H as <-. constructor.
  - rewrite groupFilesByDirectory_unfold in H by discriminate.
    destruct (checkSeen (groupsOf (f :: files)) ∅); [discriminate|].
    injection H as <-.
    destruct (groupsOf_props (f :: files)) as (_ & Hgood & _).
    eapply Forall_impl; [exact Hgood|].
    intros g Hg. now apply good_sameDirectory in Hg as [? _].
Qed.

(** [updateDirectory] never indexes out of range on a group that is not
    empty, since it never cuts an empty batch; this holds for every group
    that [groupFilesByDirectory] returns. *)
Theorem updateDirectory_in_range :
  (forall f0 rest w,
      snd (updateDirectory E u (f0 :: rest) w) <> Err ErrIndexOutOfRange)
  /\ (forall files gs g w,
         groupFilesByDirectory files = Ok gs -> g ∈ gs ->
         snd (updateDirectory E u g w) <> Err ErrIndexOutOfRange).
Proof.
  split; [apply updateDirectory_nonempty|].
  intros files gs g w Hgs Hg.
  pose proof (groups_nonempty _ _ Hgs) as Hne.
  rewrite Forall_forall in Hne. specialize (Hne g Hg).
  destruct g as [|f0 rest]; [congruence|]. apply updateDirectory_nonempty.
Qed.

(** *** The classifier and the known IDs *)

Lemma classified_triageCalls cve w :
  triageCalls (classified u cve w)
  = (triageCalls w
     + if GoStrings.eq (cveschema.State cve) cveschema.StatePublic
          && negb (known u (cveschema.ID cve))
       then 1 else 0)%nat.
Proof.
  unfold classified. destruct (_ && _); unfold triageCalls; cbn; lia.
Qed.

(** [handleCVE] calls the classifier once when the CVE of the file is
    public and its ID is not known, and not at all otherwise; a file whose
    blob cannot be read is not classified. *)
Theorem handleCVE_classifier_calls f old w :
  triageCalls (fst (handleCVE E u f old w))
  = match repo u (blobHash f) with
    | Ok cve =>
        (triageCalls w
         + if GoStrings.eq (cveschema.State cve) cveschema.StatePublic
              && negb (known u (cveschema.ID cve))
           then 1 else 0)%nat
    | Err _ => triageCalls w
    end.
Proof.
  pose proof (handleCVE_handled f old w) as H.
  destruct (handleCVE E u f old w) as [w' r]. cbn [fst].
  inversion H; subst;
    match goal with Hr : repo u (blobHash f) = _ |- _ => rewrite Hr end;
    try reflexivity; try apply classified_triageCalls;
    try (destruct old); apply classified_triageCalls.
Qed.

End HandleFacts.

(** [newUpdater(repo, commitHash, st, knownVulnIDs, needsIssue)]; the
    store is the one of the world. *)
Definition newUpdater (repo_ : Hash -> result cveschema.CVE)
           (commitHash_ : Hash) (knownVulnIDs : list string)
           (needsIssue : cveschema.CVE -> result (option triageResult))
  : updater :=
  {| repo := repo_; commitHash := commitHash_;
     knownIDs := fold_left (fun m k => <[k := true]> m) knownVulnIDs ∅;
     affectedModule := needsIssue |}.

Lemma knownIDs_fold (ids : list string) (m : gmap string bool) id :
  default false (fold_left (fun m k => <[k := true]> m) ids m !! id) = true
  <-> id ∈ ids \/ default false (m !! id) = true.
Proof.
  revert m. induction ids as [|k ids IH]; intros m; cbn [fold_left].
  - split; [auto|]. intros [H|H]; [now apply elem_of_nil in H | exact H].
  - rewrite IH, elem_of_cons. destruct (decide (k = id)) as [->|Hne].
    + rewrite lookup_insert_eq. cbn. tauto.
    + rewrite lookup_insert_ne by exact Hne. split.
      * intros [H|H]; auto.
      * intros [[H|H]|H]; auto; congruence.
Qed.

(** The updater made by [newUpdater] knows exactly the IDs of the list it
    is given. *)
Theorem newUpdater_known repo_ commitHash_ knownVulnIDs needsIssue id :
  known (newUpdater repo_ commitHash_ knownVulnIDs needsIssue) id = true
  <-> id ∈ knownVulnIDs.
Proof.
  unfold known, newUpdater. cbn [knownIDs]. rewrite knownIDs_fold.
  rewrite lookup_empty. cbn. split; [intros [H|H]; [exact H | discriminate]|].
  auto.
Qed.

(** *** [idFromFilename] *)

(** The string has no slash and no dot. *)
Definition plain (s : string) : Prop :=
  Forall (fun c => c <> "/"%char /\ c <> "."%char) (list_ascii_of_string s).

Definition noSlash (s : string) : Prop :=
  Forall (fun c => c <> "/"%char) (list_ascii_of_string s).

Lemma list_ascii_append s t :
  list_ascii_of_string (s +:+ t)
  = list_ascii_of_string s ++ list_ascii_of_string t.
Proof.
  induction s as [|c s IH]; [reflexivity|].
  change (String c s +:+ t) with (String c (s +:+ t)).
  cbn [list_ascii_of_string app]. now rewrite IH.
Qed.

Lemma extScan_plain ext : plain ext -> extScan ext = (false, "").
Proof.
  induction ext as [|c ext IH]; intros H; [reflexivity|].
  unfold plain in H. cbn [list_ascii_of_string] in H.
  apply Forall_cons in H as [[Hs Hd] H]. cbn [extScan]. rewrite (IH H).
  apply Ascii.eqb_neq in Hs, Hd. cbn. now rewrite Hs, Hd.
Qed.

Lemma extScan_prefix p q e :
  extScan q = (false, e) -> e <> "" -> extScan (p +:+ q) = (false, e).
Proof.
  intros Hq He. induction p as [|c p IH]; [exact Hq|].
  change (String c p +:+ q) with (String c (p +:+ q)).
  cbn [extScan]. rewrite IH. apply GoStrings.eq_false in He.
  now rewrite He.
Qed.

Lemma path_Ext_dot p ext :
  plain ext -> path_Ext (p +:+ "." +:+ ext) = "." +:+ ext.
Proof.
  intros H. unfold path_Ext.
  rewrite (extScan_prefix p ("." +:+ ext) ("." +:+ ext)); [reflexivity| |].
  - change ("." +:+ ext) with (String "." ext). cbn [extScan].
    now rewrite (extScan_plain ext H).
  - discriminate.
Qed.

Lemma takeWhile_app {A} (p : A -> bool) l1 l2 :
  Forall (fun x => p x = true) l1 ->
  match l2 with [] => True | x :: _ => p x = false end ->
  takeWhile p (l1 ++ l2) = l1.
Proof.
  intros H1 H2. induction l1 as [|x l1 IH]; cbn [app takeWhile].
  - destruct l2 as [|y l2]; [reflexivity|]. cbn [takeWhile]. now rewrite H2.
  - apply Forall_cons in H1 as [Hx H1]. rewrite Hx. f_equal. now apply IH.
Qed.

Lemma dropWhile_head {A} (p : A -> bool) l :
  match l with [] => True | x :: _ => p x = false end -> dropWhile p l = l.
Proof. destruct l as [|x l]; [reflexivity|]. cbn. now intros ->. Qed.

(** The last element of a path that does not end in a slash. *)
Lemma path_Base_last (pre : list ascii) b :
  noSlash b -> b <> "" ->
  match rev pre with [] => True | c :: _ => c = "/"%char end ->
  path_Base (string_of_list_ascii pre +:+ b) = b.
Proof.
  intros Hb Hne Hpre. unfold path_Base.
  assert (Hp : GoStrings.eq (string_of_list_ascii pre +:+ b) "" = false).
  { apply GoStrings.eq_false. intros H.
    apply (f_equal String.length) in H.
    rewrite GoStrings.length_append in H. destruct b; [congruence|].
    cbn in H. lia. }
  rewrite Hp, list_ascii_append, list_ascii_of_string_of_list_ascii, rev_app_distr.
  set (bl := list_ascii_of_string b) in *.
  assert (Hrev : Forall (fun c => negb (Ascii.eqb c "/") = true) (rev bl)).
  { apply Forall_rev. eapply Forall_impl; [exact Hb|].
    intros c Hc. apply negb_true_iff. now apply Ascii.eqb_neq. }
  assert (Hbl : rev bl <> []).
  { intros H. apply (f_equal (@length ascii)) in H.
    rewrite length_rev in H. subst bl. destruct b; [congruence | discriminate]. }
  rewrite dropWhile_head.
  2:{ destruct (rev bl) as [|c l] eqn:Hr; [congruence|]. cbn [app].
      apply Forall_cons in Hrev as [Hc _]. now apply negb_true_iff in Hc. }
  rewrite takeWhile_app; [| exact Hrev |].
  2:{ destruct (rev pre) as [|c l]; [exact I|]. now rewrite Hpre. }
  destruct (rev bl) as [|c l] eqn:Hr; [congruence|].
  rewrite <- Hr, rev_involutive. subst bl.
  apply string_of_list_ascii_of_string.
Qed.

Lemma TrimSuffix_append p s : TrimSuffix (p +:+ s) s = p.
Proof.
  unfold TrimSuffix, HasSuffix. rewrite GoStrings.length_append.
  replace (String.length p + String.length s - String.length s)%nat
    with (String.length p) by lia.
  rewrite GoStrings.substring_append.
  rewrite (proj2 (GoStrings.eq_true s s) eq_refl).
  replace (String.length s <=? String.length p + String.length s)%nat
    with true by (symmetry; apply Nat.leb_le; lia).
  cbn [andb]. clear. induction p as [|c p IH]; [now destruct s|].
  change (String c p +:+ s) with (String c (p +:+ s)).
  cbn [String.length String.substring]. now rewrite IH.
Qed.

Lemma plain_noSlash_dotted stem ext :
  plain stem -> plain ext -> noSlash (stem +:+ "." +:+ ext).
Proof.
  intros Hs He. unfold noSlash.
  change (stem +:+ "." +:+ ext) with (stem +:+ String "." ext).
  rewrite list_ascii_append. cbn [list_ascii_of_string].
  apply Forall_app. split.
  - eapply Forall_impl; [exact Hs|]. now intros c [? _].
  - apply Forall_cons. split; [discriminate|].
    eapply Forall_impl; [exact He|]. now intros c [? _].
Qed.

Lemma dotted_nonempty stem ext : stem +:+ "." +:+ ext <> "".
Proof.
  intros H. apply (f_equal String.length) in H.
  rewrite !GoStrings.length_append in H. cbn in H. lia.
Qed.

(** [idFromFilename] returns the name without its directory and without
    its extension: for a file name made of a stem, a dot and an extension
    (neither with a slash or a dot), with or without a directory before
    it, the result is the stem.  A name without dot and slash is returned
    whole, and the empty name yields a single dot. *)
Theorem idFromFilename_stem :
  (forall dir stem ext,
      plain stem -> plain ext ->
      idFromFilename (dir +:+ "/" +:+ stem +:+ "." +:+ ext) = stem
      /\ idFromFilename (stem +:+ "." +:+ ext) = stem)
  /\ (forall name, plain name -> name <> "" -> idFromFilename name = name)
  /\ idFromFilename "" = ".".
Proof.
  split; [|split; [|reflexivity]].
  - intros dir stem ext Hs He.
    pose proof (plain_noSlash_dotted stem ext Hs He) as Hb.
    pose proof (dotted_nonempty stem ext) as Hne.
    unfold idFromFilename. split.
    + replace (dir +:+ "/" +:+ stem +:+ "." +:+ ext)
        with ((dir +:+ "/" +:+ stem) +:+ "." +:+ ext) at 2
        by now rewrite !GoStrings.append_assoc.
      rewrite (path_Ext_dot _ ext He).
      replace (dir +:+ "/" +:+ stem +:+ "." +:+ ext)
        with (string_of_list_ascii (list_ascii_of_string (dir +:+ "/"))
              +:+ (stem +:+ "." +:+ ext)).
      2:{ rewrite string_of_list_ascii_of_string.
          now rewrite !GoStrings.append_assoc. }
      rewrite path_Base_last; [| exact Hb | exact Hne |].
      2:{ rewrite list_ascii_append, rev_app_distr. reflexivity. }
      replace (stem +:+ "." +:+ ext) with (stem +:+ ("." +:+ ext)) by reflexivity.
      apply TrimSuffix_append.
    + rewrite (path_Ext_dot stem ext He).
      pose proof (path_Base_last [] (stem +:+ "." +:+ ext) Hb Hne I) as H.
      cbn [string_of_list_ascii] in H.
      change ("" +:+ (stem +:+ "." +:+ ext)) with (stem +:+ "." +:+ ext) in H.
      rewrite H. apply (TrimSuffix_append stem ("." +:+ ext)).
  - intros name Hn Hne. unfold idFromFilename, path_Ext.
    rewrite (extScan_plain name Hn). cbn [snd].
    pose proof (path_Base_last [] name) as H.
    cbn [string_of_list_ascii] in H. change ("" +:+ name) with name in H.
    rewrite H; [| | exact Hne | exact I].
    2:{ eapply Forall_impl; [exact Hn|]. now intros c [? _]. }
    rewrite <- (GoStrings.append_empty_r name) at 1.
    apply TrimSuffix_append.
Qed.

(** *** [CreateIssues]: the issues it files *)

Section IssueLimit.

Variable E : Env.
Variable ic : IssueClient.

Lemma recordIssue_issues id ref w :
  issues (fst (recordIssue E id ref w)) = issues w.
Proof.
  unfold recordIssue, RunTransaction, bind at 1, call.
  destruct (fails E (calls w)); [reflexivity|].
  unfold bind at 1, GetCVERecords, bind at 1, call. cbn [calls].
  destruct (fails E (S (calls w))); [reflexivity|].
  cbn [cveRecords].
  destruct (List.filter _ _) as [|r rs]; [reflexivity|].
  unfold bind at 1, Now. unfold SetCVERecord, bind, call. cbn [calls].
  destruct (fails E (S (S (calls w)))); reflexivity.
Qed.

(** An issue that [CreateIssues] files for one of the records [needs]. *)
Definition issueOf (needs : list store.CVERecord) (iss : Issue) : Prop :=
  exists r,
    r ∈ needs
    /\ Title iss
       = "x/vulndb: potential Go vulnerability found from CVE List: "
         +:+ store.ID r
    /\ Labels iss = ["Needs Triage"]
    /\ store.IssueReference r = "" /\ store.IssueCreatedAt r = 0%Z.

Lemma issueOf_cons r needs iss : issueOf needs iss -> issueOf (r :: needs) iss.
Proof.
  intros (r' & Hin & H). exists r'. split; [|exact H].
  apply elem_of_cons. now right.
Qed.

Lemma createIssuesLoop_issues limit needs n w :
  exists new,
    issues (fst (createIssuesLoop E ic limit needs n w)) = issues w ++ new
    /\ (length new <= length needs)%nat
    /\ ((0 < limit)%Z -> (Z.of_nat (length new) <= Z.max 0 (limit - n))%Z)
    /\ Forall (issueOf needs) new.
Proof.
  revert n w. induction needs as [|r rest IH]; intros n w.
  - exists []. cbn. rewrite app_nil_r. repeat split; try lia. constructor.
  - cbn [createIssuesLoop].
    destruct ((0 <? limit)%Z && (limit <=? n)%Z) eqn:Hlim.
    { exists []. cbn. rewrite app_nil_r. repeat split; try lia. constructor. }
    destruct (negb (GoStrings.eq (store.IssueReference r) "")
              || negb (IsZero (store.IssueCreatedAt r))) eqn:Hskip.
    { destruct (IH n w) as (new & Hi & Hl & Hb & Hf). exists new.
      split; [exact Hi|]. split; [cbn [length]; lia|]. split; [exact Hb|].
      eapply Forall_impl; [exact Hf|]. apply issueOf_cons. }
    apply orb_false_iff in Hskip as [Href Hat].
    apply negb_false_iff in Href, Hat. apply GoStrings.eq_true in Href.
    unfold IsZero in Hat. apply Z.eqb_eq in Hat.
    unfold bind at 1, lift. destruct (newBody E r) as [body|e] eqn:Hbody.
    2:{ exists []. cbn. rewrite app_nil_r. repeat split; try lia.
        constructor. }
    fold (issueFor r body). unfold bind at 1, CreateIssue, bind at 1, call.
    destruct (fails E (calls w)) eqn:Hf1.
    { exists []. cbn. rewrite app_nil_r. repeat split; try lia.
      constructor. }
    fold (called (EvCreateIssue (Title (issueFor r body))) w).
    fold (filed (issueFor r body)
            (called (EvCreateIssue (Title (issueFor r body))) w)).
    set (w1 := filed _ _).
    assert (Hthis : issueOf (r :: rest) (issueFor r body)).
    { exists r. split; [apply elem_of_cons; now left|]. now repeat split. }
    assert (Hroom : (0 < limit)%Z -> (n < limit)%Z).
    { intros H0. apply andb_false_iff in Hlim as [H|H]; lia. }
    unfold bind at 1.
    pose proof (recordIssue_issues (store.ID r)
                  (Reference ic (Z.of_nat (S (length (issues
                     (called (EvCreateIssue (Title (issueFor r body))) w))))))
                  w1) as Hrec.
    destruct (recordIssue _ _ _ _) as [w2 [[]|e]]; cbn [fst] in Hrec.
    + destruct (IH (n + 1)%Z w2) as (new & Hi & Hl & Hb & Hf).
      exists (issueFor r body :: new). rewrite Hi, Hrec.
      split; [subst w1; cbn [issues filed called]; now rewrite <- app_assoc|].
      split; [cbn [length]; lia|]. split.
      * intros H0. specialize (Hb H0). specialize (Hroom H0).
        cbn [length]. lia.
      * apply Forall_cons. split; [exact Hthis|].
        eapply Forall_impl; [exact Hf|]. apply issueOf_cons.
    + exists [issueFor r body]. cbn [fst]. rewrite Hrec.
      split; [reflexivity|]. split; [cbn [length]; lia|]. split.
      * intros H0. specialize (Hroom H0). cbn [length]. lia.
      * apply Forall_cons. split; [exact Hthis | constructor].
Qed.

(** [CreateIssues] only appends to the issues of the tracker.  It files at
    most one issue per record that the store lists as NeedsIssue, and at
    most [limit] issues when the limit is positive; every issue it files
    is titled after a listed record that has no issue reference and no
    creation time, and is labelled "Needs Triage". *)
Theorem CreateIssues_issues limit w :
  let needs :=
    List.filter
      (fun r => GoStrings.eq (store.TriageState_ r)
                             store.TriageStateNeedsIssue)
      (snd <$> map_to_list (cveRecords w)) in
  exists new,
    issues (fst (CreateIssues E ic limit w)) = issues w ++ new
    /\ (length new <= length needs)%nat
    /\ ((0 < limit)%Z -> (Z.of_nat (length new) <= limit)%Z)
    /\ Forall (issueOf needs) new.
Proof.
  intros needs.
  unfold CreateIssues, bind, ListCVERecordsWithTriageState, bind, call.
  destruct (fails E (calls w)) eqn:Hf.
  - exists []. cbn [fst issues length]. rewrite app_nil_r.
    repeat split; try lia. constructor.
  - cbn [cveRecords]. fold needs.
    destruct (createIssuesLoop_issues limit needs 0
                {| dirHashes := dirHashes w; cveRecords := cveRecords w;
                   issues := issues w; calls := S (calls w);
                   trace :=
                     EvListCVERecordsWithTriageState
                       store.TriageStateNeedsIssue :: trace w |})
      as (new & Hi & Hl & Hb & Hfor).
    exists new. split; [exact Hi|].
    split; [exact Hl|]. split; [|exact Hfor].
    intros H0. specialize (Hb H0). lia.
Qed.

(** The window that the comment in [CreateIssues] describes: when the
    issue for a record has been filed and the transaction that records it
    cannot be started, [CreateIssues] stops with the error of the store;
    the issue is in the tracker, the CVE records are as before, and a
    later sweep over the same record files the same issue again. *)
Theorem CreateIssues_unrecorded_issue limit r rest n body r0 w :
  ~ limitReached limit n ->
  store.IssueReference r = "" -> store.IssueCreatedAt r = 0%Z ->
  newBody E r = Ok body ->
  fails E (calls w) = false -> fails E (S (calls w)) = true ->
  let w' := fst (createIssuesLoop E ic limit (r :: rest) n w) in
  snd (createIssuesLoop E ic limit (r :: rest) n w)
  = Err (ErrIO (S (calls w)))
  /\ issues w' = issues w ++ [issueFor r body]
  /\ cveRecords w' = cveRecords w
  /\ (wellKeyed w -> cveRecords w !! store.ID r = Some r0 ->
      (forall k, (k < 4)%nat -> fails E (k + calls w') = false) ->
      exists more,
        issues (fst (createIssuesLoop E ic limit (r :: rest) n w'))
        = issues w ++ [issueFor r body; issueFor r body] ++ more).
Proof.
  intros Hlim Href Hat Hbody Hok Hfail w'.
  assert (Hrun : createIssuesLoop E ic limit (r :: rest) n w
                 = (called EvRunTransaction
                      (filed (issueFor r body)
                         (called (EvCreateIssue (Title (issueFor r body))) w)),
                    Err (ErrIO (S (calls w))))).
  { cbn [createIssuesLoop].
    rewrite (limitReached_false _ _ Hlim), Href, Hat.
    change (negb (GoStrings.eq "" "") || negb (IsZero 0)) with false.
    cbv iota. unfold bind at 1, lift. rewrite Hbody.
    fold (issueFor r body).
    unfold bind at 1, CreateIssue, bind at 1.
    rewrite (call_ok E _ _ Hok).
    fold (filed (issueFor r body)
            (called (EvCreateIssue (Title (issueFor r body))) w)).
    unfold bind at 1, recordIssue, RunTransaction, bind at 1.
    now rewrite call_failed by exact Hfail. }
  subst w'. rewrite Hrun. cbn [fst snd].
  split; [reflexivity|]. split; [reflexivity|]. split; [reflexivity|].
  intros Hkeys Hlook Hnext.
  set (w' := called EvRunTransaction _) in *.
  rewrite (createIssuesLoop_file E ic limit r rest n body r0 w'
             Hlim Href Hat Hbody Hkeys Hlook Hnext).
  match goal with
  | |- context [createIssuesLoop E ic limit rest (n + 1) ?w2] =>
      destruct (createIssuesLoop_issues limit rest (n + 1) w2)
        as (more & Hi & _)
  end.
  exists more. rewrite Hi. cbn [issues written called filed].
  subst w'. cbn [issues called filed]. now rewrite <- !app_assoc.
Qed.

End IssueLimit.

(** *** Sample runs of the updater and of issue creation *)

(** An updater whose repository cannot read any blob. *)
Definition brokenUpdater : updater :=
  {| repo := fun _ => Err (ErrRepo "object not found");
     commitHash := [Byte.xef]; knownIDs := ∅;
     affectedModule := fun _ => Ok (Some sampleModule) |}.

(** The world with no directory hash and the sample record in state
    NoActionNeeded. *)
Definition quietWorld : World :=
  sampleWorld ∅ (sampleRecord store.TriageStateNoActionNeeded).

(** An environment in which the second call fails. *)
Definition flakyEnv : Env :=
  {| path_Join := path_Join sampleEnv; strconv_Quote := strconv_Quote sampleEnv;
     CVEListRepoURL := CVEListRepoURL sampleEnv;
     fails := fun k => Nat.eqb k 1;
     timeAt := timeAt sampleEnv |}.

Lemma handleCVE_failure_witness :
  cveRecords (fst (handleCVE sampleEnv brokenUpdater sampleFile None
                     quietWorld))
  = cveRecords quietWorld.
Proof.
  exact (proj1 (proj2 (handleCVE_failure sampleEnv brokenUpdater sampleFile
                         None quietWorld
                         (ErrWrapped (handleContext sampleFile)
                                     (ErrRepo "object not found"))
                         eq_refl))).
Defined.

Lemma handleCVE_success_witness :
  exists r,
    cveRecords (fst (handleCVE sampleEnv sampleUpdater sampleFile
                       (Some (sampleRecord store.TriageStateNeedsIssue))
                       quietWorld))
    = <[store.ID r := r]> (cveRecords quietWorld)
    /\ store.ID r = sampleID /\ store.BlobHash r = "abcd".
Proof.
  destruct (handleCVE_success sampleEnv sampleUpdater sampleFile
              (Some (sampleRecord store.TriageStateNeedsIssue)) quietWorld
              false eq_refl)
    as (_ & r & Hw & Hid & _ & _ & Hblob & _).
  exists r. split; [exact Hw|]. split; [exact (Hid _ eq_refl) | exact Hblob].
Defined.

Lemma handleCVE_new_record_witness :
  exists cr,
    snd (handleCVE sampleEnv sampleUpdater sampleFile None quietWorld)
    = Ok true
    /\ cveRecords (fst (handleCVE sampleEnv sampleUpdater sampleFile None
                          quietWorld))
       = <[sampleID := cr]> (cveRecords quietWorld)
    /\ store.TriageState_ cr = store.TriageStateNeedsIssue
    /\ store.Module_ cr = "golang.org/x/mod"
    /\ store.CVE cr = Some sampleCVE.
Proof.
  destruct (handleCVE_new_record sampleEnv sampleUpdater sampleFile sampleCVE
              (Some sampleModule) quietWorld eq_refl eq_refl eq_refl)
    as (cr & Hrun & Hid & _ & _ & _ & Hsome & _).
  destruct (Hsome sampleModule eq_refl) as (Hts & Hmod & Hcve).
  exists cr. rewrite Hrun. cbn [fst snd written called cveRecords].
  rewrite Hid. repeat split; assumption.
Defined.

Lemma updateBatch_counts_witness :
  snd (updateBatch sampleEnv sampleUpdater [sampleFile] quietWorld)
  = Ok (0%Z, 1%Z)
  /\ count (isNew (batchIndex quietWorld sampleFile sampleFile)) [sampleFile]
     = 0%Z
  /\ count (isChanged (batchIndex quietWorld sampleFile sampleFile))
           [sampleFile]
     = 1%Z.
Proof.
  split; [reflexivity|].
  destruct (updateBatch_counts sampleEnv sampleUpdater [sampleFile]
              sampleFile sampleFile quietWorld 0%Z 1%Z eq_refl eq_refl
              eq_refl) as (Ha & Hm & _).
  split; congruence.
Defined.

Lemma updateBatch_transaction_witness :
  transactions (fst (updateBatch sampleEnv brokenUpdater [sampleFile]
                       quietWorld)) = 1%nat
  /\ cveRecords (fst (updateBatch sampleEnv brokenUpdater [sampleFile]
                        quietWorld))
     = cveRecords quietWorld.
Proof.
  destruct (updateBatch_transaction sampleEnv brokenUpdater [sampleFile]
              sampleFile sampleFile quietWorld eq_refl eq_refl)
    as (Ht & _ & He).
  split; [exact Ht|].
  exact (proj1 (He _ eq_refl)).
Defined.

Lemma updateDirectory_statistics_witness :
  snd (updateDirectory sampleEnv sampleUpdater [sampleFile] quietWorld)
  = Ok {| numProcessed := 1; numAdded := 0; numModified := 1 |}
  /\ transactions (fst (updateDirectory sampleEnv sampleUpdater [sampleFile]
                          quietWorld)) = 1%nat
  /\ (writes (fst (updateDirectory sampleEnv sampleUpdater [sampleFile]
                     quietWorld)) <= 1)%nat.
Proof.
  split; [reflexivity|].
  destruct (updateDirectory_statistics sampleEnv sampleUpdater sampleFile []
              quietWorld
              {| numProcessed := 1; numAdded := 0; numModified := 1 |})
    as (_ & _ & Ht & Hw).
  - cbn. discriminate.
  - reflexivity.
  - split; [exact Ht | exact Hw].
Defined.

Lemma CreateIssues_unrecorded_issue_witness :
  let r := sampleRecord store.TriageStateNeedsIssue in
  let w := sampleWorld ∅ r in
  exists body,
    newBody flakyEnv r = Ok body
    /\ issues (fst (createIssuesLoop flakyEnv sampleClient 0 [r] 0 w))
       = [issueFor r body]
    /\ cveRecords (fst (createIssuesLoop flakyEnv sampleClient 0 [r] 0 w))
       = cveRecords w.
Proof.
  intros r w.
  destruct (newBody flakyEnv r) as [body|e] eqn:Hbody; [|discriminate].
  exists body. split; [reflexivity|].
  destruct (CreateIssues_unrecorded_issue flakyEnv sampleClient 0 r [] 0 body
              r w) as (_ & Hi & Hr & _); try reflexivity.
  - unfold limitReached. lia.
  - exact Hbody.
  - split; [exact Hi | exact Hr].
Defined.

(** *** [updater.update]: one pass over a commit *)

(** Modelled from the spec: [store.CommitUpdateRecord] is declared in the
    [store] package, which is not among the sources.  The record of one
    update pass holds the start and end times, the commit hash and time,
    the number of CVE files in total and the numbers processed, added and
    modified, and the text of an error; the store identifies it by an ID
    that it assigns when the record is created. *)
Module CommitUpdateRecord.

Record t := {
  ID : nat;
  StartedAt : Time;
  EndedAt : Time;
  CommitHash : string;
  CommitTime : Time;
  NumTotal : Z;
  NumProcessed : Z;
  NumAdded : Z;
  NumModified : Z;
  Error : string;
}.

Definition setID (i : nat) (r : t) : t :=
  {| ID := i; StartedAt := StartedAt r; EndedAt := EndedAt r;
     CommitHash := CommitHash r; CommitTime := CommitTime r;
     NumTotal := NumTotal r; NumProcessed := NumProcessed r;
     NumAdded := NumAdded r; NumModified := NumModified r;
     Error := Error r |}.

Definition setEndedAt (time : Time) (r : t) : t :=
  {| ID := ID r; StartedAt := StartedAt r; EndedAt := time;
     CommitHash := CommitHash r; CommitTime := CommitTime r;
     NumTotal := NumTotal r; NumProcessed := NumProcessed r;
     NumAdded := NumAdded r; NumModified := NumModified r;
     Error := Error r |}.

Definition setError (msg : string) (r : t) : t :=
  {| ID := ID r; StartedAt := StartedAt r; EndedAt := EndedAt r;
     CommitHash := CommitHash r; CommitTime := CommitTime r;
     NumTotal := NumTotal r; NumProcessed := NumProcessed r;
     NumAdded := NumAdded r; NumModified := NumModified r;
     Error := msg |}.

(** [ur.NumProcessed += p; ur.NumAdded += a; ur.NumModified += m] *)
Definition addCounts (p a m : Z) (r : t) : t :=
  {| ID := ID r; StartedAt := StartedAt r; EndedAt := EndedAt r;
     CommitHash := CommitHash r; CommitTime := CommitTime r;
     NumTotal := NumTotal r; NumProcessed := (NumProcessed r + p)%Z;
     NumAdded := (NumAdded r + a)%Z; NumModified := (NumModified r + m)%Z;
     Error := Error r |}.

End CommitUpdateRecord.

(** The state of a pass: the world, and the commit update records of the
    store in the order of their creation. *)
Record Pass := {
  world : World;
  updates : list CommitUpdateRecord.t;
}.

Section Update.

Variable E : Env.
Variable u : updater.

(** What the pass takes from the repository and from Go's errors: the
    committer time of the commit, as [u.repo.CommitObject] yields it; the
    sorted CVE files of the commit, as [repoCVEFiles] yields them; and the
    text of an error, [err.Error()]. *)
Variable commit : result Time.
Variable cveFiles : result (list repoFile).
Variable errorText : error -> string.

(** A call to the store about an update record: it is counted, and fails
    when the environment says so. *)
Definition storeCall (p : Pass) : Pass * result unit :=
  let w := world p in
  let p' :=
    {| world := {| dirHashes := dirHashes w; cveRecords := cveRecords w;
                   issues := issues w; calls := S (calls w);
                   trace := trace w |};
       updates := updates p |} in
  if fails E (calls w) then (p', Err (ErrIO (calls w))) else (p', Ok tt).

(** Modelled from the spec: [st.CreateCommitUpdateRecord(ctx, ur)] stores
    the record and sets its ID. *)
Definition CreateCommitUpdateRecord (ur : CommitUpdateRecord.t) (p : Pass)
  : Pass * result CommitUpdateRecord.t :=
  match storeCall p with
  | (p', Err e) => (p', Err e)
  | (p', Ok _) =>
      let ur' := CommitUpdateRecord.setID (length (updates p')) ur in
      ({| world := world p'; updates := updates p' ++ [ur'] |}, Ok ur')
  end.

(** Modelled from the spec: [st.SetCommitUpdateRecord(ctx, ur)] replaces
    the stored record that has the ID of [ur]. *)
Definition SetCommitUpdateRecord (ur : CommitUpdateRecord.t) (p : Pass)
  : Pass * result unit :=
  match storeCall p with
  | (p', Err e) => (p', Err e)
  | (p', Ok _) =>
      ({| world := world p';
          updates := <[CommitUpdateRecord.ID ur := ur]> (updates p') |},
       Ok tt)
  end.

(** The loop [for _, dirFiles := range filesByDir] of [update]: the
    record as the loop leaves it, and the error with which [update]
    returns from inside the loop, if it does.  Indexing out of range in
    [updateDirectory] is a panic, which ends the pass. *)
Fixpoint updateLoop (filesByDir : list (list repoFile))
         (ur : CommitUpdateRecord.t) (p : Pass)
  : Pass * (CommitUpdateRecord.t * option error) :=
  match filesByDir with
  | [] => (p, (ur, None))
  | dirFiles :: rest =>
      let '(w1, r) := updateDirectory E u dirFiles (world p) in
      let p1 := {| world := w1; updates := updates p |} in
      match r with
      | Err ErrIndexOutOfRange => (p1, (ur, Some ErrIndexOutOfRange))
      | Err err =>
          let ur := CommitUpdateRecord.setError (errorText err) ur in
          match SetCommitUpdateRecord ur p1 with
          | (p2, Err err2) =>
              (p2,
               (ur,
                Some (ErrWrapped
                        ("update failed, could not set update record: "
                         +:+ errorText err2) err)))
          | (p2, Ok _) =>
              let ur := CommitUpdateRecord.addCounts 0 0 0 ur in
              match SetCommitUpdateRecord ur p2 with
              | (p3, Err e) => (p3, (ur, Some e))
              | (p3, Ok _) => updateLoop rest ur p3
              end
          end
      | Ok stats =>
          let ur :=
            CommitUpdateRecord.addCounts (numProcessed stats)
              (numAdded stats) (numModified stats) ur in
          match SetCommitUpdateRecord ur p1 with
          | (p3, Err e) => (p3, (ur, Some e))
          | (p3, Ok _) => updateLoop rest ur p3
          end
      end
  end.

(** The context that the deferred [derrors.Wrap] of [update] adds. *)
Definition updateContext : string :=
  "updater.update(" +:+ Hash_String (commitHash u) +:+ ")".

Definition wrapUpdate (e : error) : error :=
  match e with
  | ErrIndexOutOfRange => ErrIndexOutOfRange
  | _ => ErrWrapped updateContext e
  end.

(** [u.update(ctx)]: the update record and the error returned. *)
Definition update (p : Pass)
  : Pass * (option CommitUpdateRecord.t * option error) :=
  match commit with
  | Err e => (p, (None, Some (wrapUpdate e)))
  | Ok when =>
      match cveFiles with
      | Err e => (p, (None, Some (wrapUpdate e)))
      | Ok files =>
          match groupFilesByDirectory files with
          | Err e => (p, (None, Some (wrapUpdate e)))
          | Ok filesByDir =>
              let ur :=
                {| CommitUpdateRecord.ID := 0;
                   CommitUpdateRecord.StartedAt := timeAt E (calls (world p));
                   CommitUpdateRecord.EndedAt := 0;
                   CommitUpdateRecord.CommitHash :=
                     Hash_String (commitHash u);
                   CommitUpdateRecord.CommitTime := when;
                   CommitUpdateRecord.NumTotal := Z.of_nat (length files);
                   CommitUpdateRecord.NumProcessed := 0;
                   CommitUpdateRecord.NumAdded := 0;
                   CommitUpdateRecord.NumModified := 0;
                   CommitUpdateRecord.Error := "" |} in
              match CreateCommitUpdateRecord ur p with
              | (p1, Err e) => (p1, (Some ur, Some (wrapUpdate e)))
              | (p1, Ok ur) =>
                  match updateLoop filesByDir ur p1 with
                  | (p2, (ur, Some e)) => (p2, (Some ur, Some (wrapUpdate e)))
                  | (p2, (ur, None)) =>
                      let ur :=
                        CommitUpdateRecord.setEndedAt
                          (timeAt E (calls (world p2))) ur in
                      match SetCommitUpdateRecord ur p2 with
                      | (p3, Err e) => (p3, (Some ur, Some (wrapUpdate e)))
                      | (p3, Ok _) => (p3, (Some ur, None))
                      end
                  end
              end
          end
      end
  end.

End Update.

(** *** Facts about [update] *)

Section UpdateFacts.

Variable E : Env.
Variable u : updater.
Variable commit : result Time.
Variable cveFiles : result (list repoFile).
Variable errorText : error -> string.




























Lemma grouping_refused files :
  notContiguous files ->
  exists d, groupFilesByDirectory files = Err (ErrNotContiguous d).
Proof.
  intros Hnc. destruct files as [|f files].
  { destruct Hnc as (l1 & ? & ? & ? & ? & ? & ? & H & _).
    now destruct l1. }
  rewrite groupFilesByDirectory_unfold by discriminate.
  destruct (groupsOf_props (f :: files)) as (_ & Hgood & _).
  destruct (checkSeen (groupsOf (f :: files)) ∅) as [e|] eqn:Hseen.
  - destruct (checkSeen_Some _ _ _ Hgood Hseen) as [d ->]. now exists d.
  - exfalso. apply (checkSeen_None _ ∅ Hgood) in Hseen as [Hnd _].
    now apply groupsOf_NoDup in Hnd.
Qed.

(** When the files of some directory are not contiguous in the list of
    CVE files, [update] returns the error of [groupFilesByDirectory]
    before it calls the store: no update record is created and nothing
    changes. *)
Theorem update_refuses_split_directories when files p :
  commit = Ok when -> cveFiles = Ok files -> notContiguous files ->
  exists d,
    update E u commit cveFiles errorText p
    = (p, (None,
           Some (ErrWrapped (updateContext u) (ErrNotContiguous d)))).
Proof.
  intros Hc Hf Hnc. destruct (grouping_refused files Hnc) as [d Hd].
  exists d. unfold update. now rewrite Hc, Hf, Hd.
Qed.


End UpdateFacts.

(** *** A sample pass *)

(** The text of an error: the context of a wrapped error comes first. *)
Fixpoint sampleErrorText (e : error) : string :=
  match e with
  | ErrIO _ => "store: unavailable"
  | ErrRepo msg => msg
  | ErrTriage msg => msg
  | ErrTemplate msg => msg
  | ErrUnknownTriageState ts => "unknown TriageState: " +:+ ts
  | ErrNotContiguous dir => "directory " +:+ dir +:+ " is not contiguous"
  | ErrIndexOutOfRange => "index out of range"
  | ErrWrapped context cause => context +:+ ": " +:+ sampleErrorText cause
  end.

(** A file of another directory whose blob cannot be read. *)
Definition lostFile : repoFile :=
  {| dirPath := "2020/9xxx"; filename := "CVE-2020-9283.json";
     treeHash := [Byte.x45]; blobHash := [Byte.x00];
     year := 2020; number := 9283 |}.

(** An updater that reads every blob but the one of [lostFile]. *)
Definition patchyUpdater : updater :=
  {| repo := fun h =>
       match h with
       | [Byte.x00] => Err (ErrRepo "object not found")
       | _ => Ok sampleCVE
       end;
     commitHash := [Byte.xef]; knownIDs := ∅;
     affectedModule := fun _ => Ok (Some sampleModule) |}.

Definition samplePass : Pass :=
  {| world := quietWorld; updates := [] |}.

Lemma update_refuses_split_directories_witness :
  exists d,
    update sampleEnv sampleUpdater (Ok 100%Z) (Ok testFilesSplit)
           sampleErrorText samplePass
    = (samplePass,
       (None,
        Some (ErrWrapped (updateContext sampleUpdater) (ErrNotContiguous d)))).
Proof.
  apply (update_refuses_split_directories sampleEnv sampleUpdater
           (Ok 100%Z) (Ok testFilesSplit) sampleErrorText 100%Z
           testFilesSplit samplePass eq_refl eq_refl).
  exists [], (file "a" ""), [], (file "b" ""), [], (file "a" ""), [].
  repeat split. discriminate.
Defined.


(** *** [checkUpdate] and [UpdateCommit] *)

(** Why [checkUpdate] refuses an update: the three messages of its
    [CheckUpdateError]. *)
Inductive refusal :=
| NotFinished
| FinishedWithError (msg : string)
| OlderCommit.

(** What [checkUpdate] returns: nil, a [CheckUpdateError], or another
    error. *)
Inductive checked :=
| Allowed
| Refused (why : refusal)
| CheckFailed (e : error).

Section Check.

Variable E : Env.

(** Modelled from the spec: [st.ListCommitUpdateRecords(ctx, limit)]
    yields the latest update records, newest first. *)
Definition ListCommitUpdateRecords (limit : nat) (p : Pass)
  : Pass * result (list CommitUpdateRecord.t) :=
  match storeCall E p with
  | (p', Err e) => (p', Err e)
  | (p', Ok _) => (p', Ok (take limit (rev (updates p'))))
  end.

(** [checkUpdate(ctx, repo, commitHash, st)]; [commit] is what
    [repo.CommitObject(commitHash)] yields, the committer time. *)
Definition checkUpdate (commit : result Time) (p : Pass) : Pass * checked :=
  match ListCommitUpdateRecords 1 p with
  | (p', Err e) => (p', CheckFailed e)
  | (p', Ok urs) =>
      match urs with
      | [] => (p', Allowed)
      | lu :: _ =>
          if IsZero (CommitUpdateRecord.EndedAt lu)
          then (p', Refused NotFinished)
          else if negb (GoStrings.eq (CommitUpdateRecord.Error lu) "")
          then (p', Refused (FinishedWithError (CommitUpdateRecord.Error lu)))
          else
            match commit with
            | Err e => (p', CheckFailed e)
            | Ok when =>
                if (when <? CommitUpdateRecord.CommitTime lu)%Z
                then (p', Refused OlderCommit)
                else (p', Allowed)
            end
      end
  end.

(** What [UpdateCommit] returns: nil, the refusal of [checkUpdate], or
    another error. *)
Inductive committed :=
| Updated
| NotUpdated (why : refusal)
| UpdateFailed (e : error).

(** [UpdateCommit(ctx, repoPath, commitHash, st, pkgsiteURL, force)].
    From outside come [plumbing.NewHash], what [gitrepo.CloneOrOpen] and
    [readVulnDB] yield, the reading of blobs, of the commit and of its CVE
    files, the classifier [TriageCVE] and the text of errors. *)
Definition UpdateCommit
           (NewHash : string -> Hash)
           (opened : result (Hash -> result cveschema.CVE))
           (commit : result Time)
           (cveFiles : result (list repoFile))
           (knownVulnIDs : result (list string))
           (TriageCVE : cveschema.CVE -> result (option triageResult))
           (errorText : error -> string)
           (repoPath commitHash_ : string) (force : bool) (p : Pass)
  : Pass * committed :=
  let context :=
    "RunCommitUpdate(" +:+ strconv_Quote E repoPath +:+ ", "
    +:+ strconv_Quote E commitHash_ +:+ ", force="
    +:+ (if force then "true" else "false") +:+ ")" in
  match opened with
  | Err e => (p, UpdateFailed (ErrWrapped context e))
  | Ok repo_ =>
      let '(p1, check) :=
        if negb force then checkUpdate commit p else (p, Allowed) in
      match check with
      | CheckFailed e => (p1, UpdateFailed (ErrWrapped context e))
      | Refused why => (p1, NotUpdated why)
      | Allowed =>
          match knownVulnIDs with
          | Err e => (p1, UpdateFailed (ErrWrapped context e))
          | Ok ids =>
              let u :=
                newUpdater repo_ (NewHash commitHash_) ids TriageCVE in
              match update E u commit cveFiles errorText p1 with
              | (p2, (_, Some e)) =>
                  (p2, UpdateFailed (ErrWrapped context e))
              | (p2, (_, None)) => (p2, Updated)
              end
          end
      end
  end.

End Check.

(** *** An update and the check that follows it *)

Section CheckFacts.

Variable E : Env.
Variable u : updater.
Variable commit : result Time.
Variable cveFiles : result (list repoFile).
Variable errorText : error -> string.

Definition isPanic (e : error) : bool :=
  match e with ErrIndexOutOfRange => true | _ => false end.

(** One round of the loop of [update]. *)
Lemma updateLoop_cons dirFiles rest ur p :
  updateLoop E u errorText (dirFiles :: rest) ur p
  = let '(w1, r) := updateDirectory E u dirFiles (world p) in
    let p1 := {| world := w1; updates := updates p |} in
    match r with
    | Err err =>
        if isPanic err then (p1, (ur, Some err))
        else
          let ur := CommitUpdateRecord.setError (errorText err) ur in
          match SetCommitUpdateRecord E ur p1 with
          | (p2, Err err2) =>
              (p2,
               (ur,
                Some (ErrWrapped
                        ("update failed, could not set update record: "
                         +:+ errorText err2) err)))
          | (p2, Ok _) =>
              let ur := CommitUpdateRecord.addCounts 0 0 0 ur in
              match SetCommitUpdateRecord E ur p2 with
              | (p3, Err e) => (p3, (ur, Some e))
              | (p3, Ok _) => updateLoop E u errorText rest ur p3
              end
          end
    | Ok stats =>
        let ur :=
          CommitUpdateRecord.addCounts (numProcessed stats)
            (numAdded stats) (numModified stats) ur in
        match SetCommitUpdateRecord E ur p1 with
        | (p3, Err e) => (p3, (ur, Some e))
        | (p3, Ok _) => updateLoop E u errorText rest ur p3
        end
    end.
Proof.
  cbn [updateLoop].
  destruct (updateDirectory E u dirFiles (world p)) as [w1 [stats|e]];
    [reflexivity|].
  destruct e; reflexivity.
Qed.

(** The record of the pass is the one stored under [i], and it has no end
    time. *)
Definition openRecord (i : nat) (l : list CommitUpdateRecord.t) : Prop :=
  exists x, l !! i = Some x /\ CommitUpdateRecord.EndedAt x = 0%Z.

Lemma SetCommitUpdateRecord_open ur p :
  CommitUpdateRecord.EndedAt ur = 0%Z ->
  openRecord (CommitUpdateRecord.ID ur) (updates p) ->
  length (updates (fst (SetCommitUpdateRecord E ur p))) = length (updates p)
  /\ openRecord (CommitUpdateRecord.ID ur)
                (updates (fst (SetCommitUpdateRecord E ur p))).
Proof.
  intros Hend (x & Hx & Hx0). unfold SetCommitUpdateRecord, storeCall.
  destruct (fails E (calls (world p))); cbn [fst updates].
  - split; [reflexivity|]. now exists x.
  - rewrite length_insert. split; [reflexivity|]. exists ur.
    split; [|exact Hend]. apply list_lookup_insert_eq.
    now apply lookup_lt_Some in Hx.
Qed.

(** During the loop the record of the pass stays without an end time. *)
Lemma updateLoop_open gs ur p :
  CommitUpdateRecord.EndedAt ur = 0%Z ->
  openRecord (CommitUpdateRecord.ID ur) (updates p) ->
  let out := updateLoop E u errorText gs ur p in
  length (updates (fst out)) = length (updates p)
  /\ openRecord (CommitUpdateRecord.ID ur) (updates (fst out))
  /\ CommitUpdateRecord.ID (fst (snd out)) = CommitUpdateRecord.ID ur
  /\ CommitUpdateRecord.EndedAt (fst (snd out)) = 0%Z.
Proof.
  revert ur p. induction gs as [|g gs IH]; intros ur p Hend Hopen; cbv zeta.
  - cbn [updateLoop fst snd]. auto.
  - rewrite updateLoop_cons.
    destruct (updateDirectory E u g (world p)) as [w1 [stats|e]]; cbv zeta.
    + set (ur1 := CommitUpdateRecord.addCounts _ _ _ ur).
      set (p1 := {| world := w1; updates := updates p |}).
      destruct (SetCommitUpdateRecord_open ur1 p1 Hend Hopen) as [Hl Ho].
      destruct (SetCommitUpdateRecord E ur1 p1) as [p3 [[]|e]];
        cbn [fst snd] in *; [|auto].
      destruct (IH ur1 p3 Hend Ho) as (Hl' & Ho' & Hid & He).
      cbv zeta in Hl', Ho', Hid, He. unfold p1 in *. cbn [updates] in *.
      split; [congruence|]. auto.
    + destruct (isPanic e); [cbn [fst snd updates]; auto|].
      set (ur0 := CommitUpdateRecord.setError _ ur).
      set (p1 := {| world := w1; updates := updates p |}).
      destruct (SetCommitUpdateRecord_open ur0 p1 Hend Hopen) as [Hl Ho].
      destruct (SetCommitUpdateRecord E ur0 p1) as [p2 [[]|e2]];
        cbn [fst snd] in *; [|auto].
      set (ur1 := CommitUpdateRecord.addCounts 0 0 0 ur0).
      destruct (SetCommitUpdateRecord_open ur1 p2 Hend Ho) as [Hl2 Ho2].
      destruct (SetCommitUpdateRecord E ur1 p2) as [p3 [[]|e3]];
        cbn [fst snd] in *;
        [|unfold p1 in *; cbn [updates] in *; split; [congruence | auto]].
      destruct (IH ur1 p3 Hend Ho2) as (Hl' & Ho' & Hid & He).
      cbv zeta in Hl', Ho', Hid, He. unfold p1 in *. cbn [updates] in *.
      split; [congruence|]. auto.
Qed.

Lemma newest_record (l : list CommitUpdateRecord.t) n x :
  length l = S n -> l !! n = Some x -> take 1 (rev l) = [x].
Proof.
  intros Hlen Hx.
  assert (Hl : l = take n l ++ [x]).
  { rewrite <- (take_S_r l n x Hx). symmetry. apply take_ge. lia. }
  rewrite Hl, rev_app_distr. reflexivity.
Qed.

Lemma checkUpdate_newest next p n x :
  fails E (calls (world p)) = false ->
  length (updates p) = S n -> updates p !! n = Some x ->
  snd (checkUpdate E next p)
  = if IsZero (CommitUpdateRecord.EndedAt x) then Refused NotFinished
    else if negb (GoStrings.eq (CommitUpdateRecord.Error x) "")
    then Refused (FinishedWithError (CommitUpdateRecord.Error x))
    else match next with
         | Err e => CheckFailed e
         | Ok when =>
             if (when <? CommitUpdateRecord.CommitTime x)%Z
             then Refused OlderCommit else Allowed
         end.
Proof.
  intros Hok Hlen Hx. unfold checkUpdate, ListCommitUpdateRecords, storeCall.
  rewrite Hok. cbn [updates]. rewrite (newest_record _ _ _ Hlen Hx).
  destruct (IsZero _); [reflexivity|].
  destruct (negb _); [reflexivity|].
  destruct next as [when|e]; [|reflexivity].
  now destruct (when <? _)%Z.
Qed.

(** [update] followed by [checkUpdate], for a clock that never shows the
    zero time and a check whose call to the store succeeds.  After an
    update that returned no error the check never finds the pass
    unfinished: it refuses with the recorded error text when a directory
    failed, and otherwise allows every commit that is not older than the
    one processed.  After an update that created its record and then
    returned an error, the record has no end time, and the check refuses
    as not finished.  An update that returned no record created none. *)
Theorem update_then_checkUpdate next p :
  (forall k, timeAt E k <> 0%Z) ->
  let p' := fst (update E u commit cveFiles errorText p) in
  fails E (calls (world p')) = false ->
  match snd (update E u commit cveFiles errorText p) with
  | (Some ur, None) =>
      snd (checkUpdate E next p')
      = if GoStrings.eq (CommitUpdateRecord.Error ur) ""
        then match next with
             | Err e => CheckFailed e
             | Ok when =>
                 if (when <? CommitUpdateRecord.CommitTime ur)%Z
                 then Refused OlderCommit else Allowed
             end
        else Refused (FinishedWithError (CommitUpdateRecord.Error ur))
  | (Some ur, Some e) =>
      length (updates p') = S (length (updates p)) ->
      snd (checkUpdate E next p') = Refused NotFinished
  | (None, _) => updates p' = updates p
  end.
Proof.
  intros Hclock. cbv zeta. unfold update.
  destruct commit as [when|e]; [|reflexivity].
  destruct cveFiles as [files|e]; [|reflexivity].
  destruct (groupFilesByDirectory files) as [gs|e]; [|reflexivity].
  unfold CreateCommitUpdateRecord, storeCall.
  destruct (fails E (calls (world p))) eqn:Hcreate.
  { cbn [fst snd updates]. intros _ H. lia. }
  cbn [updates world].
  set (ur0 := CommitUpdateRecord.setID _ _).
  set (p1 := {| world := _; updates := updates p ++ [ur0] |}).
  assert (Hopen : openRecord (CommitUpdateRecord.ID ur0) (updates p1)).
  { exists ur0. split; [|reflexivity]. subst p1 ur0. cbn [updates].
    cbn [CommitUpdateRecord.ID CommitUpdateRecord.setID].
    apply list_lookup_middle. reflexivity. }
  destruct (updateLoop_open gs ur0 p1 eq_refl Hopen)
    as (Hlen & (x & Hx & Hx0) & Hid & Hend).
  cbv zeta in Hlen, Hx, Hid, Hend.
  assert (Hn : length (updates p1) = S (length (updates p)))
    by (subst p1; cbn [updates]; rewrite length_app; cbn; lia).
  change (CommitUpdateRecord.ID ur0) with (length (updates p)) in *.
  destruct (updateLoop E u errorText gs ur0 p1) as [p2 [ur1 [e|]]];
    cbn [fst snd] in *.
  - intros Hok _.
    rewrite (checkUpdate_newest next p2 (length (updates p)) x Hok);
      [| lia | exact Hx].
    now rewrite Hx0.
  - unfold SetCommitUpdateRecord, storeCall.
    destruct (fails E (calls (world p2))) eqn:Hset; cbn [fst snd].
    + intros Hok _.
      match goal with
      | |- context [checkUpdate E next ?q] =>
          rewrite (checkUpdate_newest next q (length (updates p)) x Hok);
            [| cbn [updates]; lia | exact Hx]
      end.
      now rewrite Hx0.
    + intros Hok.
      set (urF := CommitUpdateRecord.setEndedAt _ ur1).
      assert (HidF : CommitUpdateRecord.ID urF = length (updates p))
        by exact Hid.
      match goal with
      | |- context [checkUpdate E next ?q] =>
          rewrite (checkUpdate_newest next q (length (updates p)) urF Hok)
      end.
      * assert (Hz : IsZero (CommitUpdateRecord.EndedAt urF) = false).
        { unfold IsZero. apply Z.eqb_neq. apply Hclock. }
        rewrite Hz. now destruct (GoStrings.eq _ "").
      * cbn [updates]. rewrite length_insert. lia.
      * cbn [updates]. rewrite HidF. apply list_lookup_insert_eq. lia.
Qed.

End CheckFacts.

(** *** [UpdateCommit] and its check *)

Section CommitFacts.

Variable E : Env.
Variable NewHash : string -> Hash.
Variable opened : result (Hash -> result cveschema.CVE).
Variable commit : result Time.
Variable cveFiles : result (list repoFile).
Variable knownVulnIDs : result (list string).
Variable TriageCVE : cveschema.CVE -> result (option triageResult).
Variable errorText : error -> string.
Variable repoPath commitHash_ : string.

(** The latest update record ended, and without an error. *)
Definition settled (x : CommitUpdateRecord.t) : Prop :=
  CommitUpdateRecord.EndedAt x <> 0%Z /\ CommitUpdateRecord.Error x = "".

(** Without [force], [UpdateCommit] on a store whose latest update record
    has no end time or has an error text is refused with a
    [CheckUpdateError]: it makes one call to the store, creates no update
    record and leaves the CVE records and directory hashes as they are.
    With [force] the check is skipped, and [UpdateCommit] never returns a
    [CheckUpdateError]. *)
Theorem UpdateCommit_check (p : Pass) :
  (forall repo_ n x,
      opened = Ok repo_ ->
      fails E (calls (world p)) = false ->
      length (updates p) = S n -> updates p !! n = Some x ->
      ~ settled x ->
      exists why,
        UpdateCommit E NewHash opened commit cveFiles knownVulnIDs TriageCVE
                     errorText repoPath commitHash_ false p
        = ({| world :=
                {| dirHashes := dirHashes (world p);
                   cveRecords := cveRecords (world p);
                   issues := issues (world p);
                   calls := S (calls (world p));
                   trace := trace (world p) |};
              updates := updates p |},
           NotUpdated why)
        /\ why = if IsZero (CommitUpdateRecord.EndedAt x) then NotFinished
                 else FinishedWithError (CommitUpdateRecord.Error x))
  /\ (forall why,
         snd (UpdateCommit E NewHash opened commit cveFiles knownVulnIDs
                           TriageCVE errorText repoPath commitHash_ true p)
         <> NotUpdated why).
Proof.
  split.
  - intros repo_ n x Hopen Hok Hlen Hx Hns.
    unfold UpdateCommit. rewrite Hopen. cbn [negb].
    unfold checkUpdate, ListCommitUpdateRecords, storeCall. rewrite Hok.
    cbn [updates]. rewrite (newest_record _ _ _ Hlen Hx).
    unfold IsZero.
    destruct (CommitUpdateRecord.EndedAt x =? 0)%Z eqn:Hz; [eauto|].
    destruct (GoStrings.eq (CommitUpdateRecord.Error x) "") eqn:He;
      cbn [negb]; [|eauto].
    exfalso. apply Hns. split; [now apply Z.eqb_neq|].
    now apply GoStrings.eq_true.
  - intros why. unfold UpdateCommit.
    destruct opened as [repo_|e]; [|discriminate]. cbn [negb].
    destruct knownVulnIDs as [ids|e]; [|discriminate].
    destruct (update _ _ _ _ _ _) as [p2 [out [e|]]]; discriminate.
Qed.

End CommitFacts.

(** An environment in which the eighth call fails: in a pass over one
    directory with one file, the call that stores the update record after
    the directory. *)
Definition lateEnv : Env :=
  {| path_Join := path_Join sampleEnv; strconv_Quote := strconv_Quote sampleEnv;
     CVEListRepoURL := CVEListRepoURL sampleEnv;
     fails := fun k => Nat.eqb k 7;
     timeAt := timeAt sampleEnv |}.

Lemma update_then_checkUpdate_witness :
  snd (checkUpdate sampleEnv (Ok 200%Z)
         (fst (update sampleEnv patchyUpdater (Ok 100%Z)
                 (Ok [lostFile; sampleFile]) sampleErrorText samplePass)))
  = Refused
      (FinishedWithError
         ("updateBatch(CVE-2020-9283-CVE-2020-9283): "
          +:+ "handleCVE(CVE-2020-9283.json): object not found"))
  /\ snd (checkUpdate lateEnv (Ok 200%Z)
            (fst (update lateEnv sampleUpdater (Ok 100%Z) (Ok [sampleFile])
                    sampleErrorText samplePass)))
     = Refused NotFinished.
Proof.
  split.
  - pose proof (update_then_checkUpdate sampleEnv patchyUpdater (Ok 100%Z)
                  (Ok [lostFile; sampleFile]) sampleErrorText (Ok 200%Z)
                  samplePass) as H.
    cbv zeta in H. vm_compute. vm_compute in H. apply H.
    + intros k Hk. destruct k; discriminate.
    + reflexivity.
  - pose proof (update_then_checkUpdate lateEnv sampleUpdater (Ok 100%Z)
                  (Ok [sampleFile]) sampleErrorText (Ok 200%Z)
                  samplePass) as H.
    cbv zeta in H. vm_compute. vm_compute in H. apply H.
    + intros k Hk. destruct k; discriminate.
    + reflexivity.
    + reflexivity.
Defined.

Lemma UpdateCommit_check_witness :
  exists why,
    snd (UpdateCommit sampleEnv (fun _ => [Byte.xef])
           (Ok (repo patchyUpdater)) (Ok 200%Z) (Ok [sampleFile]) (Ok [])
           (affectedModule patchyUpdater) sampleErrorText
           "cvelist" "ef" false
           (fst (update sampleEnv patchyUpdater (Ok 100%Z)
                   (Ok [lostFile; sampleFile]) sampleErrorText samplePass)))
    = NotUpdated why.
Proof.
  pose proof (UpdateCommit_check sampleEnv (fun _ => [Byte.xef])
                (Ok (repo patchyUpdater)) (Ok 200%Z) (Ok [sampleFile])
                (Ok []) (affectedModule patchyUpdater) sampleErrorText
                "cvelist" "ef"
                (fst (update sampleEnv patchyUpdater (Ok 100%Z)
                        (Ok [lostFile; sampleFile]) sampleErrorText
                        samplePass))) as [H _].
  vm_compute. vm_compute in H.
  destruct (H _ 0%nat _ eq_refl eq_refl eq_refl eq_refl) as (why & Hrun & _).
  - intros [_ Herr]. discriminate Herr.
  - exists why. exact (f_equal snd Hrun).
Defined.

(** *** [walkFiles] and [repoCVEFiles]: the CVE files of a commit *)

(** [isCVEFilename(name)] *)
Definition isCVEFilename (name : string) : bool :=
  GoStrings.HasPrefix name "CVE-" && GoStrings.eq (path_Ext name) ".json".

(** [s[lo:hi]] on a string; slicing outside of [0 <= lo <= hi <= len(s)]
    panics. *)
Definition slice (s : string) (lo hi : Z) : result string :=
  if ((0 <=? lo) && (lo <=? hi) && (hi <=? Z.of_nat (String.length s)))%Z
  then Ok (String.substring (Z.to_nat lo) (Z.to_nat (hi - lo)) s)
  else Err ErrIndexOutOfRange.

(** The value of a string of decimal digits. *)
Fixpoint digitsValue (acc : Z) (s : string) : option Z :=
  match s with
  | EmptyString => Some acc
  | String c r =>
      if ModSemver.isDigit c
      then digitsValue (acc * 10 + (Z.of_nat (nat_of_ascii c) - 48))%Z r
      else None
  end.

(** [strconv.Atoi(s)] on a 64-bit platform, after the documentation of the
    standard library: an optional sign and at least one decimal digit; a
    value outside of the range of [int] is an error.  The text of the error
    is that of [strconv.NumError]. *)
Definition Atoi (E : Env) (s : string) : result Z :=
  let '(negative, digits) :=
    match s with
    | String "-" r => (true, r)
    | String "+" r => (false, r)
    | _ => (false, s)
    end in
  let failed why :=
    Err (ErrRepo ("strconv.Atoi: parsing " +:+ strconv_Quote E s +:+ ": "
                  +:+ why)) in
  if GoStrings.eq digits "" then failed "invalid syntax"
  else
    match digitsValue 0 digits with
    | None => failed "invalid syntax"
    | Some n =>
        let n := if negative : bool then (- n)%Z else n in
        if ((- 2 ^ 63 <=? n) && (n <=? 2 ^ 63 - 1))%Z then Ok n
        else failed "value out of range"
    end.

(** Modelled from the spec: the trees of the repository come from the
    [go-git] library, which is not among the sources.  A tree has a hash
    and entries; an entry has a name, a mode and a hash, and for an entry
    that is a directory [repo.TreeObject(e.Hash)] yields its tree or an
    error. *)
Inductive FileMode := Dir | Regular | Executable | Symlink | Submodule.

Record TreeEntry (T : Type) := {
  entryName : string;
  entryMode : FileMode;
  entryHash : Hash;
  entryObject : result T;
}.

Arguments entryName {T} _.
Arguments entryMode {T} _.
Arguments entryHash {T} _.
Arguments entryObject {T} _.

#[warnings="-register-all"]
Inductive Tree := Node (hash : Hash) (entries : list (TreeEntry Tree)).

Definition treeHashOf (t : Tree) : Hash := match t with Node h _ => h end.

Definition entriesOf (t : Tree) : list (TreeEntry Tree) :=
  match t with Node _ es => es end.

Definition isDir (m : FileMode) : bool :=
  match m with Dir => true | _ => false end.

Section Walk.

Variable E : Env.

(** The file that [walkFiles] appends for an entry with a CVE file name:
    the year and the number are read from fixed positions of the name. *)
Definition cveFile (tree : Hash) (dirpath name : string) (blob : Hash)
  : result repoFile :=
  match slice name 4 8 with
  | Err e => Err e
  | Ok yearText =>
      match Atoi E yearText with
      | Err e => Err e
      | Ok year_ =>
          match slice name 9 (Z.of_nat (String.length name) - 5) with
          | Err e => Err e
          | Ok numberText =>
              match Atoi E numberText with
              | Err e => Err e
              | Ok number_ =>
                  Ok {| dirPath := dirpath; filename := name;
                        treeHash := tree; blobHash := blob;
                        year := year_; number := number_ |}
              end
          end
      end
  end.

(** [walkFiles(repo, tree, dirpath, files)] *)
Fixpoint walkFiles (tree : Tree) (dirpath : string) (files : list repoFile)
  : result (list repoFile) :=
  match tree with
  | Node treeHash_ entries =>
      (fix walkEntries (es : list (TreeEntry Tree)) (files : list repoFile)
         : result (list repoFile) :=
         match es with
         | [] => Ok files
         | Build_TreeEntry _ name mode blob object :: rest =>
             if isDir mode then
               match object with
               | Err e => Err e
               | Ok dir =>
                   match walkFiles dir (path_Join E dirpath name) files with
                   | Err e => Err e
                   | Ok files => walkEntries rest files
                   end
               end
             else if isCVEFilename name then
               match cveFile treeHash_ dirpath name blob with
               | Err e => Err e
               | Ok f => walkEntries rest (files ++ [f])
               end
             else walkEntries rest files
         end) entries files
  end.

(** The [less] function that [repoCVEFiles] gives to [sort.Slice]. *)
Definition filesLess (fi fj : repoFile) : bool :=
  if negb (year fi =? year fj)%Z then (year fi <? year fj)%Z
  else (number fi <? number fj)%Z.

End Walk.

(** *** Facts about [walkFiles] *)

Section TreeInduction.

Variable P : Tree -> Prop.

Hypothesis step :
  forall h es,
    Forall (fun e => forall t, entryObject e = Ok t -> P t) es ->
    P (Node h es).

(** Induction on a tree: the trees of its directory entries come first. *)
Lemma Tree_induction : forall t, P t.
Proof.
  fix IH 1. intros [h es]. apply step. revert es. fix IHes 1.
  intros [|e r]; constructor; [|apply IHes].
  destruct e as [n m b [t'|err]]; cbn [entryObject]; intros t Heq.
  - injection Heq as <-. apply IH.
  - discriminate.
Qed.

End TreeInduction.

Section WalkFacts.

Variable E : Env.

(** The loop of [walkFiles] over the entries of a tree with hash [h]. *)
Fixpoint walkEntries (h : Hash) (dirpath : string)
         (es : list (TreeEntry Tree)) (files : list repoFile)
  : result (list repoFile) :=
  match es with
  | [] => Ok files
  | e :: rest =>
      if isDir (entryMode e) then
        match entryObject e with
        | Err err => Err err
        | Ok dir =>
            match walkFiles E dir (path_Join E dirpath (entryName e)) files
            with
            | Err err => Err err
            | Ok files => walkEntries h dirpath rest files
            end
        end
      else if isCVEFilename (entryName e) then
        match cveFile E h dirpath (entryName e) (entryHash e) with
        | Err err => Err err
        | Ok f => walkEntries h dirpath rest (files ++ [f])
        end
      else walkEntries h dirpath rest files
  end.

Lemma walkFiles_entries h es dirpath files :
  walkFiles E (Node h es) dirpath files = walkEntries h dirpath es files.
Proof.
  cbn [walkFiles]. revert files.
  induction es as [|[n m b o] rest IH]; intros files; [reflexivity|].
  cbn [walkEntries entryMode entryObject entryName entryHash].
  destruct (isDir m).
  - destruct o as [dir|err]; [|reflexivity].
    destruct (walkFiles E dir _ files); [apply IH | reflexivity].
  - destruct (isCVEFilename n); [|apply IH].
    destruct (cveFile E h dirpath n b); [apply IH | reflexivity].
Qed.

(** The CVE files of a tree: a file is an entry of the tree that is not a
    directory and has a CVE file name from which year and number can be
    read, or it is such a file of the tree of a directory entry. *)
Inductive found : Tree -> string -> repoFile -> Prop :=
| foundHere h es dirpath e f :
    e ∈ es -> isDir (entryMode e) = false ->
    isCVEFilename (entryName e) = true ->
    cveFile E h dirpath (entryName e) (entryHash e) = Ok f ->
    found (Node h es) dirpath f
| foundBelow h es dirpath e dir f :
    e ∈ es -> isDir (entryMode e) = true -> entryObject e = Ok dir ->
    found dir (path_Join E dirpath (entryName e)) f ->
    found (Node h es) dirpath f.

Lemma found_cons h e es dirpath f :
  found (Node h (e :: es)) dirpath f
  <-> (isDir (entryMode e) = false /\ isCVEFilename (entryName e) = true
       /\ cveFile E h dirpath (entryName e) (entryHash e) = Ok f)
      \/ (isDir (entryMode e) = true
          /\ exists dir, entryObject e = Ok dir
               /\ found dir (path_Join E dirpath (entryName e)) f)
      \/ found (Node h es) dirpath f.
Proof.
  split.
  - intros H. inversion H as [h' es' d' e' f' Hin Hd Hn Hf
                              |h' es' d' e' dir f' Hin Hd Ho Hf]; subst.
    + apply elem_of_cons in Hin as [->|Hin]; [now left|].
      right. right. now apply (foundHere h es dirpath e').
    + apply elem_of_cons in Hin as [->|Hin]; [right; left; eauto|].
      right. right. now apply (foundBelow h es dirpath e' dir).
  - intros [(Hd & Hn & Hf)|[(Hd & dir & Ho & Hf)|H]].
    + apply (foundHere h _ dirpath e); auto. apply elem_of_cons. now left.
    + apply (foundBelow h _ dirpath e dir); auto. apply elem_of_cons.
      now left.
    + inversion H as [h' es' d' e' f' Hin Hd Hn Hf
                     |h' es' d' e' dir f' Hin Hd Ho Hf]; subst.
      * apply (foundHere h _ dirpath e'); auto. apply elem_of_cons.
        now right.
      * apply (foundBelow h _ dirpath e' dir); auto. apply elem_of_cons.
        now right.
Qed.

Lemma found_nil h dirpath f : ~ found (Node h []) dirpath f.
Proof.
  intros H. inversion H as [? ? ? ? ? Hin|? ? ? ? ? ? Hin]; subst;
    now apply elem_of_nil in Hin.
Qed.

Lemma walkFiles_found tree :
  forall dirpath files0 files,
    walkFiles E tree dirpath files0 = Ok files ->
    exists new,
      files = files0 ++ new /\ forall f, f ∈ new <-> found tree dirpath f.
Proof.
  induction tree as [h es IH] using Tree_induction.
  intros dirpath files0 files. rewrite walkFiles_entries.
  revert files0. induction es as [|e rest IHes]; intros files0 Hrun.
  - injection Hrun as <-. exists []. rewrite app_nil_r. split; [reflexivity|].
    intros f. split; [intros H; now apply elem_of_nil in H|].
    intros H. now apply found_nil in H.
  - apply Forall_cons in IH as [IHe IHrest]. specialize (IHes IHrest).
    cbn [walkEntries] in Hrun.
    destruct (isDir (entryMode e)) eqn:Hd.
    + destruct (entryObject e) as [dir|err] eqn:Ho; [|discriminate].
      destruct (walkFiles E dir (path_Join E dirpath (entryName e)) files0)
        as [files1|err] eqn:Hsub; [|discriminate].
      destruct (IHe dir eq_refl _ _ _ Hsub) as (new1 & -> & Hnew1).
      destruct (IHes _ Hrun) as (new2 & -> & Hnew2).
      exists (new1 ++ new2). rewrite app_assoc. split; [reflexivity|].
      intros f. rewrite elem_of_app, found_cons, Hnew1, Hnew2, Hd. split.
      * intros [H|H]; [right; left; eauto | now right; right].
      * intros [(Hc & _)|[(_ & dir' & Hdir & H)|H]];
          [discriminate | left; congruence | now right].
    + destruct (isCVEFilename (entryName e)) eqn:Hn.
      * destruct (cveFile E h dirpath (entryName e) (entryHash e))
          as [f0|err] eqn:Hf; [|discriminate].
        destruct (IHes _ Hrun) as (new2 & -> & Hnew2).
        exists (f0 :: new2). rewrite <- app_assoc. split; [reflexivity|].
        intros f. rewrite elem_of_cons, found_cons, Hnew2, Hd, Hf. split.
        -- intros [->|H]; [now left | now right; right].
        -- intros [(_ & _ & Hc)|[(Hc & _)|H]];
             [left; congruence | discriminate | now right].
      * destruct (IHes _ Hrun) as (new2 & -> & Hnew2).
        exists new2. split; [reflexivity|].
        intros f. rewrite found_cons, Hnew2, Hd, Hn. split; [now right; right|].
        intros [(_ & Hc & _)|[(Hc & _)|H]]; [discriminate.. | exact H].
Qed.


Lemma walkEntries_app h dirpath before rest files0 files1 :
  walkEntries h dirpath before files0 = Ok files1 ->
  walkEntries h dirpath (before ++ rest) files0
  = walkEntries h dirpath rest files1.
Proof.
  revert files0. induction before as [|e before IH]; intros files0 H.
  - now injection H as ->.
  - cbn [app walkEntries] in *.
    destruct (isDir (entryMode e)).
    + destruct (entryObject e) as [dir|]; [|discriminate].
      destruct (walkFiles E dir _ files0); [now apply IH | discriminate].
    + destruct (isCVEFilename (entryName e)); [|now apply IH].
      destruct (cveFile E h dirpath _ _); [now apply IH | discriminate].
Qed.

(** The extension that [path.Ext] finds is a suffix of the path. *)
Lemma extScan_suffix p :
  exists q, p = q +:+ snd (extScan p).
Proof.
  induction p as [|c r [q IH]]; [now exists ""|].
  cbn [extScan]. destruct (extScan r) as [slash e]. cbn [snd] in IH.
  destruct slash; cbn [snd].
  { exists (String c q). change (String c q +:+ e) with (String c (q +:+ e)).
    now rewrite <- IH. }
  destruct (negb (GoStrings.eq e "")); cbn [snd].
  { exists (String c q). change (String c q +:+ e) with (String c (q +:+ e)).
    now rewrite <- IH. }
  destruct (Ascii.eqb c "/"); cbn [snd].
  { exists (String c r). now rewrite GoStrings.append_empty_r. }
  destruct (Ascii.eqb c "."); cbn [snd].
  - now exists "".
  - exists (String c r). now rewrite GoStrings.append_empty_r.
Qed.

Lemma prefix_append_inv p s :
  String.prefix p s = true -> exists r, s = p +:+ r.
Proof.
  revert s. induction p as [|c p IH]; intros s H; [now exists s|].
  destruct s as [|d s]; [discriminate|]. cbn [String.prefix] in H.
  destruct (ascii_dec c d) as [->|]; [|discriminate].
  destruct (IH s H) as [r ->]. now exists r.
Qed.

Lemma append_suffix_inv p x stem e :
  p +:+ x = stem +:+ e -> String.length e <= String.length x ->
  exists q, x = q +:+ e.
Proof.
  revert stem. induction p as [|c p IH]; intros stem H Hlen.
  - now exists stem.
  - destruct stem as [|d stem].
    + change ("" +:+ e) with e in H. subst e.
      rewrite GoStrings.length_append in Hlen. cbn [String.length] in Hlen.
      lia.
    + change (String c (p +:+ x) = String d (stem +:+ e)) in H.
      injection H as _ H. now apply (IH stem).
Qed.

Lemma substring_initial p q :
  String.substring 0 (String.length p) (p +:+ q) = p.
Proof.
  induction p as [|d p IH]; [now destruct q|].
  change (String d p +:+ q) with (String d (p +:+ q)).
  cbn [String.length String.substring]. now rewrite IH.
Qed.

Lemma slice_ok s lo hi t :
  slice s lo hi = Ok t ->
  (0 <= lo <= hi)%Z /\ (hi <= Z.of_nat (String.length s))%Z
  /\ t = String.substring (Z.to_nat lo) (Z.to_nat (hi - lo)) s.
Proof.
  unfold slice.
  destruct ((0 <=? lo)%Z && (lo <=? hi)%Z
            && (hi <=? Z.of_nat (String.length s))%Z) eqn:H; [|discriminate].
  intros [= <-]. apply andb_prop in H as [H H3].
  apply andb_prop in H as [H1 H2].
  apply Z.leb_le in H1, H2, H3. repeat split; assumption.
Qed.

(** The name of a CVE file as [walkFiles] reads it: [CVE-], four bytes for
    the year, one byte that is not looked at, the number and [.json]. *)
Definition named (f : repoFile) : Prop :=
  exists y sep n,
    filename f = "CVE-" +:+ y +:+ String sep (n +:+ ".json")
    /\ String.length y = 4
    /\ Atoi E y = Ok (year f) /\ Atoi E n = Ok (number f).

Lemma cveFile_named h dirpath name blob f :
  isCVEFilename name = true ->
  cveFile E h dirpath name blob = Ok f ->
  named f /\ dirPath f = dirpath /\ treeHash f = h /\ blobHash f = blob.
Proof.
  intros Hname Hf. unfold isCVEFilename in Hname.
  apply andb_prop in Hname as [Hpre Hext].
  apply prefix_append_inv in Hpre as [r ->].
  apply GoStrings.eq_true in Hext.
  destruct (extScan_suffix ("CVE-" +:+ r)) as [stem Hstem].
  fold (path_Ext ("CVE-" +:+ r)) in Hstem. rewrite Hext in Hstem.
  unfold cveFile in Hf.
  destruct (slice ("CVE-" +:+ r) 4 8) as [yearText|] eqn:Hy; [|discriminate].
  destruct (Atoi E yearText) as [year_|] eqn:Hyear; [|discriminate].
  destruct (slice ("CVE-" +:+ r) 9 _) as [numberText|] eqn:Hn; [|discriminate].
  destruct (Atoi E numberText) as [number_|] eqn:Hnumber; [|discriminate].
  injection Hf as <-. cbn [dirPath treeHash blobHash]. split; [|auto].
  apply slice_ok in Hy as (_ & _ & ->). apply slice_ok in Hn as (Hlo & _ & ->).
  change ("CVE-" +:+ r) with (String "C" (String "V" (String "E" (String "-" r))))
    in *.
  cbn [String.length] in Hlo.
  destruct r as [|a [|b [|c [|d [|sep r]]]]]; cbn [String.length] in Hlo;
    try lia.
  destruct (append_suffix_inv
              (String "C" (String "V" (String "E" (String "-"
                (String a (String b (String c (String d (String sep "")))))))))
              r stem ".json") as [q ->];
    [exact Hstem | cbn [String.length]; lia|].
  exists (String a (String b (String c (String d "")))), sep, q.
  cbn [filename year number]. split; [reflexivity|]. split; [reflexivity|].
  split; [exact Hyear|].
  rewrite <- Hnumber. f_equal.
  cbn [String.length]. rewrite GoStrings.length_append. cbn [String.length].
  replace (Z.to_nat 9) with 9 by reflexivity.
  replace (Z.to_nat (Z.of_nat (S (S (S (S (S (S (S (S (S
             (String.length q + 5)))))))))) - 5 - 9))
    with (String.length q) by lia.
  cbn [String.substring]. symmetry. apply substring_initial.
Qed.

Lemma found_named tree dirpath f : found tree dirpath f -> named f.
Proof.
  induction 1 as [h es dirpath e f _ _ Hn Hf|]; [|assumption].
  now destruct (cveFile_named _ _ _ _ _ Hn Hf).
Qed.

(** [walkFiles]: the files that it returns are the files that it was given,
    followed by the CVE files of the tree and of the trees below it, and by
    nothing else. *)
Theorem walkFiles_collects tree dirpath files0 files :
  walkFiles E tree dirpath files0 = Ok files ->
  exists new,
    files = files0 ++ new /\ forall f, f ∈ new <-> found tree dirpath f.
Proof. apply walkFiles_found. Qed.

(** [walkFiles]: the name of every file that it adds is [CVE-], four bytes
    that [strconv.Atoi] reads as the year of the file, one more byte, the
    text that [strconv.Atoi] reads as the number of the file, and [.json].
    The byte between the year and the number can be any byte. *)
Theorem walkFiles_file_names tree dirpath files :
  walkFiles E tree dirpath [] = Ok files -> Forall named files.
Proof.
  intros H. destruct (walkFiles_found tree dirpath [] files H)
    as (new & -> & Hnew).
  cbn [app]. apply Forall_forall. intros f Hf.
  apply (found_named tree dirpath). now apply Hnew.
Qed.

(** [walkFiles]: an entry that is not a directory and has a CVE file name
    of fewer than 14 bytes, of which the bytes 4 to 7 read as a number,
    ends the walk with a panic: the slice that holds the number is out of
    range. *)
Theorem walkFiles_short_name_panics h before e rest dirpath files0 files1 y :
  walkFiles E (Node h before) dirpath files0 = Ok files1 ->
  isDir (entryMode e) = false ->
  isCVEFilename (entryName e) = true ->
  String.length (entryName e) < 14 ->
  Atoi E (String.substring 4 4 (entryName e)) = Ok y ->
  walkFiles E (Node h (before ++ e :: rest)) dirpath files0
  = Err ErrIndexOutOfRange.
Proof.
  intros Hbefore Hd Hn Hlen Hy. rewrite walkFiles_entries in *.
  rewrite (walkEntries_app _ _ _ _ _ _ Hbefore).
  cbn [walkEntries]. rewrite Hd, Hn. unfold cveFile.
  destruct (slice (entryName e) 4 8) as [yearText|err] eqn:Hs.
  - apply slice_ok in Hs as (_ & _ & ->).
    change (Z.to_nat 4) with 4. change (Z.to_nat (8 - 4)) with 4.
    rewrite Hy. unfold slice.
    replace ((0 <=? 9)%Z && (9 <=? Z.of_nat (String.length (entryName e)) - 5)%Z
             && (Z.of_nat (String.length (entryName e)) - 5
                 <=? Z.of_nat (String.length (entryName e)))%Z)
      with false; [reflexivity|].
    symmetry. apply andb_false_iff. left. apply andb_false_iff. right.
    apply Z.leb_gt. lia.
  - unfold slice in Hs.
    destruct ((0 <=? 4)%Z && (4 <=? 8)%Z
              && (8 <=? Z.of_nat (String.length (entryName e)))%Z);
      [discriminate | now injection Hs as <-].
Qed.

(** [repoCVEFiles]: the function that it gives to [sort.Slice] orders the
    files by year and then by number: no file is before itself, the order
    is transitive, and two files of which none is before the other have
    the same year and number, whatever their names and directories. *)
Theorem filesLess_order :
  (forall f, filesLess f f = false)
  /\ (forall f g k,
        filesLess f g = true -> filesLess g k = true -> filesLess f k = true)
  /\ (forall f g,
        filesLess f g = false /\ filesLess g f = false
        <-> year f = year g /\ number f = number g).
Proof.
  unfold filesLess. repeat split.
  - intros f. rewrite Z.eqb_refl. cbn. apply Z.ltb_irrefl.
  - intros f g k.
    destruct (year f =? year g)%Z eqn:H1, (year g =? year k)%Z eqn:H2,
      (year f =? year k)%Z eqn:H3; cbn; lia.
  - destruct H as [H1 H2].
    destruct (year f =? year g)%Z eqn:H3, (year g =? year f)%Z eqn:H4;
      cbn in *; lia.
  - destruct H as [H1 H2].
    destruct (year f =? year g)%Z eqn:H3, (year g =? year f)%Z eqn:H4;
      cbn in *; lia.
  - destruct H as [-> ->]. rewrite Z.eqb_refl. cbn. apply Z.ltb_irrefl.
  - destruct H as [-> ->]. rewrite Z.eqb_refl. cbn. apply Z.ltb_irrefl.
Qed.

End WalkFacts.

(** A sample tree: a file that is no CVE file, and the directory [2021]
    with the directory [0xxx] that holds two CVE files; the second tree has
    a CVE file whose name is too short. *)
Definition walkEnv : Env :=
  {| path_Join :=
       fun dir name => if GoStrings.eq dir "" then name
                       else dir +:+ "/" +:+ name;
     strconv_Quote := strconv_Quote sampleEnv;
     CVEListRepoURL := CVEListRepoURL sampleEnv;
     fails := fails sampleEnv;
     timeAt := timeAt sampleEnv |}.

Definition fileEntry (name : string) (blob : Hash) : TreeEntry Tree :=
  {| entryName := name; entryMode := Regular; entryHash := blob;
     entryObject := Err (ErrRepo "object not found") |}.

Definition dirEntry (name : string) (tree : Tree) : TreeEntry Tree :=
  {| entryName := name; entryMode := Dir; entryHash := treeHashOf tree;
     entryObject := Ok tree |}.

Definition sampleTree : Tree :=
  Node [Byte.x01]
       [fileEntry "README.md" [Byte.x02];
        dirEntry "2021"
          (Node [Byte.x03]
             [dirEntry "0xxx"
                (Node [Byte.x04]
                   [fileEntry "CVE-2021-0001.json" [Byte.x05];
                    fileEntry "CVE-2021-0010.json" [Byte.x06]])])].

Definition sampleFiles : list repoFile :=
  [{| dirPath := "2021/0xxx"; filename := "CVE-2021-0001.json";
      treeHash := [Byte.x04]; blobHash := [Byte.x05];
      year := 2021; number := 1 |};
   {| dirPath := "2021/0xxx"; filename := "CVE-2021-0010.json";
      treeHash := [Byte.x04]; blobHash := [Byte.x06];
      year := 2021; number := 10 |}].

Lemma walkFiles_collects_witness :
  exists new,
    sampleFiles = [] ++ new
    /\ forall f, f ∈ new <-> found walkEnv sampleTree "" f.
Proof. apply (walkFiles_collects walkEnv sampleTree "" [] sampleFiles).
  vm_compute. reflexivity.
Defined.

Lemma walkFiles_file_names_witness : Forall (named walkEnv) sampleFiles.
Proof.
  apply (walkFiles_file_names walkEnv sampleTree ""). vm_compute. reflexivity.
Defined.

Lemma walkFiles_short_name_panics_witness :
  walkFiles walkEnv
    (Node [Byte.x04]
       ([fileEntry "CVE-2021-0001.json" [Byte.x05]]
        ++ fileEntry "CVE-2021.json" [Byte.x07] :: []))
    "2021/0xxx" []
  = Err ErrIndexOutOfRange.
Proof.
  apply (walkFiles_short_name_panics walkEnv [Byte.x04]
           [fileEntry "CVE-2021-0001.json" [Byte.x05]]
           (fileEntry "CVE-2021.json" [Byte.x07]) [] "2021/0xxx" []
           [{| dirPath := "2021/0xxx"; filename := "CVE-2021-0001.json";
               treeHash := [Byte.x04]; blobHash := [Byte.x05];
               year := 2021; number := 1 |}] 2021%Z).
  - vm_compute. reflexivity.
  - reflexivity.
  - vm_compute. reflexivity.
  - cbn. lia.
  - vm_compute. reflexivity.
Defined.

End Worker.
